(** * codehash: a content-derived identity for Python functions

    A shallow embedding of [codehash/__init__.py] and the properties its
    specification states about it.

    The model comes first: text helpers and the SHA-1 digest the module gets
    from [hashlib]; Python values, the object store and the exceptions; the
    structural code normalizer ([ast_code_of], [remove_docstring]); the
    canonical value serializer ([deep_transform], [repr_hashable]); the
    closure and global resolver ([getclosurevars]); module classification
    ([is_stdlib], [version_of]); and the identity computation itself
    ([hashed_globals_of], [hash_function]) with its process-wide [_cache].
    A world holding the functions of the repository's tests follows, then
    the notions the properties are stated with, then the properties. *)

From Stdlib Require Import ZArith Ascii String List Lia Permutation Sorted.
From Stdlib Require OrderedTypeEx QArith_base.
From stdpp Require Import gmap strings list fin_maps pretty.

Import ListNotations.
Local Open Scope Z_scope.
Set Warnings "-register-all".

(** ** Text helpers (Python [str] methods used by the module) *)

Module Text.

Definition quote : ascii := ascii_of_nat 39.
Definition dquote : ascii := ascii_of_nat 34.
Definition backslash : ascii := ascii_of_nat 92.
Definition newline : ascii := ascii_of_nat 10.

Definition chr (c : ascii) : string := String c EmptyString.

(** [sep.join(parts)] *)
Fixpoint join (sep : string) (parts : list string) : string :=
  match parts with
  | [] => EmptyString
  | [p] => p
  | p :: rest => p +:+ sep +:+ join sep rest
  end.

(** [s.split(c)] for a one-character separator: never the empty list. *)
Fixpoint split (c : ascii) (s : string) : list string :=
  match s with
  | EmptyString => [EmptyString]
  | String a s' =>
      if Ascii.eqb a c then EmptyString :: split c s'
      else match split c s' with
           | [] => [chr a]
           | p :: ps => String a p :: ps
           end
  end.

(** [s.startswith(p)] *)
Fixpoint startswith (p s : string) : bool :=
  match p, s with
  | EmptyString, _ => true
  | String a p', String b s' => Ascii.eqb a b && startswith p' s'
  | String _ _, EmptyString => false
  end.

Definition hexdigit (n : Z) : ascii :=
  ascii_of_nat (Z.to_nat (if n <? 10 then 48 + n else 87 + n)).

(** The [n] lowest hexadecimal digits of [x], most significant first. *)
Fixpoint hex (n : nat) (x : Z) : string :=
  match n with
  | O => EmptyString
  | S n' => hex n' (Z.shiftr x 4) +:+ chr (hexdigit (Z.land x 15))
  end.

Definition code_point (c : ascii) : Z := Z.of_nat (nat_of_ascii c).

End Text.

(** ** [hashlib.sha1(...).hexdigest()]

    The digest is a library primitive of the host; it is written out (FIPS
    180-4) so that identities can be computed on concrete inputs. No proof
    below looks inside it: what a property needs of the digest (that two texts
    do not collide) is a hypothesis of that property. *)

Module SHA1.

Definition mask32 (x : Z) : Z := Z.land x 4294967295.
Definition add32 (x y : Z) : Z := mask32 (x + y).
Definition rotl (n x : Z) : Z :=
  mask32 (Z.lor (Z.shiftl x n) (Z.shiftr x (32 - n))).
Definition not32 (x : Z) : Z := Z.lxor x 4294967295.

Definition bytes_of_string (s : string) : list Z :=
  map Text.code_point (list_ascii_of_string s).

(** [n] bytes of [x], big-endian. *)
Fixpoint be_bytes (n : nat) (x : Z) : list Z :=
  match n with
  | O => []
  | S n' => be_bytes n' (Z.shiftr x 8) ++ [Z.land x 255]
  end.

Definition pad (msg : list Z) : list Z :=
  let l := Z.of_nat (length msg) in
  msg ++ [128] ++ repeat 0 (Z.to_nat ((55 - l) mod 64)) ++ be_bytes 8 (8 * l).

Fixpoint words (bs : list Z) : list Z :=
  match bs with
  | b0 :: b1 :: b2 :: b3 :: rest =>
      (b0 * 16777216 + b1 * 65536 + b2 * 256 + b3) :: words rest
  | _ => []
  end.

Fixpoint blocks (n : nat) (ws : list Z) : list (list Z) :=
  match n with
  | O => []
  | S n' => match ws with
            | [] => []
            | _ => firstn 16 ws :: blocks n' (skipn 16 ws)
            end
  end.

(** The message schedule, kept in reverse while it grows. *)
Fixpoint extend (n : nat) (rw : list Z) : list Z :=
  match n with
  | O => rw
  | S n' =>
      let w := Z.lxor (nth 2 rw 0)
                 (Z.lxor (nth 7 rw 0) (Z.lxor (nth 13 rw 0) (nth 15 rw 0))) in
      extend n' (rotl 1 w :: rw)
  end.

Definition schedule (block : list Z) : list Z := rev (extend 64 (rev block)).

Definition state : Type := Z * Z * Z * Z * Z.

Definition round (st : state) (tw : nat * Z) : state :=
  let '(a, b, c, d, e) := st in
  let '(t, w) := tw in
  let '(f, k) :=
    if (t <? 20)%nat then
      (Z.lor (Z.land b c) (Z.land (not32 b) d), 1518500249)
    else if (t <? 40)%nat then
      (Z.lxor b (Z.lxor c d), 1859775393)
    else if (t <? 60)%nat then
      (Z.lor (Z.land b c) (Z.lor (Z.land b d) (Z.land c d)), 2400959708)
    else
      (Z.lxor b (Z.lxor c d), 3395469782) in
  let temp := add32 (add32 (add32 (add32 (rotl 5 a) f) e) k) w in
  (temp, a, rotl 30 b, c, d).

Definition compress (h : state) (block : list Z) : state :=
  let ws := schedule block in
  let '(a, b, c, d, e) := fold_left round (combine (seq 0 80) ws) h in
  let '(h0, h1, h2, h3, h4) := h in
  (add32 h0 a, add32 h1 b, add32 h2 c, add32 h3 d, add32 h4 e).

Definition init : state :=
  (1732584193, 4023233417, 2562383102, 271733878, 3285377520).

Definition hexdigest (text : string) : string :=
  let ws := words (pad (bytes_of_string text)) in
  let '(h0, h1, h2, h3, h4) :=
    fold_left compress (blocks (length ws) ws) init in
  Text.hex 8 h0 +:+ Text.hex 8 h1 +:+ Text.hex 8 h2 +:+ Text.hex 8 h3
    +:+ Text.hex 8 h4.

End SHA1.

(** ** Python values and the object store

    A value is a primitive, an immutable tuple, a container written in place
    ([VList], [VDict]: an object nothing else refers to), or a reference
    [VRef l] to an object of the store: a shared list or dict, a function, a
    class, a module, or an instance of some other class. Objects in the store
    have an identity (their location); [obj is func] compares locations. *)

Abbreviation loc := nat.

(** The value of a number, as [==] and [<] see it: a rational (an [int], a
    [bool], and every finite [float] is one, and Python compares them
    exactly, also across the types), or an infinity. NaN, which [==] and the
    dict lookup treat by the identity of the float object, is not a value of
    the model. *)
Inductive number : Type :=
| Finite (q : QArith_base.Q)
| Infinity (negative : bool).

(** A float: the text [repr] prints for it, and its value. *)
Record float : Type := Float {
  f_repr : string;
  f_value : number
}.

Inductive val : Type :=
| VNone
| VBool (b : bool)
| VInt (n : Z)
| VFloat (x : float)
| VStr (s : string)
| VBytes (s : string)
| VTuple (items : list val)
| VList (items : list val)
| VDict (items : list (val * val))   (* in insertion order *)
| VRef (l : loc).

(** A code object: [co_freevars], [co_names] and [co_consts], whose entries
    are plain constants or the code objects of nested definitions. *)
Inductive code : Type :=
| Code (co_freevars : list string) (co_names : list string)
       (co_consts : list (val + code)).

Definition co_freevars (c : code) : list string :=
  match c with Code fv _ _ => fv end.
Definition co_names (c : code) : list string :=
  match c with Code _ ns _ => ns end.
Definition co_consts (c : code) : list (val + code) :=
  match c with Code _ _ ks => ks end.

(** A function object. [f_source] is [dedent(inspect.getsource(func))];
    [f_closure] holds the contents of the cells of [func.__closure__ or ()];
    [f_builtins] is [func.__globals__['__builtins__']] as a namespace. *)
Record function : Type := Function {
  f_module : string;                 (* __module__ *)
  f_qualname : string;               (* __qualname__ *)
  f_source : string;
  f_code : code;                     (* __code__ *)
  f_closure : list val;              (* __closure__ *)
  f_globals : gmap string val;       (* __globals__ *)
  f_builtins : gmap string val
}.

Record class : Type := Class_ {
  c_module : string;                 (* __module__ *)
  c_qualname : string                (* __qualname__ *)
}.

(** A module object: [__name__], [__file__] (absent on built-in modules) and
    [getattr(mod, '__version__', None)]. *)
Record module : Type := Module_ {
  m_name : string;
  m_file : option string;
  m_version : option string
}.

(** Any other object: its [repr], and its [__codehash__] method when it has
    one ([Some r]: calling it returns [r], a token or [None]). *)
Record instance : Type := Instance_ {
  i_repr : string;
  i_codehash : option (option string)
}.

Inductive object : Type :=
| HList (items : list val)
| HDict (items : list (val * val))
| HFunction (f : function)
| HClass (c : class)
| HModule (m : module)
| HInstance (i : instance).

(** ** Exceptions *)

(** The text of a [CodehashError], with the values its f-string formats kept
    as they are instead of rendered. *)
Inductive message : Type :=
| no_message                                             (* CodehashError() *)
| Unknown_object (o : val)                               (* 'Unknown object: {o!r}' *)
| In_cannot_hash_global (func : loc) (name : string) (obj : val).
                              (* 'In {func} cannot hash global {name} = {obj!r}' *)

Inductive exn : Type :=
| CodehashError (msg : message)
| AssertionError
| KeyError
| AttributeError
| IndexError
| SyntaxError
| TypeError.

(** What a call does: return, raise, or recurse without end ([Diverge], the
    fuel of the model exhausted; CPython then aborts with RecursionError). *)
Inductive outcome (A : Type) : Type :=
| Ret (a : A)
| Raise (e : exn)
| Diverge.

Arguments Ret {A} a.
Arguments Raise {A} e.
Arguments Diverge {A}.

Definition bind {A B : Type} (m : outcome A) (k : A -> outcome B) : outcome B :=
  match m with
  | Ret a => k a
  | Raise e => Raise e
  | Diverge => Diverge
  end.

Notation "x <- m ;; k" := (bind m (fun x => k))
  (at level 100, m at next level, right associativity).

(** A comprehension [[f(x) for x in xs]]: left to right, the first exception
    ends it. *)
Fixpoint for_each {A B : Type} (f : A -> outcome B) (xs : list A)
  : outcome (list B) :=
  match xs with
  | [] => Ret []
  | x :: rest => y <- f x ;; ys <- for_each f rest ;; Ret (y :: ys)
  end.

(** ** The interpreter state the module reads

    [heap] is the object store, [sys_modules] is [sys.modules], [STDLIB_PATHS]
    is the module constant computed at import, and [ast_parse] is the host's
    parser: the statements of [ast.parse(code).body], or [None] for a
    SyntaxError. *)

Inductive ast : Type :=
| Node (cls : string) (fields : list (string * ast))   (* an ast.AST node *)
| Seq (items : list ast)                               (* a list-valued field *)
| Atom (repr : string).                                (* any other field value *)

Record world : Type := World {
  heap : gmap loc object;
  sys_modules : gmap string module;
  STDLIB_PATHS : list string;
  ast_parse : string -> option (list ast)
}.

(** The process-wide identity cache, keyed by function object. *)
Abbreviation cache := (gmap loc string).

(** ** Structural code normalizer *)

(** [node.<name>] read off the node's fields. *)
Fixpoint get_field (name : string) (fields : list (string * ast)) : option ast :=
  match fields with
  | [] => None
  | (n, v) :: rest => if String.eqb n name then Some v else get_field name rest
  end.

(** [node.<name> = v] for a field the node has. *)
Fixpoint set_field (name : string) (v : ast) (fields : list (string * ast))
  : list (string * ast) :=
  match fields with
  | [] => []
  | (n, v0) :: rest =>
      if String.eqb n name then (n, v) :: rest
      else (n, v0) :: set_field name v rest
  end.

Definition isinstance (node : ast) (classes : list string) : bool :=
  match node with
  | Node cls _ => existsb (String.eqb cls) classes
  | _ => false
  end.

(** [isinstance(stmt, ast.Expr)] and [isinstance(stmt.value, ast.Str)] *)
Definition is_docstring (stmt : ast) : bool :=
  match stmt with
  | Node cls fields =>
      String.eqb cls "Expr" &&
      match get_field "value" fields with
      | Some docstr => isinstance docstr ["Str"]
      | None => false
      end
  | _ => false
  end.

Definition remove_docstring (node : ast) : ast :=
  match node with
  | Node cls fields =>
      if isinstance node ["AsyncFunctionDef"; "FunctionDef"; "ClassDef"; "Module"]
      then match get_field "body" fields with
           | Some (Seq (stmt :: rest)) =>
               if is_docstring stmt
               then Node cls (set_field "body" (Seq rest) fields)
               else node
           | _ => node
           end
      else node
  | _ => node
  end.

(** [for node in ast.walk(module): remove_docstring(node)]. The walk visits
    every node of the tree once (a node's children are queued before the node
    is handed out, so a statement popped from a body is still visited), and
    [remove_docstring] changes nothing but the visited node's own [body]: the
    tree left behind is the one with [remove_docstring] applied at every
    node. *)
Fixpoint walk_remove_docstring (node : ast) : ast :=
  match node with
  | Node cls fields =>
      remove_docstring
        (Node cls (map (fun p => (fst p, walk_remove_docstring (snd p))) fields))
  | Seq items => Seq (map walk_remove_docstring items)
  | Atom r => Atom r
  end.

(** [ast.dump(node, annotate_fields=False)]: class names and field values in
    order, no field names, no positions. *)
Fixpoint dump (node : ast) : string :=
  match node with
  | Node cls fields =>
      cls +:+ "(" +:+ Text.join ", " (map (fun p => dump (snd p)) fields) +:+ ")"
  | Seq items => "[" +:+ Text.join ", " (map dump items) +:+ "]"
  | Atom r => r
  end.

(** [dropwhile(lambda l: l[0] == '@', lines)]: [l[0]] on an empty line is an
    IndexError. *)
Fixpoint dropwhile_decorator (lines : list string) : outcome (list string) :=
  match lines with
  | [] => Ret []
  | l :: rest =>
      match l with
      | EmptyString => Raise IndexError
      | String c _ =>
          if Ascii.eqb c (ascii_of_nat 64) then dropwhile_decorator rest
          else Ret lines
      end
  end.

Definition assert (b : bool) : outcome unit :=
  if b then Ret tt else Raise AssertionError.

(** [node.body] as a list of statements. *)
Definition body_of (node : ast) : list ast :=
  match node with
  | Node _ fields =>
      match get_field "body" fields with
      | Some (Seq stmts) => stmts
      | _ => []
      end
  | _ => []
  end.

(** [func_node.name = ''] *)
Definition clear_name (func_node : ast) : ast :=
  match func_node with
  | Node cls fields => Node cls (set_field "name" (Atom "''") fields)
  | _ => func_node
  end.

(** [ast_code_of], from the dedented source text on. *)
Definition ast_code_of_source (w : world) (source : string) : outcome string :=
  lines <- dropwhile_decorator (Text.split Text.newline source) ;;
  let code := Text.join (Text.chr Text.newline) lines in
  match ast_parse w code with
  | None => Raise SyntaxError
  | Some body =>
      _ <- assert (Nat.eqb (length body) 1) ;;
      _ <- assert (match body with
                   | stmt :: _ => isinstance stmt ["AsyncFunctionDef"; "FunctionDef"]
                   | [] => false
                   end) ;;
      let module := walk_remove_docstring (Node "Module" [("body", Seq body)]) in
      match body_of module with
      | func_node :: _ => Ret (dump (clear_name func_node))
      | [] => Raise IndexError
      end
  end.

(** [ast_code_of(func)]; [inspect.getsource] is a TypeError on an object that
    is no function. *)
Definition ast_code_of (w : world) (func : loc) : outcome string :=
  match heap w !! func with
  | Some (HFunction f) => ast_code_of_source w (f_source f)
  | _ => Raise TypeError
  end.

(** ** [repr] of the values the serializer prints *)

Fixpoint contains (c : ascii) (s : string) : bool :=
  match s with
  | EmptyString => false
  | String a s' => Ascii.eqb a c || contains c s'
  end.

(** One character of a [str] inside quotes [q]. Bytes from 128 on are taken
    as parts of printable UTF-8 text and copied. *)
Definition escape (q : ascii) (c : ascii) : string :=
  let n := Text.code_point c in
  if Ascii.eqb c Text.backslash then "\\"
  else if Ascii.eqb c q then String Text.backslash (Text.chr q)
  else if n =? 10 then "\n"
  else if n =? 13 then "\r"
  else if n =? 9 then "\t"
  else if (n <? 32) || (n =? 127) then "\x" +:+ Text.hex 2 n
  else Text.chr c.

Fixpoint escape_all (q : ascii) (s : string) : string :=
  match s with
  | EmptyString => EmptyString
  | String c s' => escape q c +:+ escape_all q s'
  end.

(** [repr(s)] for a [str]: single quotes, unless the text has a single quote
    and no double quote. *)
Definition repr_str (s : string) : string :=
  let q := if contains Text.quote s && negb (contains Text.dquote s)
           then Text.dquote else Text.quote in
  Text.chr q +:+ escape_all q s +:+ Text.chr q.

(** [repr(s)] for [bytes]: the same quotes, and every byte from 127 on
    written in hexadecimal. *)
Definition escape_byte (q : ascii) (c : ascii) : string :=
  let n := Text.code_point c in
  if 127 <=? n then "\x" +:+ Text.hex 2 n else escape q c.

Fixpoint escape_bytes (q : ascii) (s : string) : string :=
  match s with
  | EmptyString => EmptyString
  | String c s' => escape_byte q c +:+ escape_bytes q s'
  end.

Definition repr_bytes (s : string) : string :=
  let q := if contains Text.quote s && negb (contains Text.dquote s)
           then Text.dquote else Text.quote in
  "b" +:+ Text.chr q +:+ escape_bytes q s +:+ Text.chr q.

(** [repr] of a tuple's items: [()], [(a,)], [(a, b)]. *)
Definition repr_tuple (items : list string) : string :=
  match items with
  | [x] => "(" +:+ x +:+ ",)"
  | _ => "(" +:+ Text.join ", " items +:+ ")"
  end.

Definition repr_list (items : list string) : string :=
  "[" +:+ Text.join ", " items +:+ "]".

Definition repr_dict (items : list (string * string)) : string :=
  "{" +:+ Text.join ", " (map (fun kv => fst kv +:+ ": " +:+ snd kv) items) +:+ "}".

(** [repr] of an object of the store, for the objects that can be dict keys
    (a shared list or dict cannot: it is unhashable). *)
Definition repr_object (o : option object) : string :=
  match o with
  | Some (HInstance i) => i_repr i
  | Some (HFunction f) => "<function " +:+ f_qualname f +:+ ">"
  | Some (HClass c) => "<class '" +:+ c_module c +:+ "." +:+ c_qualname c +:+ "'>"
  | Some (HModule m) => "<module '" +:+ m_name m +:+ "'>"
  | Some (HList _) => "[...]"
  | Some (HDict _) => "{...}"
  | None => "<object>"
  end.

(** [repr] of a value that [deep_transform] leaves as it is: a primitive, or
    the key of a dict. *)
Fixpoint repr_val (w : world) (v : val) : string :=
  match v with
  | VNone => "None"
  | VBool b => if b then "True" else "False"
  | VInt n => pretty n
  | VFloat x => f_repr x
  | VStr s => repr_str s
  | VBytes s => repr_bytes s
  | VTuple items => repr_tuple (map (repr_val w) items)
  | VList items => repr_list (map (repr_val w) items)
  | VDict items =>
      repr_dict (map (fun kv => (repr_val w (fst kv), repr_val w (snd kv))) items)
  | VRef l => repr_object (heap w !! l)
  end.

(** What [deep_transform] returns: the value with its opaque objects replaced
    by [Hashed] tokens and its dicts rebuilt in sorted key order. *)
Inductive tval : Type :=
| TPrim (v : val)
| TList (items : list tval)
| TTuple (items : list tval)
| TDict (items : list (val * tval))
| THashed (hashid : string).

(** [repr]; [Hashed.__repr__] is [f'Hashed({self._hash!r})']. *)
Fixpoint repr_tval (w : world) (t : tval) : string :=
  match t with
  | TPrim v => repr_val w v
  | TList items => repr_list (map (repr_tval w) items)
  | TTuple items => repr_tuple (map (repr_tval w) items)
  | TDict items =>
      repr_dict (map (fun kv => (repr_val w (fst kv), repr_tval w (snd kv))) items)
  | THashed hashid => "Hashed(" +:+ repr_str hashid +:+ ")"
  end.

(** ** Comparing and sorting dict keys

    [==] and [<] on the values that can be keys. Numbers ([bool] is an
    [int]; [int] and [float] mix) compare by value; texts and byte strings
    compare lexicographically; tuples and lists compare at the first
    position where they differ; an object of the store has identity equality
    and no order. A dict's keys are pairwise different under [==]. *)

Definition as_number (v : val) : option number :=
  match v with
  | VInt n => Some (Finite (QArith_base.inject_Z n))
  | VBool b => Some (Finite (QArith_base.inject_Z (if b then 1 else 0)))
  | VFloat x => Some (f_value x)
  | _ => None
  end.

Definition number_compare (x y : number) : comparison :=
  match x, y with
  | Finite p, Finite q => QArith_base.Qcompare p q
  | Finite _, Infinity negative => if negative then Gt else Lt
  | Infinity negative, Finite _ => if negative then Lt else Gt
  | Infinity true, Infinity true | Infinity false, Infinity false => Eq
  | Infinity true, Infinity false => Lt
  | Infinity false, Infinity true => Gt
  end.

Definition number_eqb (x y : number) : bool :=
  match number_compare x y with Eq => true | _ => false end.

Definition number_ltb (x y : number) : bool :=
  match number_compare x y with Lt => true | _ => false end.

Fixpoint py_eq (a b : val) {struct a} : bool :=
  match as_number a, as_number b with
  | Some x, Some y => number_eqb x y
  | _, _ =>
      match a, b with
      | VNone, VNone => true
      | VStr x, VStr y => String.eqb x y
      | VBytes x, VBytes y => String.eqb x y
      | VTuple xs, VTuple ys | VList xs, VList ys =>
          (fix eq_items (xs ys : list val) {struct xs} : bool :=
             match xs, ys with
             | [], [] => true
             | x :: xs', y :: ys' => py_eq x y && eq_items xs' ys'
             | _, _ => false
             end) xs ys
      | VDict xs, VDict ys =>
          (fix eq_items (xs ys : list (val * val)) {struct xs} : bool :=
             match xs, ys with
             | [], [] => true
             | (k, x) :: xs', (k', y) :: ys' =>
                 py_eq k k' && py_eq x y && eq_items xs' ys'
             | _, _ => false
             end) xs ys
      | VRef l, VRef l' => Nat.eqb l l'
      | _, _ => false
      end
  end.

Fixpoint py_lt (a b : val) {struct a} : outcome bool :=
  match as_number a, as_number b with
  | Some x, Some y => Ret (number_ltb x y)
  | _, _ =>
      match a, b with
      | VStr x, VStr y => Ret (String.ltb x y)
      | VBytes x, VBytes y => Ret (String.ltb x y)
      | VTuple xs, VTuple ys | VList xs, VList ys =>
          (fix lt_items (xs ys : list val) {struct xs} : outcome bool :=
             match xs, ys with
             | [], [] => Ret false
             | [], _ :: _ => Ret true
             | _ :: _, [] => Ret false
             | x :: xs', y :: ys' =>
                 if py_eq x y then lt_items xs' ys' else py_lt x y
             end) xs ys
      | _, _ => Raise TypeError
      end
  end.

(** [sorted(keys)]: a stable insertion sort on [<]; a comparison that raises
    ends it. (CPython's sort is another stable sort: on keys [<] orders
    totally, the only ones the module supports, the two agree.) *)
Fixpoint insert_sorted (x : val) (sorted : list val) : outcome (list val) :=
  match sorted with
  | [] => Ret [x]
  | y :: rest =>
      b <- py_lt y x ;;
      if b then (rest' <- insert_sorted x rest ;; Ret (y :: rest'))
      else Ret (x :: y :: rest)
  end.

Fixpoint py_sorted (keys : list val) : outcome (list val) :=
  match keys with
  | [] => Ret []
  | k :: rest => sorted <- py_sorted rest ;; insert_sorted k sorted
  end.

(** [obj[k]] *)
Fixpoint dict_getitem (items : list (val * val)) (k : val) : outcome val :=
  match items with
  | [] => Raise KeyError
  | (k', v) :: rest => if py_eq k' k then Ret v else dict_getitem rest k
  end.

(** ** Canonical value serializer *)

(** The object a value stands for: a reference to a shared list or dict is
    that list or dict. *)
Definition deref (w : world) (obj : val) : val :=
  match obj with
  | VRef l =>
      match heap w !! l with
      | Some (HList items) => VList items
      | Some (HDict items) => VDict items
      | _ => obj
      end
  | _ => obj
  end.

Section deep_transform.

Context (w : world) (transform : val -> outcome tval).

Fixpoint deep_transform (fuel : nat) (obj : val) : outcome tval :=
  match fuel with
  | O => Diverge
  | S fuel' =>
      match deref w obj with
      | VNone | VStr _ | VBytes _ | VInt _ | VFloat _ | VBool _ =>
          Ret (TPrim obj)
      | VList items =>
          xs <- for_each (deep_transform fuel') items ;; Ret (TList xs)
      | VTuple items =>
          xs <- for_each (deep_transform fuel') items ;; Ret (TTuple xs)
      | VDict items =>
          keys <- py_sorted (map fst items) ;;
          entries <- for_each
                       (fun k => v <- dict_getitem items k ;;
                                 t <- deep_transform fuel' v ;;
                                 Ret (k, t))
                       keys ;;
          Ret (TDict entries)
      | VRef _ => transform obj
      end
  end.

End deep_transform.

Abbreviation HashHook := (val -> option string).

(** [hasattr(o, '__codehash__')] and the call [o.__codehash__()]; only
    instances are taken to carry the method. *)
Definition codehash_method (w : world) (o : val) : option (option string) :=
  match o with
  | VRef l =>
      match heap w !! l with
      | Some (HInstance i) => i_codehash i
      | _ => None
      end
  | _ => None
  end.

(** The inner [transform] of [repr_hashable]. *)
Definition transform (w : world) (hook : HashHook) (o : val) : outcome tval :=
  let hashid := match codehash_method w o with
                | Some r => r
                | None => hook o
                end in
  match hashid with
  | None => Raise (CodehashError (Unknown_object o))
  | Some h => Ret (THashed h)
  end.

(** The hook a call uses: [if not hook: hook = lambda o: None]. *)
Definition hook_or_default (hook : option HashHook) : HashHook :=
  match hook with
  | Some h => h
  | None => fun _ => None
  end.

Definition repr_hashable (fuel : nat) (w : world) (obj : val)
    (hook : option HashHook) : outcome string :=
  let hook := hook_or_default hook in
  t <- deep_transform w (transform w hook) fuel obj ;;
  Ret (repr_tval w t).

Definition hash_text (text : string) : string := SHA1.hexdigest text.

(** ** Closure and global resolver *)

(** A Python [dict] with [str] keys, in insertion order: [d[k] = v] keeps the
    place of a key that is already there. *)
Fixpoint dict_set {V : Type} (d : list (string * V)) (k : string) (v : V)
  : list (string * V) :=
  match d with
  | [] => [(k, v)]
  | (k', v') :: rest =>
      if String.eqb k' k then (k', v) :: rest
      else (k', v') :: dict_set rest k v
  end.

Fixpoint dict_get {V : Type} (d : list (string * V)) (k : string) : option V :=
  match d with
  | [] => None
  | (k', v) :: rest => if String.eqb k' k then Some v else dict_get rest k
  end.

(** [inspect.ClosureVars] *)
Record ClosureVars : Type := mkClosureVars {
  nonlocals : list (string * val);
  globals : list (string * val);
  builtins : list (string * val);
  unbound : gset string
}.

(** The code objects among [code.co_consts]. *)
Definition nested_codes (c : code) : list code :=
  omap (fun k => match k with inr c' => Some c' | inl _ => None end) (co_consts c).

(** The number of code objects in [c], itself included. *)
Fixpoint code_size (c : code) : nat :=
  match c with
  | Code _ _ ks =>
      S (list_sum (map (fun k => match k with
                                 | inr c' => code_size c'
                                 | inl _ => O
                                 end) ks))
  end.

Section resolver.

Context (global_ns builtin_ns : gmap string val).

(** The three dicts/sets the loop fills. *)
Definition resolved : Type :=
  list (string * val) * list (string * val) * gset string.

(** The body of [for name in code.co_names]. *)
Definition resolve_name (acc : resolved) (name : string) : resolved :=
  let '(global_vars, builtin_vars, unbound_names) := acc in
  match global_ns !! name with
  | Some v => (dict_set global_vars name v, builtin_vars, unbound_names)
  | None =>
      match builtin_ns !! name with
      | Some v => (global_vars, dict_set builtin_vars name v, unbound_names)
      | None => (global_vars, builtin_vars, {[name]} ∪ unbound_names)
      end
  end.

(** [while codes: code = codes.pop(); ...]. The work list is kept with its
    top ([codes[-1]]) first, so appending the nested code objects in order
    puts them on it reversed. Each turn pops one code object; [fuel] counts
    the turns. *)
Fixpoint resolve_codes (fuel : nat) (codes : list code) (acc : resolved)
  : resolved :=
  match fuel with
  | O => acc
  | S fuel' =>
      match codes with
      | [] => acc
      | code :: rest =>
          resolve_codes fuel' (rev (nested_codes code) ++ rest)
            (fold_left resolve_name (co_names code) acc)
      end
  end.

End resolver.

Definition getclosurevars (func : function) : ClosureVars :=
  let code := f_code func in
  let nonlocal_vars :=
    fold_left (fun d nc => dict_set d (fst nc) (snd nc))
      (combine (co_freevars code) (f_closure func)) [] in
  let '(global_vars, builtin_vars, unbound_names) :=
    resolve_codes (f_globals func) (f_builtins func) (code_size code) [code]
      ([], [], ∅) in
  mkClosureVars nonlocal_vars global_vars builtin_vars unbound_names.

(** ** Classifying a module *)

(** [any(mdl.__file__.startswith(p) for p in STDLIB_PATHS)]; a module with no
    [__file__] is an AttributeError at the first path. *)
Definition is_stdlib (w : world) (mdl : module) : outcome bool :=
  match STDLIB_PATHS w with
  | [] => Ret false
  | paths =>
      match m_file mdl with
      | None => Raise AttributeError
      | Some file => Ret (existsb (fun p => Text.startswith p file) paths)
      end
  end.

(** The loop of [version_of]: [n] runs from [len(parts)] down to 1. *)
Fixpoint version_walk (w : world) (parts : list string) (n : nat)
  : outcome (option string) :=
  match n with
  | O => Ret None
  | S n' =>
      match sys_modules w !! Text.join "." (firstn n parts) with
      | None => Raise KeyError
      | Some mdl =>
          match m_version mdl with
          | Some (String c v) => Ret (Some (String c v))
          | _ => version_walk w parts n'
          end
      end
  end.

Definition version_of (w : world) (mdl : module) : outcome (option string) :=
  let parts := Text.split (ascii_of_nat 46) (m_name mdl) in
  version_walk w parts (length parts).

Definition fullname_of (module qualname : string) : string :=
  module +:+ ":" +:+ qualname.

(** ** The identity computation

    A computation that reads and writes [_cache]: it returns its outcome and
    the cache it leaves (an exception leaves the entries made before it). *)

Definition M (A : Type) : Type := cache -> outcome A * cache.

Definition mret {A : Type} (a : A) : M A := fun c => (Ret a, c).

Definition lift {A : Type} (o : outcome A) : M A := fun c => (o, c).

Definition mbind {A B : Type} (m : M A) (k : A -> M B) : M B :=
  fun c =>
    match m c with
    | (Ret a, c') => k a c'
    | (Raise e, c') => (Raise e, c')
    | (Diverge, c') => (Diverge, c')
    end.

Notation "x <~ m ;; k" := (mbind m (fun x => k))
  (at level 100, m at next level, right associativity).

(** [_cache.setdefault(func, h)] *)
Definition setdefault (func : loc) (h : string) : M string :=
  fun c =>
    match c !! func with
    | Some h' => (Ret h', c)
    | None => (Ret h, <[func := h]> c)
    end.

Section hashed_globals_of.

(** [hash_function(obj)], as [hashed_globals_of] calls it: with no hook. *)
Context (w : world) (hash_function : loc -> M string).
Context (fuel : nat) (func : loc) (hook : option HashHook).

(** A class, function or module [obj], once its module [mod] and [fullname]
    are known. *)
Definition hash_named (obj : loc) (isfunction : bool) (mdl : module)
    (fullname : string) : M string :=
  stdlib <~ lift (is_stdlib w mdl) ;;
  if (stdlib : bool) then mret (fullname +:+ "(stdlib)")
  else
    version <~ lift (version_of w mdl) ;;
    match version with
    | Some version => mret (fullname +:+ "(" +:+ version +:+ ")")
    | None =>
        if isfunction then
          hashid <~ (if Nat.eqb obj func then mret "self" else hash_function obj) ;;
          mret ("function:" +:+ hashid)
        else lift (Raise (CodehashError no_message))
    end.

Definition hash_composite (obj : val) : M string :=
  text <~ lift (repr_hashable fuel w obj hook) ;;
  mret ("composite:" +:+ hash_text text).

(** The body of the [try]. *)
Definition hash_global (obj : val) : M string :=
  match obj with
  | VRef l =>
      match heap w !! l with
      | Some (HModule m) => hash_named l false m (m_name m)
      | Some (HClass k) =>
          match sys_modules w !! c_module k with
          | Some mdl => hash_named l false mdl (fullname_of (c_module k) (c_qualname k))
          | None => lift (Raise KeyError)
          end
      | Some (HFunction g) =>
          match sys_modules w !! f_module g with
          | Some mdl => hash_named l true mdl (fullname_of (f_module g) (f_qualname g))
          | None => lift (Raise KeyError)
          end
      | _ => hash_composite obj
      end
  | _ => hash_composite obj
  end.

(** [try: ... except CodehashError: raise CodehashError(...)] *)
Definition try_hash_global (name : string) (obj : val) : M string :=
  fun c =>
    match hash_global obj c with
    | (Raise (CodehashError _), c') =>
        (Raise (CodehashError (In_cannot_hash_global func name obj)), c')
    | r => r
    end.

(** [for name, obj in items: ...] *)
Fixpoint hash_items (items : list (string * val))
    (hashed_globals : list (string * string)) : M (list (string * string)) :=
  match items with
  | [] => mret hashed_globals
  | (name, obj) :: rest =>
      token <~ try_hash_global name obj ;;
      hash_items rest (dict_set hashed_globals name token)
  end.

Definition hashed_globals_of : M (list (string * string)) :=
  match heap w !! func with
  | Some (HFunction f) =>
      let closure_vars := getclosurevars f in
      _ <~ lift (assert (bool_decide (unbound closure_vars = ∅))) ;;
      hash_items (nonlocals closure_vars ++ globals closure_vars) []
  | _ => lift (Raise AttributeError)
  end.

End hashed_globals_of.

(** [{'ast_code': ast_code, 'globals': hashed_globals}] *)
Definition spec_record (ast_code : string) (hashed_globals : list (string * string))
  : val :=
  VDict [(VStr "ast_code", VStr ast_code);
         (VStr "globals",
          VDict (map (fun kv => (VStr (fst kv), VStr (snd kv))) hashed_globals))].

(** The body of [hash_function] after a cache miss; [hash_function] inside
    is the function as [hashed_globals_of] calls it. *)
Definition compute_identity (w : world) (hash_function : loc -> M string)
    (fuel : nat) (func : loc) (hook : option HashHook) : M string :=
  ast_code <~ lift (ast_code_of w func) ;;
  hashed_globals <~ hashed_globals_of w hash_function fuel func hook ;;
  spec <~ lift (repr_hashable fuel w (spec_record ast_code hashed_globals) None) ;;
  setdefault func (hash_text spec).

(** [hash_function(func, hook)]. [fuel] bounds the depth of the calls (of
    [hash_function] and of [deep_transform]). *)
Fixpoint hash_function (w : world) (fuel : nat) (func : loc)
    (hook : option HashHook) (_cache : cache) : outcome string * cache :=
  match _cache !! func with
  | Some h => (Ret h, _cache)
  | None =>
      match fuel with
      | O => (Diverge, _cache)
      | S fuel' =>
          compute_identity w (fun obj => hash_function w fuel' obj None)
            fuel' func hook _cache
      end
  end.

(** ** A test module, as a world

    The functions of the repository's tests (and a few more in their style),
    defined in a module [test_hashing] that has no version, next to the
    standard [os], the built-in [sys] and [codehash] itself. *)

Module Examples.

Definition nl : string := Text.chr Text.newline.

(** Python 3.7 syntax trees, by node class and [_fields]. *)
Definition arguments (args : list ast) : ast :=
  Node "arguments"
    [("args", Seq args); ("vararg", Atom "None"); ("kwonlyargs", Seq []);
     ("kw_defaults", Seq []); ("kwarg", Atom "None"); ("defaults", Seq [])].
Definition arg (name : string) : ast :=
  Node "arg" [("arg", Atom (repr_str name)); ("annotation", Atom "None")].
Definition FunctionDef (name : string) (args : list ast) (body : list ast) : ast :=
  Node "FunctionDef"
    [("name", Atom (repr_str name)); ("args", arguments args);
     ("body", Seq body); ("decorator_list", Seq []); ("returns", Atom "None")].
Definition Return (value : ast) : ast := Node "Return" [("value", value)].
Definition Expr (value : ast) : ast := Node "Expr" [("value", value)].
Definition Num (n : string) : ast := Node "Num" [("n", Atom n)].
Definition Str (s : string) : ast := Node "Str" [("s", Atom (repr_str s))].
Definition Name (id : string) : ast :=
  Node "Name" [("id", Atom (repr_str id)); ("ctx", Node "Load" [])].
Definition Call (func : ast) (args : list ast) : ast :=
  Node "Call" [("func", func); ("args", Seq args); ("keywords", Seq [])].
Definition Tuple (elts : list ast) : ast :=
  Node "Tuple" [("elts", Seq elts); ("ctx", Node "Load" [])].

(** Source texts, dedented, as [inspect.getsource] gives them. *)
Definition def_return (name expr : string) : string :=
  "def " +:+ name +:+ "():" +:+ nl +:+ "    return " +:+ expr +:+ nl.
Definition def_expr (name expr : string) : string :=
  "def " +:+ name +:+ "():" +:+ nl +:+ "    " +:+ expr +:+ nl.

Definition src_f_1 : string := def_return "f" "1".
Definition src_g_doc : string :=
  "def g():" +:+ nl +:+ "    'Docstring.'" +:+ nl +:+ "    return 1" +:+ nl.
(** A decorator, a blank line, the definition. *)
Definition src_f_decorated_blank : string := "@register" +:+ nl +:+ nl +:+ src_f_1.
(** A decorator call written over three lines. *)
Definition src_f_decorated_multiline : string :=
  "@register(" +:+ nl +:+ "    'f'" +:+ nl +:+ ")" +:+ nl +:+ src_f_1.

(** The host parser on the sources used here; anything else is a
    SyntaxError. *)
Definition sources : list (string * list ast) :=
  [(src_f_1, [FunctionDef "f" [] [Return (Num "1")]]);
   (src_g_doc, [FunctionDef "g" [] [Expr (Str "Docstring."); Return (Num "1")]]);
   (def_return "f" "dct", [FunctionDef "f" [] [Return (Name "dct")]]);
   (def_return "f" "g()", [FunctionDef "f" [] [Return (Call (Name "g") [])]]);
   (def_return "g" "f()", [FunctionDef "g" [] [Return (Call (Name "f") [])]]);
   (def_return "g" "c", [FunctionDef "g" [] [Return (Name "c")]]);
   (def_return "f" "c", [FunctionDef "f" [] [Return (Name "c")]]);
   (def_return "f" "sys", [FunctionDef "f" [] [Return (Name "sys")]]);
   (def_return "f" "os", [FunctionDef "f" [] [Return (Name "os")]]);
   (def_return "f" "f()", [FunctionDef "f" [] [Return (Call (Name "f") [])]]);
   (def_expr "f" "int", [FunctionDef "f" [] [Expr (Name "int")]]);
   (def_return "f" "os, dct, int",
    [FunctionDef "f" [] [Return (Tuple [Name "os"; Name "dct"; Name "int"])]]);
   (def_expr "f" "x", [FunctionDef "f" [] [Expr (Name "x")]])].

Fixpoint parse_table (table : list (string * list ast)) (code : string)
  : option (list ast) :=
  match table with
  | [] => None
  | (source, body) :: rest =>
      if String.eqb source code then Some body else parse_table rest code
  end.

(** Locations of the objects. *)
Definition f_1 : loc := 1.              (* def f(): return 1 *)
Definition g_doc : loc := 2.            (* the same with a docstring *)
Definition f_decorated_blank : loc := 3.
Definition f_decorated_multiline : loc := 4.
Definition f_dct : loc := 5.            (* closes over dct *)
Definition f_dct_again : loc := 6.      (* def f() once more, same closure *)
Definition dct : loc := 7.
Definition f_calls_g : loc := 8.        (* def f(): return g()  -- g below *)
Definition g_calls_f : loc := 9.        (* def g(): return f()  -- f above *)
Definition f_recursive : loc := 10.     (* def f(): return f() *)
Definition f_int : loc := 11.           (* def f(): int *)
Definition f_x : loc := 12.             (* def f(): x *)
Definition f_c : loc := 13.             (* def f(): return c *)
Definition c_obj : loc := 14.           (* c = C() *)
Definition f_uses_g : loc := 15.        (* def f(): return g()  -- g closes over c *)
Definition g_c : loc := 16.             (* def g(): return c *)
Definition f_sys : loc := 17.           (* def f(): return sys *)
Definition f_os : loc := 18.            (* def f(): return os *)
Definition sys_module : loc := 19.
Definition os_module : loc := 20.
Definition int_class : loc := 21.
Definition d_ab : loc := 22.            (* {'a': 1, 'b': 2} *)
Definition d_ba : loc := 23.            (* {'b': 2, 'a': 1} *)
Definition f_mixed : loc := 24.         (* def f(): return os, dct, int *)

Definition m_test : module :=
  Module_ "test_hashing" (Some "/work/codehash/tests/test_hashing.py") None.
Definition m_os : module := Module_ "os" (Some "/usr/lib/python3.7/os.py") None.
Definition m_sys : module := Module_ "sys" None None.
Definition m_codehash : module :=
  Module_ "codehash" (Some "/work/codehash/src/codehash/__init__.py") (Some "0.1.0").

Definition builtin_ns : gmap string val := {[ "int" := VRef int_class ]}.

(** A function of the test module. *)
Definition def (qualname source : string) (co_freevars co_names : list string)
    (co_consts : list (val + code)) (closure : list val)
    (global_ns : gmap string val) : function :=
  Function "test_hashing" qualname source
    (Code co_freevars co_names co_consts) closure global_ns builtin_ns.

(** [def f(): int], and [def f(): return os, dct, int]: a module global, a
    closure cell and a builtin. *)
Definition fn_int : function :=
  def "f" (def_expr "f" "int") [] ["int"] [inl VNone] [] ∅.
Definition fn_mixed : function :=
  def "f" (def_return "f" "os, dct, int") ["dct"] ["os"; "int"] [inl VNone]
    [VRef dct] {[ "os" := VRef os_module ]}.

Definition objects (dct_items : list (val * val)) : gmap loc object :=
  list_to_map
    [(f_1, HFunction (def "f" src_f_1 [] [] [inl VNone; inl (VInt 1)] [] ∅));
     (g_doc, HFunction (def "g" src_g_doc [] []
               [inl (VStr "Docstring."); inl (VInt 1)] [] ∅));
     (f_decorated_blank,
      HFunction (def "f" src_f_decorated_blank [] [] [inl VNone; inl (VInt 1)] [] ∅));
     (f_decorated_multiline,
      HFunction (def "f" src_f_decorated_multiline [] [] [inl VNone; inl (VInt 1)] [] ∅));
     (f_dct, HFunction (def "f" (def_return "f" "dct") ["dct"] [] [inl VNone]
               [VRef dct] ∅));
     (f_dct_again, HFunction (def "f" (def_return "f" "dct") ["dct"] [] [inl VNone]
                     [VRef dct] ∅));
     (dct, HDict dct_items);
     (f_calls_g, HFunction (def "f" (def_return "f" "g()") [] ["g"] [inl VNone] []
                   {[ "f" := VRef f_calls_g; "g" := VRef g_calls_f ]}));
     (g_calls_f, HFunction (def "g" (def_return "g" "f()") [] ["f"] [inl VNone] []
                   {[ "f" := VRef f_calls_g; "g" := VRef g_calls_f ]}));
     (f_recursive, HFunction (def "f" (def_return "f" "f()") [] ["f"] [inl VNone] []
                     {[ "f" := VRef f_recursive ]}));
     (f_int, HFunction fn_int);
     (f_mixed, HFunction fn_mixed);
     (f_x, HFunction (def "f" (def_expr "f" "x") [] ["x"] [inl VNone] [] ∅));
     (f_c, HFunction (def "f" (def_return "f" "c") ["c"] [] [inl VNone]
             [VRef c_obj] ∅));
     (c_obj, HInstance (Instance_ "<test_hashing.C object>" None));
     (f_uses_g, HFunction (def "f" (def_return "f" "g()") ["g"] [] [inl VNone]
                  [VRef g_c] ∅));
     (g_c, HFunction (def "g" (def_return "g" "c") ["c"] [] [inl VNone]
             [VRef c_obj] ∅));
     (f_sys, HFunction (def "f" (def_return "f" "sys") ["sys"] [] [inl VNone]
               [VRef sys_module] ∅));
     (f_os, HFunction (def "f" (def_return "f" "os") ["os"] [] [inl VNone]
              [VRef os_module] ∅));
     (sys_module, HModule m_sys);
     (os_module, HModule m_os);
     (int_class, HClass (Class_ "builtins" "int"));
     (d_ab, HDict [(VStr "a", VInt 1); (VStr "b", VInt 2)]);
     (d_ba, HDict [(VStr "b", VInt 2); (VStr "a", VInt 1)])].

(** The interpreter while [dct] holds [dct_items]. *)
Definition world_with (dct_items : list (val * val)) : world :=
  World (objects dct_items)
    (list_to_map [("test_hashing", m_test); ("os", m_os); ("sys", m_sys);
                  ("codehash", m_codehash)])
    ["/usr/lib/python3.7"; "/usr/lib/python3.7"]
    (parse_table sources).

(** [dct = {'a': 1}], and after [dct['a'] = 2]. *)
Definition w : world := world_with [(VStr "a", VInt 1)].
Definition w_after : world := world_with [(VStr "a", VInt 2)].

(** [hook=lambda c: ''] of [test_hook]. *)
Definition empty_hook : HashHook := fun _ => Some "".

End Examples.

(** ** More sources for the same parser

    The function of the tests with a docstring, under another name, and a
    source that is no definition. *)

Module Cases.

Import Examples.

Definition src_f_doc : string :=
  "def f():" +:+ nl +:+ "    'Docstring.'" +:+ nl +:+ "    return 1" +:+ nl.
Definition src_g_1 : string := def_return "g" "1".
Definition src_lambda : string := "f = lambda: 1" +:+ nl.

Definition sources : list (string * list ast) :=
  [(src_f_doc, [FunctionDef "f" [] [Expr (Str "Docstring."); Return (Num "1")]]);
   (src_g_1, [FunctionDef "g" [] [Return (Num "1")]]);
   (src_lambda,
    [Node "Assign"
       [("targets", Seq [Node "Name" [("id", Atom "'f'"); ("ctx", Node "Store" [])]]);
        ("value", Node "Lambda" [("args", arguments []); ("body", Num "1")])]])].

Definition w : world :=
  World (heap Examples.w) (sys_modules Examples.w) (STDLIB_PATHS Examples.w)
    (parse_table (sources ++ Examples.sources)).

(** [cyclic = [1]; cyclic.append(cyclic)], and [c] of a class whose
    [__codehash__] returns [None]. *)
Definition cyclic : loc := 30.
Definition c_none : loc := 31.

(** [class C: pass] of the test module, [codehash.hash_text], and
    [os.path.join] of a module under the standard library's directory. *)
Definition class_C : loc := 32.
Definition fn_hash_text : loc := 33.
Definition fn_join : loc := 34.

(** [dct = {'a': 1, 2: 1}], and [def f(): return dct] closing over it. *)
Definition d_mixed : loc := 35.
Definition f_d_mixed : loc := 36.

Definition m_posixpath : module :=
  Module_ "posixpath" (Some "/usr/lib/python3.7/posixpath.py") None.

(** A package with a version, a subpackage whose [__version__] is [''], and
    a module of the subpackage that has none. *)
Definition m_pkg : module :=
  Module_ "pkg" (Some "/site/pkg/__init__.py") (Some "1.2").
Definition m_pkg_sub : module :=
  Module_ "pkg.sub" (Some "/site/pkg/sub/__init__.py") (Some "").
Definition m_pkg_sub_mod : module :=
  Module_ "pkg.sub.mod" (Some "/site/pkg/sub/mod.py") None.

(** [{1.5: 'x', 1: d_ab}], and [{1: d_ba, 1.5: 'x'}]: the same mapping,
    entered in another order, outside and inside. *)
Definition one_and_a_half : float :=
  Float "1.5" (Finite (QArith_base.Qmake 3 2)).
Definition d_outer : val :=
  VDict [(VFloat one_and_a_half, VStr "x"); (VInt 1, VRef d_ab)].
Definition d_outer_again : val :=
  VDict [(VInt 1, VRef d_ba); (VFloat one_and_a_half, VStr "x")].

Definition w_objects : world :=
  World (<[cyclic := HList [VInt 1; VRef cyclic]]>
           (<[d_mixed := HDict [(VStr "a", VInt 1); (VInt 2, VInt 1)]]>
           (<[f_d_mixed :=
                HFunction (def "f" (def_return "f" "dct") ["dct"] [] [inl VNone]
                             [VRef d_mixed] ∅)]>
           (<[c_none := HInstance (Instance_ "<test_hashing.C object>" (Some None))]>
              (<[class_C := HClass (Class_ "test_hashing" "C")]>
                 (<[fn_hash_text :=
                      HFunction (Function "codehash" "hash_text" EmptyString
                                   (Code [] [] []) [] ∅ builtin_ns)]>
                    (<[fn_join :=
                         HFunction (Function "posixpath" "join" EmptyString
                                      (Code [] [] []) [] ∅ builtin_ns)]>
                       (heap Examples.w))))))))
    (<["posixpath" := m_posixpath]>
       (<["pkg" := m_pkg]>
          (<["pkg.sub" := m_pkg_sub]>
             (<["pkg.sub.mod" := m_pkg_sub_mod]> (sys_modules Examples.w)))))
    (STDLIB_PATHS Examples.w) (ast_parse Examples.w).

End Cases.

(** * Notions of the properties *)

Local Open Scope nat_scope.

(** A computation only adds to the cache. *)
Definition grows {A : Type} (m : M A) : Prop :=
  forall c r c', m c = (r, c') -> c ⊆ c'.

(** [hook'] accepts what [hook] accepts, with the same token. *)
Definition extends (hook hook' : option HashHook) : Prop :=
  forall o token, hook_or_default hook o = Some token ->
                  hook_or_default hook' o = Some token.

(** [m'] returns what [m] returns, whenever [m] returns. *)
Definition refines {A : Type} (m m' : M A) : Prop :=
  forall c a c', m c = (Ret a, c') -> m' c = (Ret a, c').

(** [name] is one of the names the code of [c] reads, in [c] itself or in a
    code object nested in it at any depth. *)
Inductive reads : code -> string -> Prop :=
| reads_here c name : In name (co_names c) -> reads c name
| reads_nested c c' name :
    In (inr c') (co_consts c) -> reads c' name -> reads c name.

(** [name] has been looked up and filed where the loop files it. *)
Definition filed (global_ns builtin_ns : gmap string val) (acc : resolved)
    (name : string) : Prop :=
  let '(global_vars, builtin_vars, unbound_names) := acc in
  match global_ns !! name with
  | Some v => dict_get global_vars name = Some v
  | None =>
      match builtin_ns !! name with
      | Some v => dict_get builtin_vars name = Some v
      | None => name ∈ unbound_names
      end
  end.

(** The captured names and values the loop of [hashed_globals_of] runs over. *)
Definition items_of (fn : function) : list (string * val) :=
  nonlocals (getclosurevars fn) ++ globals (getclosurevars fn).

(** [sorted] on texts. *)
Fixpoint str_insert (x : string) (sorted : list string) : list string :=
  match sorted with
  | [] => [x]
  | y :: rest => if String.ltb y x then y :: str_insert x rest else x :: y :: rest
  end.

Fixpoint str_sorted (keys : list string) : list string :=
  match keys with
  | [] => []
  | k :: rest => str_insert k (str_sorted rest)
  end.

(** The text [repr_hashable] gives for
    [{'ast_code': ast_code, 'globals': hashed_globals}]. *)
Definition spec_text (ast_code : string) (hashed_globals : list (string * string))
  : string :=
  repr_dict
    [(repr_str "ast_code", repr_str ast_code);
     (repr_str "globals",
      repr_dict
        (map (fun k => (repr_str k, repr_str (default "" (dict_get hashed_globals k))))
           (str_sorted (map fst hashed_globals))))].

(** [m'], started on the cache [m] left (or a larger one), returns what [m]
    returned and leaves that cache as it is. *)
Definition replays {A : Type} (m m' : M A) : Prop :=
  forall c a c1, m c = (Ret a, c1) ->
  forall c2 : cache, c1 ⊆ c2 -> m' c2 = (Ret a, c2).

(** The token of an instance whose identity token is [token]. *)
Definition instance_token (token : string) : string :=
  "composite:" +:+ hash_text ("Hashed(" +:+ repr_str token +:+ ")").

(** The world in which the class of instance [o] has gained a [__codehash__]
    method that returns [token]. *)
Definition give_codehash (w : world) (o : loc) (token : string) : world :=
  match heap w !! o with
  | Some (HInstance i) =>
      World (<[o := HInstance (Instance_ (i_repr i) (Some (Some token)))]> (heap w))
        (sys_modules w) (STDLIB_PATHS w) (ast_parse w)
  | _ => w
  end.

(** [func] is hashed by recursion: its module is known, not part of the
    standard library, and no version is found for it. *)
Definition hashed_recursively (w : world) (fn : function) : Prop :=
  exists mdl, sys_modules w !! f_module fn = Some mdl /\
              is_stdlib w mdl = Ret false /\ version_of w mdl = Ret None.

(** The names [version_of] looks up for a module called [name], from the
    full dotted name down to its first component. *)
Definition ancestors (name : string) : list string :=
  let parts := Text.split (ascii_of_nat 46) name in
  map (fun n => Text.join "." (firstn n parts)) (rev (seq 1 (length parts))).

(** The version a registered module shows, if it is not empty. *)
Definition shown_version (w : world) (name : string) : option string :=
  match sys_modules w !! name with
  | Some mdl =>
      match m_version mdl with
      | Some (String c v) => Some (String c v)
      | _ => None
      end
  | None => None
  end.

(** The first version shown along a list of module names. *)
Fixpoint first_version (w : world) (names : list string) : option string :=
  match names with
  | [] => None
  | name :: rest =>
      match shown_version w name with
      | Some v => Some v
      | None => first_version w rest
      end
  end.

(** The dict of globals has each name once, with its value in the module's
    namespace. *)
Definition globals_ok (global_ns : gmap string val) (acc : resolved) : Prop :=
  let '(global_vars, _, _) := acc in
  List.NoDup (map fst global_vars) /\
  forall k v, In (k, v) global_vars -> global_ns !! k = Some v.

(** [a < b] holds. *)
Definition lt (a b : val) : Prop := py_lt a b = Ret true.

(** The keys are mutually comparable: [<] and [==] never raise on them, and
    [<] orders them totally; and they are the keys of a dict: pairwise
    different, under [==] as well. *)
Record totally_ordered (keys : list val) : Prop := {
  comparable : forall a b, In a keys -> In b keys -> exists r, py_lt a b = Ret r;
  connected : forall a b, In a keys -> In b keys -> a <> b -> lt a b \/ lt b a;
  irreflexive : forall a, In a keys -> ~ lt a a;
  transitive : forall a b c, In a keys -> In b keys -> In c keys ->
                             lt a b -> lt b c -> lt a c;
  distinct : forall a b, In a keys -> In b keys -> (py_eq a b = true <-> a = b);
  no_duplicate : List.NoDup keys
}.

(** [a] and [b] are the same value up to the order in which the entries of
    dicts were inserted, at any depth: the same value; lists or tuples of
    such values, item by item; or dicts (written in place, or shared objects
    of the store) with mutually comparable keys whose entries pair up, in
    some order, with the same key and such values. *)
Inductive same_mapping (w : world) : val -> val -> Prop :=
| same_value v : same_mapping w v v
| same_list a b xs ys :
    deref w a = VList xs -> deref w b = VList ys ->
    Forall2 (same_mapping w) xs ys ->
    same_mapping w a b
| same_tuple a b xs ys :
    deref w a = VTuple xs -> deref w b = VTuple ys ->
    Forall2 (same_mapping w) xs ys ->
    same_mapping w a b
| same_dict a b items1 items2 items1' :
    deref w a = VDict items1 -> deref w b = VDict items2 ->
    totally_ordered (map fst items1) ->
    Permutation items1 items1' ->
    Forall2 (fun p q => fst p = fst q /\ same_mapping w (snd p) (snd q))
      items1' items2 ->
    same_mapping w a b.

(** The value of a hexadecimal digit. *)
Definition unhex (c : ascii) : Z :=
  let n := Text.code_point c in (if n <? 58 then n - 48 else n - 87)%Z.

(** Reads one character of a quoted text back: [None] at the closing quote. *)
Definition unescape (q : ascii) (s : string) : option (ascii * string) :=
  match s with
  | EmptyString => None
  | String c rest =>
      if Ascii.eqb c q then None
      else if Ascii.eqb c Text.backslash then
        match rest with
        | EmptyString => None
        | String e rest' =>
            if Ascii.eqb e Text.backslash then Some (Text.backslash, rest')
            else if Ascii.eqb e q then Some (q, rest')
            else if Ascii.eqb e (ascii_of_nat 110) then Some (ascii_of_nat 10, rest')
            else if Ascii.eqb e (ascii_of_nat 114) then Some (ascii_of_nat 13, rest')
            else if Ascii.eqb e (ascii_of_nat 116) then Some (ascii_of_nat 9, rest')
            else if Ascii.eqb e (ascii_of_nat 120) then
              match rest' with
              | String h1 (String h2 rest'') =>
                  Some (ascii_of_nat (Z.to_nat (16 * unhex h1 + unhex h2)), rest'')
              | _ => None
              end
            else None
        end
      else Some (c, rest)
  end.

(** The entries of a dict of texts, as [repr] prints them after the first. *)
Fixpoint render_more (entries : list (string * string)) : string :=
  match entries with
  | [] => EmptyString
  | (k, v) :: rest => ", " +:+ repr_str k +:+ ": " +:+ repr_str v +:+ render_more rest
  end.

Definition render (entries : list (string * string)) : string :=
  match entries with
  | [] => EmptyString
  | (k, v) :: rest => repr_str k +:+ ": " +:+ repr_str v +:+ render_more rest
  end.

(** The names of a dependency map in sorted order, each with its token. *)
Definition entries (hashed_globals : list (string * string))
  : list (string * string) :=
  map (fun k => (k, default "" (dict_get hashed_globals k)))
    (str_sorted (map fst hashed_globals)).

(** [fn] reads [name], bound to [v], from a closure cell (and not also as a
    module global), or as a module global. *)
Definition captured (fn : function) (name : string) (v : val) : Prop :=
  (dict_get (nonlocals (getclosurevars fn)) name = Some v /\
   dict_get (globals (getclosurevars fn)) name = None) \/
  dict_get (globals (getclosurevars fn)) name = Some v.

(** A shared list or dict of the store. *)
Definition is_container (o : option object) : Prop :=
  match o with
  | Some (HList _) | Some (HDict _) => True
  | _ => False
  end.

(** [hash_function] with the cache removed: every dependency function is
    hashed anew by the same computation. *)
Fixpoint uncached (w : world) (fuel : nat) (func : loc) (hook : option HashHook)
  : outcome string :=
  match fuel with
  | O => Diverge
  | S fuel' =>
      fst (compute_identity w (fun g => lift (uncached w fuel' g None))
             fuel' func hook ∅)
  end.

(** Every entry of the cache is the identity the function has without the
    cache. *)
Definition coherent (w : world) (c : cache) : Prop :=
  forall g h, c !! g = Some h -> exists m, uncached w m g None = Ret h.

(** The statements [ast.parse] returns for a source, once the leading
    decorator lines are dropped: lines 50 to 53 of [ast_code_of]. *)
Definition parses_to (w : world) (source : string) (body : list ast) : Prop :=
  exists lines,
    dropwhile_decorator (Text.split Text.newline source) = Ret lines /\
    ast_parse w (Text.join (Text.chr Text.newline) lines) = Some body.

(** [n'] is [n] with one leading docstring taken away: that of [n] itself or
    that of a definition anywhere inside [n]. *)
Inductive docstring_removed : ast -> ast -> Prop :=
| removed_here cls fields docstring body :
    isinstance (Node cls fields)
      ["AsyncFunctionDef"; "FunctionDef"; "ClassDef"; "Module"] = true ->
    get_field "body" fields = Some (Seq (docstring :: body)) ->
    is_docstring docstring = true ->
    match body with
    | stmt :: _ => is_docstring stmt = false
    | [] => True
    end ->
    docstring_removed (Node cls fields) (Node cls (set_field "body" (Seq body) fields))
| removed_in_field cls pre name v v' post :
    docstring_removed v v' ->
    docstring_removed (Node cls (pre ++ (name, v) :: post))
      (Node cls (pre ++ (name, v') :: post))
| removed_in_item pre x x' post :
    docstring_removed x x' ->
    docstring_removed (Seq (pre ++ x :: post)) (Seq (pre ++ x' :: post)).

(** A source with one-line decorators written above it. *)
Definition decorated (decorators : list string) (source : string) : string :=
  fold_right (fun d s => d +:+ String Text.newline s) source decorators.

(** A value made of primitives, tuples and lists written in place: no dict
    and no object of the store. *)
Fixpoint plain (v : val) : bool :=
  match v with
  | VNone | VBool _ | VInt _ | VFloat _ | VStr _ | VBytes _ => true
  | VTuple items | VList items => forallb plain items
  | VDict _ | VRef _ => false
  end.

(** The number of calls of [deep_transform] nested in one another on a plain
    value. *)
Fixpoint depth (v : val) : nat :=
  match v with
  | VTuple items | VList items => S (list_max (map depth items))
  | _ => 1
  end.

Definition str_key (k : val) : Prop := exists s, k = VStr s.
Definition int_key (k : val) : Prop := exists n, k = VInt n.

(** Every name in the three results of the resolver loop is a name the code
    of [root] reads, and sits where the two namespaces put it: a module
    global first, a builtin next, unbound last. *)
Definition sorted_out (global_ns builtin_ns : gmap string val) (root : code)
    (acc : resolved) : Prop :=
  let '(global_vars, builtin_vars, unbound_names) := acc in
  (forall k, In k (map fst global_vars) ->
             reads root k /\ is_Some (global_ns !! k)) /\
  (forall k, In k (map fst builtin_vars) ->
             reads root k /\ global_ns !! k = None /\ is_Some (builtin_ns !! k)) /\
  (forall k, k ∈ unbound_names ->
             reads root k /\ global_ns !! k = None /\ builtin_ns !! k = None).

(** * Properties *)

(** ** The cache monad *)

Lemma mbind_ret {A B : Type} (m : M A) (k : A -> M B) c a c' :
  m c = (Ret a, c') -> mbind m k c = k a c'.
Proof. intros H. unfold mbind. now rewrite H. Qed.

Lemma mbind_raise {A B : Type} (m : M A) (k : A -> M B) c e c' :
  m c = (Raise e, c') -> mbind m k c = (Raise e, c').
Proof. intros H. unfold mbind. now rewrite H. Qed.

Lemma mbind_diverge {A B : Type} (m : M A) (k : A -> M B) c c' :
  m c = (Diverge, c') -> mbind m k c = (Diverge, c').
Proof. intros H. unfold mbind. now rewrite H. Qed.

(** A successful [mbind] splits into its two steps. *)
Lemma mbind_inv_ret {A B : Type} (m : M A) (k : A -> M B) c b c' :
  mbind m k c = (Ret b, c') ->
  exists a c1, m c = (Ret a, c1) /\ k a c1 = (Ret b, c').
Proof.
  unfold mbind. destruct (m c) as [[a | e |] c1] eqn:Hm; intros H.
  - now exists a, c1.
  - discriminate.
  - discriminate.
Qed.

Lemma grows_mret {A : Type} (a : A) : grows (mret a).
Proof. intros c r c' [= _ <-]. reflexivity. Qed.

Lemma grows_lift {A : Type} (o : outcome A) : grows (lift o).
Proof. intros c r c' [= _ <-]. reflexivity. Qed.

Lemma grows_mbind {A B : Type} (m : M A) (k : A -> M B) :
  grows m -> (forall a, grows (k a)) -> grows (mbind m k).
Proof.
  intros Hm Hk c r c'. unfold mbind.
  destruct (m c) as [[a | e |] c1] eqn:E; intros H.
  - transitivity c1; [eapply Hm | eapply Hk]; eauto.
  - injection H as _ <-. eapply Hm; eauto.
  - injection H as _ <-. eapply Hm; eauto.
Qed.

Lemma grows_setdefault func h : grows (setdefault func h).
Proof.
  intros c r c'. unfold setdefault.
  destruct (c !! func) eqn:E; intros [= _ <-].
  - reflexivity.
  - now apply insert_subseteq.
Qed.

Section grows_hashed_globals_of.

Context (w : world) (hf : loc -> M string) (fuel : nat) (func : loc)
        (hook : option HashHook).
Hypothesis hf_grows : forall obj, grows (hf obj).

Lemma grows_hash_named obj isf mdl fullname :
  grows (hash_named w hf func obj isf mdl fullname).
Proof.
  unfold hash_named.
  apply grows_mbind; [apply grows_lift |]. intros [|]; [apply grows_mret |].
  apply grows_mbind; [apply grows_lift |]. intros [v |]; [apply grows_mret |].
  destruct isf; [| apply grows_lift].
  apply grows_mbind; [| intros; apply grows_mret].
  destruct (Nat.eqb obj func); [apply grows_mret | apply hf_grows].
Qed.

Lemma grows_hash_composite obj : grows (hash_composite w fuel hook obj).
Proof.
  unfold hash_composite.
  apply grows_mbind; [apply grows_lift | intros; apply grows_mret].
Qed.

Lemma grows_hash_global obj : grows (hash_global w hf fuel func hook obj).
Proof.
  unfold hash_global.
  destruct obj; try apply grows_hash_composite.
  destruct (heap w !! l) as [[| | g | k | m |] |];
    try apply grows_hash_composite.
  - destruct (sys_modules w !! f_module g);
      [apply grows_hash_named | apply grows_lift].
  - destruct (sys_modules w !! c_module k);
      [apply grows_hash_named | apply grows_lift].
  - apply grows_hash_named.
Qed.

Lemma grows_try_hash_global name obj :
  grows (try_hash_global w hf fuel func hook name obj).
Proof.
  intros c r c'. unfold try_hash_global.
  destruct (hash_global w hf fuel func hook obj c) as [r0 c0] eqn:E.
  apply grows_hash_global in E.
  destruct r0 as [a | [] |]; intros [= _ <-]; exact E.
Qed.

Lemma grows_hash_items items acc :
  grows (hash_items w hf fuel func hook items acc).
Proof.
  revert acc. induction items as [| [name obj] rest IH]; intros acc; simpl.
  - apply grows_mret.
  - apply grows_mbind; [apply grows_try_hash_global | intros; apply IH].
Qed.

Lemma grows_hashed_globals_of : grows (hashed_globals_of w hf fuel func hook).
Proof.
  unfold hashed_globals_of.
  destruct (heap w !! func) as [[| | f | | |] |]; try apply grows_lift.
  apply grows_mbind; [apply grows_lift | intros; apply grows_hash_items].
Qed.

End grows_hashed_globals_of.

Lemma grows_compute_identity w hf fuel func hook :
  (forall obj, grows (hf obj)) -> grows (compute_identity w hf fuel func hook).
Proof.
  intros Hhf. unfold compute_identity.
  apply grows_mbind; [apply grows_lift |]. intros ast_code.
  apply grows_mbind; [now apply grows_hashed_globals_of |].
  intros hashed_globals.
  apply grows_mbind; [apply grows_lift | intros; apply grows_setdefault].
Qed.

(** [hash_function] never removes or overwrites a cache entry. *)
Lemma hash_function_grows w fuel : forall func hook,
  grows (hash_function w fuel func hook).
Proof.
  induction fuel as [| n IH]; intros func hook c r c'; simpl.
  - destruct (c !! func); intros [= _ <-]; reflexivity.
  - destruct (c !! func) eqn:Hc; [intros [= _ <-]; reflexivity |].
    apply grows_compute_identity. intros obj. apply IH.
Qed.

(** ** Outcomes *)


Lemma bind_inv_ret {A B : Type} (m : outcome A) (k : A -> outcome B) b :
  bind m k = Ret b -> exists a, m = Ret a /\ k a = Ret b.
Proof. destruct m as [a | e |]; simpl; intros H; [eauto | discriminate..]. Qed.

Lemma for_each_ext_ret {A B : Type} (f g : A -> outcome B) xs ys :
  (forall x y, In x xs -> f x = Ret y -> g x = Ret y) ->
  for_each f xs = Ret ys -> for_each g xs = Ret ys.
Proof.
  revert ys. induction xs as [| x rest IH]; intros ys Hfg H; simpl in *.
  - exact H.
  - apply bind_inv_ret in H as (y & Hy & H).
    apply bind_inv_ret in H as (ys' & Hys & H).
    rewrite (Hfg x y) by auto. simpl.
    rewrite (IH ys') by auto. exact H.
Qed.

(** ** More fuel and a larger hook change no result *)

Lemma extends_refl hook : extends hook hook.
Proof. intros o token H. exact H. Qed.

Lemma extends_None hook : extends None hook.
Proof. intros o token H. discriminate. Qed.

Lemma deep_transform_mono w tr tr' n : forall m obj t,
  (forall o t', tr o = Ret t' -> tr' o = Ret t') ->
  n <= m -> deep_transform w tr n obj = Ret t -> deep_transform w tr' m obj = Ret t.
Proof.
  induction n as [| n IH]; intros m obj t Htr Hle H; [discriminate |].
  destruct m as [| m]; [lia |]. simpl in *.
  assert (Hrec : forall v t', deep_transform w tr n v = Ret t' ->
                              deep_transform w tr' m v = Ret t')
    by (intros; apply IH; [assumption | lia | assumption]).
  destruct (deref w obj); try exact H.
  - apply bind_inv_ret in H as (xs & Hxs & H).
    rewrite (for_each_ext_ret _ _ _ _ (fun x y _ => Hrec x y) Hxs). exact H.
  - apply bind_inv_ret in H as (xs & Hxs & H).
    rewrite (for_each_ext_ret _ _ _ _ (fun x y _ => Hrec x y) Hxs). exact H.
  - apply bind_inv_ret in H as (keys & Hkeys & H). rewrite Hkeys. simpl.
    apply bind_inv_ret in H as (entries & Hentries & H).
    erewrite for_each_ext_ret; [exact H | | exact Hentries].
    intros k y _ Hk. apply bind_inv_ret in Hk as (v & Hv & Hk).
    rewrite Hv. simpl. apply bind_inv_ret in Hk as (t' & Ht' & Hk).
    now rewrite (Hrec _ _ Ht').
  - now apply Htr.
Qed.

Lemma transform_extends w hook hook' o t :
  extends hook hook' ->
  transform w (hook_or_default hook) o = Ret t ->
  transform w (hook_or_default hook') o = Ret t.
Proof.
  intros Hext. unfold transform.
  destruct (codehash_method w o) as [r |]; [auto |].
  destruct (hook_or_default hook o) as [token |] eqn:E; [| discriminate].
  now rewrite (Hext _ _ E).
Qed.

Lemma repr_hashable_mono w n m obj hook hook' text :
  extends hook hook' -> n <= m ->
  repr_hashable n w obj hook = Ret text ->
  repr_hashable m w obj hook' = Ret text.
Proof.
  unfold repr_hashable. intros Hext Hle H.
  apply bind_inv_ret in H as (t & Ht & H).
  rewrite (deep_transform_mono _ _ (transform w (hook_or_default hook')) _ _ _ _
             (fun o t' => transform_extends w hook hook' o t' Hext) Hle Ht).
  exact H.
Qed.

Lemma refines_refl {A : Type} (m : M A) : refines m m.
Proof. intros c a c' H. exact H. Qed.

Lemma refines_lift {A : Type} (o o' : outcome A) :
  (forall a, o = Ret a -> o' = Ret a) -> refines (lift o) (lift o').
Proof.
  intros H c a c'. unfold lift. intros [= Ho <-]. now rewrite (H a Ho).
Qed.

Lemma refines_mbind {A B : Type} (m m' : M A) (k k' : A -> M B) :
  refines m m' -> (forall a, refines (k a) (k' a)) ->
  refines (mbind m k) (mbind m' k').
Proof.
  intros Hm Hk c b c' H.
  apply mbind_inv_ret in H as (a & c1 & Ha & Hb).
  rewrite (mbind_ret _ _ _ _ _ (Hm _ _ _ Ha)). now apply Hk.
Qed.

Section refines_hashed_globals_of.

Context (w : world) (hf hf' : loc -> M string) (fuel fuel' : nat)
        (func : loc) (hook hook' : option HashHook).
Hypothesis hf_refines : forall obj, refines (hf obj) (hf' obj).
Hypothesis fuel_le : fuel <= fuel'.
Hypothesis hook_extends : extends hook hook'.

Lemma refines_hash_named obj isf mdl fullname :
  refines (hash_named w hf func obj isf mdl fullname)
          (hash_named w hf' func obj isf mdl fullname).
Proof.
  unfold hash_named.
  apply refines_mbind; [apply refines_refl |]. intros [|]; [apply refines_refl |].
  apply refines_mbind; [apply refines_refl |].
  intros [v |]; [apply refines_refl |].
  destruct isf; [| apply refines_refl].
  apply refines_mbind; [| intros; apply refines_refl].
  destruct (Nat.eqb obj func); [apply refines_refl | apply hf_refines].
Qed.

Lemma refines_hash_composite obj :
  refines (hash_composite w fuel hook obj) (hash_composite w fuel' hook' obj).
Proof.
  unfold hash_composite.
  apply refines_mbind; [| intros; apply refines_refl].
  apply refines_lift. intros a. now apply repr_hashable_mono.
Qed.

Lemma refines_hash_global obj :
  refines (hash_global w hf fuel func hook obj)
          (hash_global w hf' fuel' func hook' obj).
Proof.
  unfold hash_global.
  destruct obj; try apply refines_hash_composite.
  destruct (heap w !! l) as [[| | g | k | m |] |];
    try apply refines_hash_composite.
  - destruct (sys_modules w !! f_module g);
      [apply refines_hash_named | apply refines_refl].
  - destruct (sys_modules w !! c_module k);
      [apply refines_hash_named | apply refines_refl].
  - apply refines_hash_named.
Qed.

Lemma refines_try_hash_global name obj :
  refines (try_hash_global w hf fuel func hook name obj)
          (try_hash_global w hf' fuel' func hook' name obj).
Proof.
  intros c a c'. unfold try_hash_global.
  destruct (hash_global w hf fuel func hook obj c) as [r0 c0] eqn:E.
  destruct r0 as [a0 | [] |]; try discriminate.
  intros [= <- <-]. now rewrite (refines_hash_global obj _ _ _ E).
Qed.

Lemma refines_hash_items items acc :
  refines (hash_items w hf fuel func hook items acc)
          (hash_items w hf' fuel' func hook' items acc).
Proof.
  revert acc. induction items as [| [name obj] rest IH]; intros acc; simpl.
  - apply refines_refl.
  - apply refines_mbind; [apply refines_try_hash_global | intros; apply IH].
Qed.

Lemma refines_hashed_globals_of :
  refines (hashed_globals_of w hf fuel func hook)
          (hashed_globals_of w hf' fuel' func hook').
Proof.
  unfold hashed_globals_of.
  destruct (heap w !! func) as [[| | f | | |] |]; try apply refines_refl.
  apply refines_mbind; [apply refines_refl | intros; apply refines_hash_items].
Qed.

Lemma refines_compute_identity :
  refines (compute_identity w hf fuel func hook)
          (compute_identity w hf' fuel' func hook').
Proof.
  unfold compute_identity.
  apply refines_mbind; [apply refines_refl |]. intros ast_code.
  apply refines_mbind; [apply refines_hashed_globals_of |].
  intros hashed_globals.
  apply refines_mbind; [| intros; apply refines_refl].
  apply refines_lift. intros a. now apply repr_hashable_mono.
Qed.

End refines_hashed_globals_of.

Lemma hash_function_hit w fuel func hook (c : cache) h :
  c !! func = Some h -> hash_function w fuel func hook c = (Ret h, c).
Proof. intros H. destruct fuel; simpl; now rewrite H. Qed.

Lemma hash_function_miss w fuel func hook (c : cache) :
  c !! func = None ->
  hash_function w (S fuel) func hook c
  = compute_identity w (fun obj => hash_function w fuel obj None) fuel func hook c.
Proof. intros H. simpl. now rewrite H. Qed.

(** A result reached with some fuel and hook is reached with any larger fuel
    and any hook that accepts as much. *)
Lemma hash_function_mono w n : forall m func hook hook',
  n <= m -> extends hook hook' ->
  refines (hash_function w n func hook) (hash_function w m func hook').
Proof.
  induction n as [| n IH]; intros m func hook hook' Hle Hext c h c' H.
  - simpl in H. destruct (c !! func) eqn:Hc; [| discriminate].
    injection H as <- <-. now apply hash_function_hit.
  - destruct (c !! func) eqn:Hc.
    + rewrite (hash_function_hit w (S n) _ _ _ _ Hc) in H.
      now rewrite (hash_function_hit w m _ _ _ _ Hc).
    + destruct m as [| m]; [lia |].
      rewrite hash_function_miss in H |- * by assumption.
      revert H. apply refines_compute_identity; [| lia | exact Hext].
      intros obj. apply IH; [lia | apply extends_refl].
Qed.

(** After a call that returns, the cache holds the returned identity. *)
Lemma hash_function_cached w fuel func hook (c : cache) h c' :
  hash_function w fuel func hook c = (Ret h, c') -> c' !! func = Some h.
Proof.
  destruct (c !! func) eqn:Hc.
  - rewrite (hash_function_hit _ _ _ _ _ _ Hc). now intros [= <- <-].
  - destruct fuel as [| n]; simpl; rewrite Hc; [discriminate |].
    unfold compute_identity. intros H.
    apply mbind_inv_ret in H as (ast_code & c1 & _ & H).
    apply mbind_inv_ret in H as (hashed_globals & c2 & _ & H).
    apply mbind_inv_ret in H as (spec & c3 & _ & H).
    unfold setdefault in H. destruct (c3 !! func) eqn:Hc3.
    + now injection H as <- <-.
    + injection H as <- <-. apply lookup_insert_eq.
Qed.

(** ** Python dicts with [str] keys *)

Lemma dict_get_set_eq {V : Type} (d : list (string * V)) k v :
  dict_get (dict_set d k v) k = Some v.
Proof.
  induction d as [| [k' v'] rest IH]; simpl.
  - now rewrite String.eqb_refl.
  - destruct (String.eqb k' k) eqn:E; simpl; rewrite E; [reflexivity | exact IH].
Qed.

Lemma dict_get_set_ne {V : Type} (d : list (string * V)) k v k' :
  k <> k' -> dict_get (dict_set d k v) k' = dict_get d k'.
Proof.
  intros Hne. induction d as [| [k0 v0] rest IH]; simpl.
  - apply String.eqb_neq in Hne. now rewrite Hne.
  - destruct (String.eqb k0 k) eqn:E; simpl.
    + apply String.eqb_eq in E. subst k0.
      apply String.eqb_neq in Hne. now rewrite Hne.
    + destruct (String.eqb k0 k'); [reflexivity | exact IH].
Qed.

Lemma dict_set_keys {V : Type} (d : list (string * V)) k v k' :
  In k' (map fst (dict_set d k v)) <-> k' = k \/ In k' (map fst d).
Proof.
  induction d as [| [k0 v0] rest IH]; simpl.
  - intuition.
  - destruct (String.eqb k0 k) eqn:E; simpl.
    + apply String.eqb_eq in E. subst k0. intuition.
    + rewrite IH. intuition.
Qed.

Lemma dict_get_Some_key {V : Type} (d : list (string * V)) k v :
  dict_get d k = Some v -> In k (map fst d).
Proof.
  induction d as [| [k0 v0] rest IH]; simpl; [discriminate |].
  destruct (String.eqb k0 k) eqn:E.
  - apply String.eqb_eq in E. auto.
  - auto.
Qed.

Lemma dict_get_None_key {V : Type} (d : list (string * V)) k :
  dict_get d k = None <-> ~ In k (map fst d).
Proof.
  induction d as [| [k0 v0] rest IH]; simpl; [intuition |].
  destruct (String.eqb k0 k) eqn:E.
  - apply String.eqb_eq in E. split; [discriminate | intros H; exfalso; auto].
  - apply String.eqb_neq in E. rewrite IH. intuition.
Qed.

(** ** The resolver visits every nested code object *)

Lemma nested_codes_In c c' : In c' (nested_codes c) <-> In (inr c') (co_consts c).
Proof.
  unfold nested_codes. induction (co_consts c) as [| k ks IH]; simpl.
  - reflexivity.
  - destruct k as [v | c0]; simpl; rewrite IH.
    + split; [auto | intros [H | H]; [discriminate | exact H]].
    + split; intros [H | H]; auto; left; congruence.
Qed.

Lemma code_size_nested c :
  code_size c = S (list_sum (map code_size (nested_codes c))).
Proof.
  destruct c as [fv ns ks]. unfold nested_codes. simpl. f_equal.
  induction ks as [| k ks IH]; simpl; [reflexivity |].
  destruct k as [v | c0]; simpl; now rewrite IH.
Qed.

Lemma list_sum_rev (l : list nat) : list_sum (rev l) = list_sum l.
Proof.
  induction l as [| x l IH]; simpl; [reflexivity |].
  rewrite list_sum_app. simpl. lia.
Qed.

Section resolver_facts.

Context (global_ns builtin_ns : gmap string val).

Lemma resolve_name_files acc name :
  filed global_ns builtin_ns (resolve_name global_ns builtin_ns acc name) name.
Proof.
  destruct acc as [[gv bv] ub]. unfold resolve_name, filed.
  destruct (global_ns !! name) eqn:Hg.
  - apply dict_get_set_eq.
  - destruct (builtin_ns !! name) eqn:Hb.
    + apply dict_get_set_eq.
    + set_solver.
Qed.

Lemma resolve_name_keeps acc name name' :
  filed global_ns builtin_ns acc name ->
  filed global_ns builtin_ns (resolve_name global_ns builtin_ns acc name') name.
Proof.
  destruct acc as [[gv bv] ub]. unfold resolve_name, filed.
  destruct (String.eqb_spec name' name) as [-> | Hne].
  - intros _. destruct (global_ns !! name) eqn:Hg.
    + apply dict_get_set_eq.
    + destruct (builtin_ns !! name) eqn:Hb.
      * apply dict_get_set_eq.
      * set_solver.
  - destruct (global_ns !! name') eqn:Hg'.
    + destruct (global_ns !! name); [now rewrite dict_get_set_ne | auto].
    + destruct (builtin_ns !! name') eqn:Hb'.
      * destruct (global_ns !! name); [auto |].
        destruct (builtin_ns !! name); [now rewrite dict_get_set_ne | auto].
      * destruct (global_ns !! name); [auto |].
        destruct (builtin_ns !! name); [auto | set_solver].
Qed.

Lemma fold_resolve_keeps names : forall acc name,
  filed global_ns builtin_ns acc name ->
  filed global_ns builtin_ns
    (fold_left (resolve_name global_ns builtin_ns) names acc) name.
Proof.
  induction names as [| n ns IH]; intros acc name H; simpl; [exact H |].
  apply IH. now apply resolve_name_keeps.
Qed.

Lemma fold_resolve_files names : forall acc name,
  In name names ->
  filed global_ns builtin_ns
    (fold_left (resolve_name global_ns builtin_ns) names acc) name.
Proof.
  induction names as [| n ns IH]; intros acc name H; simpl; [destruct H |].
  destruct H as [-> | H].
  - apply fold_resolve_keeps, resolve_name_files.
  - now apply IH.
Qed.

Lemma resolve_codes_keeps fuel : forall codes acc name,
  filed global_ns builtin_ns acc name ->
  filed global_ns builtin_ns
    (resolve_codes global_ns builtin_ns fuel codes acc) name.
Proof.
  induction fuel as [| n IH]; intros codes acc name H; simpl; [exact H |].
  destruct codes as [| c rest]; [exact H |].
  apply IH. now apply fold_resolve_keeps.
Qed.

(** With a turn for every code object on the work list and nested below it,
    every name any of them reads has been filed when the loop ends. *)
Lemma resolve_codes_files fuel : forall codes acc c name,
  list_sum (map code_size codes) <= fuel ->
  In c codes -> reads c name ->
  filed global_ns builtin_ns
    (resolve_codes global_ns builtin_ns fuel codes acc) name.
Proof.
  induction fuel as [| n IH]; intros codes acc c name Hfuel Hin Hreads.
  - destruct codes as [| c0 rest]; [destruct Hin |].
    simpl in Hfuel. rewrite code_size_nested in Hfuel. lia.
  - destruct codes as [| c0 rest]; [destruct Hin |]. simpl.
    assert (Hfuel' : list_sum (map code_size (rev (nested_codes c0) ++ rest)) <= n).
    { simpl in Hfuel. rewrite code_size_nested in Hfuel.
      rewrite map_app, list_sum_app, map_rev, list_sum_rev. lia. }
    destruct Hin as [<- | Hin].
    + destruct Hreads as [c0 name Hhere | c0 c' name Hc' Hreads].
      * apply resolve_codes_keeps. now apply fold_resolve_files.
      * apply (IH _ _ c'); [exact Hfuel' | | exact Hreads].
        apply in_or_app. left. apply in_rev. rewrite rev_involutive.
        now apply nested_codes_In.
    + apply (IH _ _ c); [exact Hfuel' | | exact Hreads].
      apply in_or_app. now right.
Qed.

End resolver_facts.

(** Every name the function's code reads, at any depth, is filed by
    [getclosurevars] as a global, a builtin or an unbound name. *)
Lemma getclosurevars_files func name :
  reads (f_code func) name ->
  let cv := getclosurevars func in
  match f_globals func !! name with
  | Some v => dict_get (globals cv) name = Some v
  | None =>
      match f_builtins func !! name with
      | Some v => dict_get (builtins cv) name = Some v
      | None => name ∈ unbound cv
      end
  end.
Proof.
  intros Hreads. unfold getclosurevars.
  pose proof (resolve_codes_files (f_globals func) (f_builtins func)
                (code_size (f_code func)) [f_code func] ([], [], ∅)
                (f_code func) name) as H.
  destruct (resolve_codes _ _ _ _ _) as [[gv bv] ub]. simpl.
  apply H; [simpl; lia | now left | exact Hreads].
Qed.

(** ** The loop over the dependencies *)

Section loop_facts.

Context (w : world) (hf : loc -> M string) (fuel : nat) (func : loc)
        (hook : option HashHook).

Lemma try_hash_global_ret name obj c t c' :
  hash_global w hf fuel func hook obj c = (Ret t, c') ->
  try_hash_global w hf fuel func hook name obj c = (Ret t, c').
Proof. intros H. unfold try_hash_global. now rewrite H. Qed.

Lemma try_hash_global_inv_ret name obj c t c' :
  try_hash_global w hf fuel func hook name obj c = (Ret t, c') ->
  hash_global w hf fuel func hook obj c = (Ret t, c').
Proof.
  unfold try_hash_global.
  destruct (hash_global w hf fuel func hook obj c) as [[a | [] |] c0];
    intros H; try discriminate; exact H.
Qed.

(** The [except] clause: a CodehashError is raised again with the function,
    the name and the value. *)
Lemma try_hash_global_CodehashError name obj c msg c' :
  hash_global w hf fuel func hook obj c = (Raise (CodehashError msg), c') ->
  try_hash_global w hf fuel func hook name obj c
  = (Raise (CodehashError (In_cannot_hash_global func name obj)), c').
Proof. intros H. unfold try_hash_global. now rewrite H. Qed.

(** Any other exception passes the [except] clause as it is. *)
Lemma try_hash_global_passes name obj c e c' :
  (forall msg, e <> CodehashError msg) ->
  hash_global w hf fuel func hook obj c = (Raise e, c') ->
  try_hash_global w hf fuel func hook name obj c = (Raise e, c').
Proof.
  intros Hne H. unfold try_hash_global. rewrite H.
  destruct e; try reflexivity. now destruct (Hne msg).
Qed.

Lemma hash_items_app pre post : forall acc c,
  hash_items w hf fuel func hook (pre ++ post) acc c
  = mbind (hash_items w hf fuel func hook pre acc)
          (fun acc' => hash_items w hf fuel func hook post acc') c.
Proof.
  induction pre as [| [name obj] pre IH]; intros acc c; simpl.
  - reflexivity.
  - unfold mbind in *.
    destruct (try_hash_global w hf fuel func hook name obj c) as [[t | e |] c1];
      [apply IH | reflexivity..].
Qed.

(** The loop stops at the first dependency that raises. *)
Lemma hash_items_raise pre name obj post acc c acc1 c1 e c2 :
  hash_items w hf fuel func hook pre acc c = (Ret acc1, c1) ->
  try_hash_global w hf fuel func hook name obj c1 = (Raise e, c2) ->
  hash_items w hf fuel func hook (pre ++ (name, obj) :: post) acc c
  = (Raise e, c2).
Proof.
  intros Hpre Hobj. rewrite hash_items_app.
  rewrite (mbind_ret _ _ _ _ _ Hpre). simpl.
  now rewrite (mbind_raise _ _ _ _ _ Hobj).
Qed.

Lemma hash_items_step pre name obj post acc c acc1 c1 t c2 :
  hash_items w hf fuel func hook pre acc c = (Ret acc1, c1) ->
  hash_global w hf fuel func hook obj c1 = (Ret t, c2) ->
  hash_items w hf fuel func hook (pre ++ (name, obj) :: post) acc c
  = hash_items w hf fuel func hook post (dict_set acc1 name t) c2.
Proof.
  intros Hpre Hobj. rewrite hash_items_app.
  rewrite (mbind_ret _ _ _ _ _ Hpre). simpl.
  now rewrite (mbind_ret _ _ _ _ _ (try_hash_global_ret _ _ _ _ _ Hobj)).
Qed.

Context (fn : function) (ast_code : string).
Hypothesis func_is_fn : heap w !! func = Some (HFunction fn).
Hypothesis func_ast_code : ast_code_of w func = Ret ast_code.

(** [assert not closure_vars.unbound] *)
Lemma compute_identity_unbound c :
  unbound (getclosurevars fn) <> ∅ ->
  compute_identity w hf fuel func hook c = (Raise AssertionError, c).
Proof.
  intros Hub. unfold compute_identity, hashed_globals_of.
  rewrite func_ast_code, func_is_fn. unfold lift, mbind, assert.
  now rewrite (bool_decide_eq_false_2 _ Hub).
Qed.

(** With no unbound name, the body is the loop, the rendering of the record
    and the store into the cache. *)
Lemma compute_identity_bound c :
  unbound (getclosurevars fn) = ∅ ->
  compute_identity w hf fuel func hook c
  = (hashed_globals <~ hash_items w hf fuel func hook (items_of fn) [] ;;
     spec <~ lift (repr_hashable fuel w (spec_record ast_code hashed_globals) None) ;;
     setdefault func (hash_text spec)) c.
Proof.
  intros Hub. unfold compute_identity, hashed_globals_of.
  rewrite func_ast_code, func_is_fn. unfold lift at 1, mbind at 1.
  unfold mbind at 1 4, lift at 1, assert.
  now rewrite (bool_decide_eq_true_2 _ Hub).
Qed.

End loop_facts.

(** ** Unbound names *)

(** C7 — Unbound detection. A function whose code (its own or a nested
    definition's) reads a name that is neither a module global nor a builtin
    makes [hash_function] raise AssertionError, once the call gets to compute
    (the function is not in the cache and its source was normalized). The
    exception is none of the CodehashErrors, and the [except CodehashError]
    clause of a function that depends on this one lets it pass unchanged. *)
Theorem unbound_name_raises_AssertionError (w : world) (fuel : nat) (func : loc)
    (hook : option HashHook) (c : cache) (fn : function) (ast_code name : string) :
  heap w !! func = Some (HFunction fn) ->
  c !! func = None ->
  ast_code_of w func = Ret ast_code ->
  reads (f_code fn) name ->
  f_globals fn !! name = None ->
  f_builtins fn !! name = None ->
  hash_function w (S fuel) func hook c = (Raise AssertionError, c) /\
  (forall msg, AssertionError <> CodehashError msg) /\
  (forall hf fuel' caller hook' name' c0 c1,
     hash_global w hf fuel' caller hook' (VRef func) c0 = (Raise AssertionError, c1) ->
     try_hash_global w hf fuel' caller hook' name' (VRef func) c0
     = (Raise AssertionError, c1)).
Proof.
  intros Hfn Hc Hast Hreads Hg Hb. split; [| split].
  - rewrite hash_function_miss by assumption.
    apply (compute_identity_unbound _ _ _ _ _ fn ast_code); try assumption.
    pose proof (getclosurevars_files fn name Hreads) as Hfiled.
    simpl in Hfiled. rewrite Hg, Hb in Hfiled. set_solver.
  - discriminate.
  - intros hf fuel' caller hook' name' c0 c1.
    apply try_hash_global_passes. discriminate.
Qed.

Lemma unbound_name_raises_AssertionError_witness :
  hash_function Examples.w 1 Examples.f_x None ∅ = (Raise AssertionError, ∅).
Proof.
  refine (proj1 (unbound_name_raises_AssertionError Examples.w 0 Examples.f_x None ∅
                   _ _ "x" _ _ _ _ _ _)).
  - reflexivity.
  - reflexivity.
  - vm_compute. reflexivity.
  - apply reads_here. simpl. now left.
  - reflexivity.
  - reflexivity.
Defined.

(** ** The canonical record of a function *)

Lemma insert_sorted_str x ys :
  insert_sorted (VStr x) (map VStr ys) = Ret (map VStr (str_insert x ys)).
Proof.
  induction ys as [| y ys IH]; simpl; [reflexivity |].
  destruct (String.ltb y x); simpl; [now rewrite IH | reflexivity].
Qed.

Lemma py_sorted_str ks : py_sorted (map VStr ks) = Ret (map VStr (str_sorted ks)).
Proof.
  induction ks as [| k ks IH]; simpl; [reflexivity |].
  rewrite IH. simpl. apply insert_sorted_str.
Qed.

Lemma str_insert_In x ys k : In k (str_insert x ys) <-> k = x \/ In k ys.
Proof.
  induction ys as [| y ys IH]; simpl; [intuition |].
  destruct (String.ltb y x); simpl; [rewrite IH |]; intuition.
Qed.

Lemma str_sorted_In ks k : In k (str_sorted ks) <-> In k ks.
Proof.
  induction ks as [| k0 ks IH]; simpl; [reflexivity |].
  rewrite str_insert_In, IH. intuition.
Qed.

Lemma dict_getitem_str (m : list (string * string)) k :
  dict_getitem (map (fun kv => (VStr (fst kv), VStr (snd kv))) m) (VStr k)
  = match dict_get m k with
    | Some v => Ret (VStr v)
    | None => Raise KeyError
    end.
Proof.
  induction m as [| [k0 v0] m IH]; simpl; [reflexivity |].
  destruct (String.eqb k0 k); [reflexivity | exact IH].
Qed.

Lemma for_each_map_ret {A B : Type} (f : A -> outcome B) (g : A -> B) xs :
  (forall x, In x xs -> f x = Ret (g x)) -> for_each f xs = Ret (map g xs).
Proof.
  induction xs as [| x xs IH]; intros H; simpl; [reflexivity |].
  rewrite (H x) by now left. simpl. rewrite IH by (intros; apply H; now right).
  reflexivity.
Qed.

(** Rendering the record never fails and needs three levels of recursion. *)
Lemma repr_hashable_spec_record w fuel ast_code hashed_globals :
  3 <= fuel ->
  repr_hashable fuel w (spec_record ast_code hashed_globals) None
  = Ret (spec_text ast_code hashed_globals).
Proof.
  intros Hfuel. destruct fuel as [| [| [| n]]]; try lia.
  unfold repr_hashable, spec_record.
  set (tr := transform w (hook_or_default None)).
  set (inner := map (fun kv => (VStr (fst kv), VStr (snd kv))) hashed_globals).
  assert (Hinner : deep_transform w tr (S (S n)) (VDict inner)
            = Ret (TDict (map (fun k => (VStr k,
                                 TPrim (VStr (default "" (dict_get hashed_globals k)))))
                            (str_sorted (map fst hashed_globals))))).
  { cbn [deep_transform deref].
    replace (map fst inner) with (map VStr (map fst hashed_globals))
      by (unfold inner; now rewrite !map_map).
    rewrite py_sorted_str. cbn [bind].
    rewrite (for_each_map_ret _
               (fun k => match k with
                         | VStr k => (VStr k, TPrim (VStr (default "" (dict_get hashed_globals k))))
                         | _ => (k, TPrim k)
                         end)).
    - cbn [bind]. now rewrite map_map.
    - intros x Hx. apply in_map_iff in Hx as (k & <- & Hk).
      apply (proj1 (str_sorted_In _ _)) in Hk. unfold inner. rewrite dict_getitem_str.
      destruct (dict_get hashed_globals k) eqn:E.
      + reflexivity.
      + exfalso. exact (proj1 (dict_get_None_key _ _) E Hk). }
  change (deep_transform w tr (S (S (S n))) ?record) with
    (keys <- py_sorted [VStr "ast_code"; VStr "globals"] ;;
     entries <- for_each
                  (fun k => x <- dict_getitem
                                   [(VStr "ast_code", VStr ast_code);
                                    (VStr "globals", VDict inner)] k ;;
                            t <- deep_transform w tr (S (S n)) x ;;
                            Ret (k, t)) keys ;;
     Ret (TDict entries)).
  change (py_sorted [VStr "ast_code"; VStr "globals"])
    with (Ret (A := list val) [VStr "ast_code"; VStr "globals"]).
  cbn [bind for_each].
  change (dict_getitem _ (VStr "ast_code")) with (Ret (VStr ast_code)).
  change (dict_getitem _ (VStr "globals")) with (Ret (VDict inner)).
  cbn [bind]. rewrite Hinner.
  change (deep_transform w tr (S (S n)) (VStr ast_code))
    with (Ret (TPrim (VStr ast_code))).
  cbn [bind]. unfold spec_text. cbn [repr_tval map fst snd repr_val].
  now rewrite map_map.
Qed.

(** ** Running a computation again on the cache it left *)

Lemma replays_lift {A : Type} (o o' : outcome A) :
  (forall a, o = Ret a -> o' = Ret a) -> replays (lift o) (lift o').
Proof.
  intros H c a c1. unfold lift. intros [= Ho <-] c2 _. now rewrite (H a Ho).
Qed.

Lemma replays_mret {A : Type} (a : A) : replays (mret a) (mret a).
Proof. intros c a' c1. unfold mret. now intros [= <- <-] c2 _. Qed.

Lemma replays_mbind {A B : Type} (m m' : M A) (k k' : A -> M B) :
  replays m m' -> (forall a, replays (k a) (k' a)) -> (forall a, grows (k a)) ->
  replays (mbind m k) (mbind m' k').
Proof.
  intros Hm Hk Hgrows c b c1 H c2 Hsub.
  apply mbind_inv_ret in H as (a & c0 & Ha & Hb).
  assert (c0 ⊆ c2) by (transitivity c1; [eapply Hgrows; eauto | assumption]).
  rewrite (mbind_ret _ _ _ _ _ (Hm _ _ _ Ha _ H)).
  eapply Hk; eauto.
Qed.

(** A function hashed once is answered from the cache from then on. *)
Lemma replays_hash_function w n n' func hook hook' :
  replays (hash_function w n func hook) (hash_function w n' func hook').
Proof.
  intros c h c1 H c2 Hsub. apply hash_function_hit.
  eapply lookup_weaken; [| exact Hsub].
  exact (hash_function_cached _ _ _ _ _ _ _ H).
Qed.

Section replays_hash_items.

Context (w : world) (hf hf' : loc -> M string) (fuel : nat) (func : loc)
        (hook hook' : option HashHook).
Hypothesis hf_replays : forall obj, replays (hf obj) (hf' obj).
Hypothesis hf_grows : forall obj, grows (hf obj).
Hypothesis hook_extends : extends hook hook'.

Lemma replays_hash_named obj isf mdl fullname :
  replays (hash_named w hf func obj isf mdl fullname)
          (hash_named w hf' func obj isf mdl fullname).
Proof.
  unfold hash_named.
  apply replays_mbind; [now apply replays_lift | |].
  - intros [|]; [apply replays_mret |].
    apply replays_mbind; [now apply replays_lift | |].
    + intros [v |]; [apply replays_mret |].
      destruct isf; [| now apply replays_lift].
      apply replays_mbind; [| intros; apply replays_mret | intros; apply grows_mret].
      destruct (Nat.eqb obj func); [apply replays_mret | apply hf_replays].
    + intros [v |]; [apply grows_mret |].
      destruct isf; [| apply grows_lift].
      apply grows_mbind; [| intros; apply grows_mret].
      destruct (Nat.eqb obj func); [apply grows_mret | apply hf_grows].
  - intros [|]; [apply grows_mret |].
    apply grows_mbind; [apply grows_lift |].
    intros [v |]; [apply grows_mret |].
    destruct isf; [| apply grows_lift].
    apply grows_mbind; [| intros; apply grows_mret].
    destruct (Nat.eqb obj func); [apply grows_mret | apply hf_grows].
Qed.

Lemma replays_hash_composite obj :
  replays (hash_composite w fuel hook obj) (hash_composite w fuel hook' obj).
Proof.
  unfold hash_composite.
  apply replays_mbind;
    [| intros; apply replays_mret | intros; apply grows_mret].
  apply replays_lift. intros a. now apply repr_hashable_mono.
Qed.

Lemma replays_hash_global obj :
  replays (hash_global w hf fuel func hook obj)
          (hash_global w hf' fuel func hook' obj).
Proof.
  unfold hash_global.
  destruct obj; try apply replays_hash_composite.
  destruct (heap w !! l) as [[| | g | k | m |] |];
    try apply replays_hash_composite.
  - destruct (sys_modules w !! f_module g);
      [apply replays_hash_named | now apply replays_lift].
  - destruct (sys_modules w !! c_module k);
      [apply replays_hash_named | now apply replays_lift].
  - apply replays_hash_named.
Qed.

Lemma replays_try_hash_global name obj :
  replays (try_hash_global w hf fuel func hook name obj)
          (try_hash_global w hf' fuel func hook' name obj).
Proof.
  intros c t c1 H c2 Hsub. apply try_hash_global_inv_ret in H.
  apply try_hash_global_ret. eapply replays_hash_global; eauto.
Qed.

Lemma replays_hash_items items : forall acc,
  replays (hash_items w hf fuel func hook items acc)
          (hash_items w hf' fuel func hook' items acc).
Proof.
  induction items as [| [name obj] rest IH]; intros acc; simpl.
  - apply replays_mret.
  - apply replays_mbind; [apply replays_try_hash_global | intros; apply IH |].
    intros. now apply grows_hash_items.
Qed.

End replays_hash_items.

(** ** Opaque objects in the serializer *)

Section instances.

Context (w : world) (hf : loc -> M string) (fuel : nat) (func : loc)
        (hook : option HashHook) (o : loc) (i : instance).
Hypothesis o_is_instance : heap w !! o = Some (HInstance i).

(** Neither a [__codehash__] method nor a hook that takes the object. *)
Lemma hash_global_unknown_object c :
  i_codehash i = None -> hook_or_default hook (VRef o) = None ->
  hash_global w hf (S fuel) func hook (VRef o) c
  = (Raise (CodehashError (Unknown_object (VRef o))), c).
Proof.
  intros Hmethod Hhook. unfold hash_global. rewrite o_is_instance.
  unfold hash_composite, repr_hashable, lift, mbind. simpl.
  unfold deref. rewrite o_is_instance. unfold transform, codehash_method.
  now rewrite o_is_instance, Hmethod, Hhook.
Qed.

(** The hook takes the object. *)
Lemma hash_global_hooked c token :
  i_codehash i = None -> hook_or_default hook (VRef o) = Some token ->
  hash_global w hf (S fuel) func hook (VRef o) c = (Ret (instance_token token), c).
Proof.
  intros Hmethod Hhook. unfold hash_global. rewrite o_is_instance.
  unfold hash_composite, repr_hashable, lift, mbind. simpl.
  unfold deref. rewrite o_is_instance. unfold transform, codehash_method.
  now rewrite o_is_instance, Hmethod, Hhook.
Qed.

(** The object describes itself. *)
Lemma hash_global_self_describing c token :
  i_codehash i = Some (Some token) ->
  hash_global w hf (S fuel) func hook (VRef o) c = (Ret (instance_token token), c).
Proof.
  intros Hmethod. unfold hash_global. rewrite o_is_instance.
  unfold hash_composite, repr_hashable, lift, mbind. simpl.
  unfold deref. rewrite o_is_instance. unfold transform, codehash_method.
  now rewrite o_is_instance, Hmethod.
Qed.

End instances.

(** ** When the loop succeeds, the call returns *)

Lemma setdefault_returns func h c : exists h' c', setdefault func h c = (Ret h', c').
Proof. unfold setdefault. destruct (c !! func); eauto. Qed.

Lemma hash_function_returns w fuel func hook fn ast_code (c : cache) m c2 :
  3 <= fuel ->
  heap w !! func = Some (HFunction fn) ->
  ast_code_of w func = Ret ast_code ->
  unbound (getclosurevars fn) = ∅ ->
  hash_items w (fun g => hash_function w fuel g None) fuel func hook
    (items_of fn) [] c = (Ret m, c2) ->
  exists h c3, hash_function w (S fuel) func hook c = (Ret h, c3).
Proof.
  intros Hfuel Hfn Hast Hub Hitems.
  destruct (c !! func) as [h |] eqn:Hc.
  - exists h, c. now apply hash_function_hit.
  - rewrite hash_function_miss by assumption.
    rewrite (compute_identity_bound _ _ _ _ _ fn ast_code) by assumption.
    rewrite (mbind_ret _ _ _ _ _ Hitems).
    unfold lift at 1, mbind at 1.
    rewrite repr_hashable_spec_record by assumption.
    apply setdefault_returns.
Qed.

Lemma give_codehash_instance w o i token :
  heap w !! o = Some (HInstance i) ->
  heap (give_codehash w o token) !! o
  = Some (HInstance (Instance_ (i_repr i) (Some (Some token)))).
Proof.
  intros H. unfold give_codehash. rewrite H. simpl. apply lookup_insert_eq.
Qed.

Lemma give_codehash_function w o token func fn :
  heap w !! func = Some (HFunction fn) ->
  heap (give_codehash w o token) !! func = Some (HFunction fn).
Proof.
  intros H. unfold give_codehash.
  destruct (heap w !! o) as [[| | | | | i] |] eqn:Ho; try exact H.
  simpl. rewrite lookup_insert_ne; [exact H |].
  intros ->. rewrite Ho in H. discriminate.
Qed.

Lemma give_codehash_ast_code_of w o token func fn :
  heap w !! func = Some (HFunction fn) ->
  ast_code_of (give_codehash w o token) func = ast_code_of w func.
Proof.
  intros H. unfold ast_code_of.
  rewrite (give_codehash_function _ _ _ _ _ H), H.
  unfold give_codehash. now destruct (heap w !! o) as [[| | | | | i] |].
Qed.

(** ** Unhashable values *)

(** C6 (as amended) — Unhashable rejection, for a call that computes. Let
    [func] close over (or read as a global) [name], bound to an instance [o]
    of a plain class with no [__codehash__] method, and let the dependencies
    the loop meets before [name] hash. A call with no hook, on a cache that
    has no entry for [func], raises CodehashError with the function, the
    name and the value (a function that is in the cache gets its cached
    identity instead, whatever it closes over). Calling again on
    the cache that call left behind returns an identity as soon as [o] can be
    given a token and the remaining dependencies hash: with a hook that
    returns a token for [o] (the dependencies before [name] are then answered
    as before), or after the class has gained a [__codehash__] method. *)
Theorem unhashable_instance_rejected_then_accepted (w : world) (fuel : nat)
    (func : loc) (fn : function) (ast_code : string) (c : cache)
    (pre post : list (string * val)) (name : string) (o : loc) (i : instance)
    (acc : list (string * string)) (c1 : cache) :
  3 <= fuel ->
  heap w !! func = Some (HFunction fn) ->
  c !! func = None ->
  ast_code_of w func = Ret ast_code ->
  unbound (getclosurevars fn) = ∅ ->
  items_of fn = pre ++ (name, VRef o) :: post ->
  heap w !! o = Some (HInstance i) ->
  i_codehash i = None ->
  hash_items w (fun g => hash_function w fuel g None) fuel func None pre [] c
  = (Ret acc, c1) ->
  hash_function w (S fuel) func None c
  = (Raise (CodehashError (In_cannot_hash_global func name (VRef o))), c1)
  /\
  (forall (hook : HashHook) token m c2,
     hook (VRef o) = Some token ->
     hash_items w (fun g => hash_function w fuel g None) fuel func (Some hook)
       post (dict_set acc name (instance_token token)) c1 = (Ret m, c2) ->
     exists h c3, hash_function w (S fuel) func (Some hook) c1 = (Ret h, c3))
  /\
  (forall token acc' c1' m c2,
     let w' := give_codehash w o token in
     hash_items w' (fun g => hash_function w' fuel g None) fuel func None
       pre [] c1 = (Ret acc', c1') ->
     hash_items w' (fun g => hash_function w' fuel g None) fuel func None
       post (dict_set acc' name (instance_token token)) c1' = (Ret m, c2) ->
     exists h c3, hash_function w' (S fuel) func None c1 = (Ret h, c3)).
Proof.
  intros Hfuel Hfn Hc Hast Hub Hitems Ho Hmethod Hpre.
  destruct fuel as [| n]; [lia |].
  split; [| split].
  - rewrite hash_function_miss by assumption.
    rewrite (compute_identity_bound _ _ _ _ _ fn ast_code) by assumption.
    rewrite Hitems. apply mbind_raise.
    apply (hash_items_raise _ _ _ _ _ _ _ _ _ _ _ _ _ _ _ Hpre).
    apply (try_hash_global_CodehashError _ _ _ _ _ _ _ _ (Unknown_object (VRef o))).
    now apply (hash_global_unknown_object _ _ _ _ _ _ i).
  - intros hook token m c2 Hhook Hpost.
    apply (hash_function_returns _ _ _ _ fn ast_code _ m c2); try assumption.
    rewrite Hitems.
    assert (Hpre' : hash_items w (fun g => hash_function w (S n) g None) (S n)
                      func (Some hook) pre [] c1 = (Ret acc, c1)).
    { apply (replays_hash_items w (fun g => hash_function w (S n) g None)
               (fun g => hash_function w (S n) g None) (S n) func None (Some hook))
        with (c := c) (c1 := c1); try assumption.
      - intros g. apply replays_hash_function.
      - intros g. apply hash_function_grows.
      - apply extends_None.
      - reflexivity. }
    rewrite (hash_items_step _ _ _ _ _ _ _ _ _ _ _ _ _ _ _ Hpre'
               (hash_global_hooked w _ n func (Some hook) o i Ho _ token
                  Hmethod Hhook)).
    exact Hpost.
  - intros token acc' c1' m c2 w' Hpre' Hpost.
    apply (hash_function_returns _ _ _ _ fn ast_code _ m c2); try assumption.
    + now apply give_codehash_function.
    + unfold w'. now rewrite (give_codehash_ast_code_of _ _ _ _ _ Hfn).
    + rewrite Hitems.
      rewrite (hash_items_step _ _ _ _ _ _ _ _ _ _ _ _ _ _ _ Hpre'
                 (hash_global_self_describing _ _ _ _ _ _ _
                    (give_codehash_instance _ _ _ token Ho) _ _ eq_refl)).
      exact Hpost.
Qed.

Lemma unhashable_instance_rejected_then_accepted_witness :
  hash_function Examples.w 4 Examples.f_c None ∅
  = (Raise (CodehashError
              (In_cannot_hash_global Examples.f_c "c" (VRef Examples.c_obj))), ∅)
  /\ (exists h c3,
        hash_function Examples.w 4 Examples.f_c (Some Examples.empty_hook) ∅
        = (Ret h, c3))
  /\ (exists h c3,
        hash_function (give_codehash Examples.w Examples.c_obj "") 4 Examples.f_c
          None ∅ = (Ret h, c3)).
Proof.
  edestruct unhashable_instance_rejected_then_accepted
    with (w := Examples.w) (fuel := 3) (func := Examples.f_c) (c := ∅ : cache)
         (pre := @nil (string * val)) (post := @nil (string * val)) (name := "c")
         (o := Examples.c_obj) (acc := @nil (string * string)) (c1 := ∅ : cache)
    as (Hraise & Hhook & Hmethod).
  - lia.
  - reflexivity.
  - reflexivity.
  - vm_compute. reflexivity.
  - vm_compute. reflexivity.
  - vm_compute. reflexivity.
  - reflexivity.
  - reflexivity.
  - reflexivity.
  - split; [exact Hraise | split].
    + eapply (Hhook Examples.empty_hook ""); reflexivity.
    + eapply (Hmethod "" [] ∅); reflexivity.
Defined.

(** C6, as stated, fails on the cache: [f] closes over [c], an instance of
    a plain class with no [__codehash__]; once a call with a hook has
    computed the identity of [f], the call without a hook returns that
    identity, where on an empty cache it raises. *)
Lemma cached_function_is_not_rejected :
  heap Examples.w !! Examples.c_obj
  = Some (HInstance (Instance_ "<test_hashing.C object>" None)) /\
  hash_function Examples.w 4 Examples.f_c (Some Examples.empty_hook) ∅
  = (Ret "9eb41b5455fbc8d892382685413913a9f5f8a342",
     {[ Examples.f_c := "9eb41b5455fbc8d892382685413913a9f5f8a342" ]}) /\
  hash_function Examples.w 4 Examples.f_c None
    {[ Examples.f_c := "9eb41b5455fbc8d892382685413913a9f5f8a342" ]}
  = (Ret "9eb41b5455fbc8d892382685413913a9f5f8a342",
     {[ Examples.f_c := "9eb41b5455fbc8d892382685413913a9f5f8a342" ]}) /\
  hash_function Examples.w 4 Examples.f_c None ∅
  = (Raise (CodehashError
              (In_cannot_hash_global Examples.f_c "c" (VRef Examples.c_obj))), ∅).
Proof.
  split; [reflexivity | split; [| split]].
  - vm_compute. reflexivity.
  - reflexivity.
  - vm_compute. reflexivity.
Qed.

(** ** A dependency that cannot be hashed *)

(** The first dependency whose [try] block raises CodehashError ends the call
    with a CodehashError naming the function, the name and the value. *)
Lemma hash_function_raises_at w fuel func hook fn ast_code (c : cache)
    pre name obj post acc c1 msg c2 :
  heap w !! func = Some (HFunction fn) ->
  c !! func = None ->
  ast_code_of w func = Ret ast_code ->
  unbound (getclosurevars fn) = ∅ ->
  items_of fn = pre ++ (name, obj) :: post ->
  hash_items w (fun g => hash_function w fuel g None) fuel func hook pre [] c
  = (Ret acc, c1) ->
  hash_global w (fun g => hash_function w fuel g None) fuel func hook obj c1
  = (Raise (CodehashError msg), c2) ->
  hash_function w (S fuel) func hook c
  = (Raise (CodehashError (In_cannot_hash_global func name obj)), c2).
Proof.
  intros Hfn Hc Hast Hub Hitems Hpre Hobj.
  rewrite hash_function_miss by assumption.
  rewrite (compute_identity_bound _ _ _ _ _ fn ast_code) by assumption.
  rewrite Hitems. apply mbind_raise.
  apply (hash_items_raise _ _ _ _ _ _ _ _ _ _ _ _ _ _ _ Hpre).
  now apply (try_hash_global_CodehashError _ _ _ _ _ _ _ _ msg).
Qed.

(** A function of a module that is neither standard nor versioned is hashed
    by [hash_function(obj)]: what that call raises, the [try] block raises. *)
Lemma hash_global_function_raises w hf fuel func hook g gfn gmod c e c' :
  heap w !! g = Some (HFunction gfn) ->
  sys_modules w !! f_module gfn = Some gmod ->
  is_stdlib w gmod = Ret false ->
  version_of w gmod = Ret None ->
  g <> func ->
  hf g c = (Raise e, c') ->
  hash_global w hf fuel func hook (VRef g) c = (Raise e, c').
Proof.
  intros Hg Hmod Hstd Hver Hne Hhf.
  unfold hash_global. rewrite Hg, Hmod. unfold hash_named.
  rewrite Hstd, Hver. unfold lift at 1, mbind at 1. unfold lift at 1, mbind at 1.
  apply Nat.eqb_neq in Hne. rewrite Hne. now apply mbind_raise.
Qed.

(** C10 (as amended) — The hook stops at the top-level function, for calls
    that compute. Let [func], not in the cache, depend on a function [g] of
    a module with no discoverable version (dependency kind 3), not in the
    cache either when the loop reaches it, and let [g] close over an
    instance [o] that has no [__codehash__] method. The call [hash_function(func, hook)] raises
    CodehashError — naming [func] and its dependency [g] — although [hook]
    returns a token for [o]: [g] is hashed by [hash_function(g)], with no
    hook. (Hashed with the hook, the same reference to [o] gets its token.) *)
Theorem hook_not_passed_to_dependencies (w : world) (n : nat) (hook : HashHook)
    (func : loc) (fn : function) (ast_code : string) (c : cache)
    (pre post : list (string * val)) (gname : string) (acc : list (string * string))
    (c1 : cache)
    (g : loc) (gfn : function) (gmod : module) (g_ast_code : string)
    (gpre gpost : list (string * val)) (oname : string)
    (gacc : list (string * string)) (c2 : cache)
    (o : loc) (i : instance) (token : string) :
  heap w !! func = Some (HFunction fn) ->
  c !! func = None ->
  ast_code_of w func = Ret ast_code ->
  unbound (getclosurevars fn) = ∅ ->
  items_of fn = pre ++ (gname, VRef g) :: post ->
  hash_items w (fun f => hash_function w (S (S n)) f None) (S (S n)) func
    (Some hook) pre [] c = (Ret acc, c1) ->
  heap w !! g = Some (HFunction gfn) ->
  g <> func ->
  c1 !! g = None ->
  sys_modules w !! f_module gfn = Some gmod ->
  is_stdlib w gmod = Ret false ->
  version_of w gmod = Ret None ->
  ast_code_of w g = Ret g_ast_code ->
  unbound (getclosurevars gfn) = ∅ ->
  items_of gfn = gpre ++ (oname, VRef o) :: gpost ->
  hash_items w (fun f => hash_function w (S n) f None) (S n) g None gpre [] c1
  = (Ret gacc, c2) ->
  heap w !! o = Some (HInstance i) ->
  i_codehash i = None ->
  hook (VRef o) = Some token ->
  hash_function w (S (S (S n))) func (Some hook) c
  = (Raise (CodehashError (In_cannot_hash_global func gname (VRef g))), c2)
  /\
  hash_global w (fun f => hash_function w (S n) f None) (S n) g (Some hook)
    (VRef o) c2 = (Ret (instance_token token), c2).
Proof.
  intros Hfn Hc Hast Hub Hitems Hpre Hg Hne Hcg Hmod Hstd Hver Hgast Hgub
         Hgitems Hgpre Ho Hmethod Hhook.
  split.
  - apply (hash_function_raises_at _ _ _ _ fn ast_code _ pre gname (VRef g) post
             acc c1 (In_cannot_hash_global g oname (VRef o))); try assumption.
    apply (hash_global_function_raises _ _ _ _ _ _ gfn gmod); try assumption.
    apply (hash_function_raises_at _ _ _ _ gfn g_ast_code _ gpre oname (VRef o)
             gpost gacc c2 (Unknown_object (VRef o))); try assumption.
    now apply (hash_global_unknown_object _ _ _ _ _ _ i).
  - now apply (hash_global_hooked w _ n g (Some hook) o i).
Qed.

Lemma hook_not_passed_to_dependencies_witness :
  hash_function Examples.w 3 Examples.f_uses_g (Some Examples.empty_hook) ∅
  = (Raise (CodehashError
              (In_cannot_hash_global Examples.f_uses_g "g" (VRef Examples.g_c))), ∅)
  /\
  hash_global Examples.w (fun f => hash_function Examples.w 1 f None) 1
    Examples.g_c (Some Examples.empty_hook) (VRef Examples.c_obj) ∅
  = (Ret (instance_token ""), ∅).
Proof.
  eapply hook_not_passed_to_dependencies
    with (pre := @nil (string * val)) (post := @nil (string * val))
         (gpre := @nil (string * val)) (gpost := @nil (string * val))
         (acc := @nil (string * string)) (gacc := @nil (string * string))
         (c1 := ∅ : cache) (gmod := Examples.m_test) (oname := "c").
  - reflexivity.
  - reflexivity.
  - vm_compute. reflexivity.
  - vm_compute. reflexivity.
  - vm_compute. reflexivity.
  - reflexivity.
  - reflexivity.
  - discriminate.
  - reflexivity.
  - reflexivity.
  - reflexivity.
  - reflexivity.
  - vm_compute. reflexivity.
  - vm_compute. reflexivity.
  - vm_compute. reflexivity.
  - reflexivity.
  - reflexivity.
  - reflexivity.
  - reflexivity.
Defined.

(** C10, as stated, fails on the cache: [f] depends on [g], which closes
    over [c], an instance only the hook can give a token. Once
    [hash_function(g, hook)] has computed the identity of [g], the call
    [hash_function(f, hook)] finds [g] in the cache and returns, where on an
    empty cache it raises. *)
Lemma cached_dependency_is_not_hashed_again :
  heap Examples.w !! Examples.c_obj
  = Some (HInstance (Instance_ "<test_hashing.C object>" None)) /\
  hash_function Examples.w 4 Examples.g_c (Some Examples.empty_hook) ∅
  = (Ret "9eb41b5455fbc8d892382685413913a9f5f8a342",
     {[ Examples.g_c := "9eb41b5455fbc8d892382685413913a9f5f8a342" ]}) /\
  fst (hash_function Examples.w 5 Examples.f_uses_g (Some Examples.empty_hook)
         {[ Examples.g_c := "9eb41b5455fbc8d892382685413913a9f5f8a342" ]})
  = Ret "54bcf884121ccc065d7e1dc8fbd55c577d593d1e" /\
  hash_function Examples.w 5 Examples.f_uses_g (Some Examples.empty_hook) ∅
  = (Raise (CodehashError
              (In_cannot_hash_global Examples.f_uses_g "g" (VRef Examples.g_c))), ∅).
Proof.
  split; [reflexivity | split; [| split]].
  - vm_compute. reflexivity.
  - vm_compute. reflexivity.
  - vm_compute. reflexivity.
Qed.

(** ** Functions that depend on themselves *)

(** A reference of a function to itself is the token [function:self]. *)
Lemma self_reference_token w hf fuel func hook fn c :
  heap w !! func = Some (HFunction fn) ->
  hashed_recursively w fn ->
  hash_global w hf fuel func hook (VRef func) c = (Ret "function:self", c).
Proof.
  intros Hfn (mdl & Hmod & Hstd & Hver).
  unfold hash_global. rewrite Hfn, Hmod. unfold hash_named.
  rewrite Hstd, Hver. unfold lift, mbind, mret. now rewrite Nat.eqb_refl.
Qed.

(** A reference to another such function is a call of [hash_function]: when
    that call never returns, neither does the [try] block. *)
Lemma hash_global_function_diverges w hf fuel func hook g gfn c c' :
  heap w !! g = Some (HFunction gfn) ->
  hashed_recursively w gfn ->
  g <> func ->
  hf g c = (Diverge, c') ->
  hash_global w hf fuel func hook (VRef g) c = (Diverge, c').
Proof.
  intros Hg (mdl & Hmod & Hstd & Hver) Hne Hhf.
  unfold hash_global. rewrite Hg, Hmod. unfold hash_named.
  rewrite Hstd, Hver. unfold lift at 1, mbind at 1. unfold lift at 1, mbind at 1.
  apply Nat.eqb_neq in Hne. rewrite Hne. now apply mbind_diverge.
Qed.

(** Two functions that refer to each other: the sentinel guards a function
    against itself only, so each call of [hash_function] for one calls it for
    the other, at every depth. *)
Lemma mutual_reference_diverges w f g fn gn f_ast g_ast gname fname fpost gpost
    (c : cache) :
  heap w !! f = Some (HFunction fn) ->
  heap w !! g = Some (HFunction gn) ->
  f <> g ->
  c !! f = None -> c !! g = None ->
  ast_code_of w f = Ret f_ast -> ast_code_of w g = Ret g_ast ->
  unbound (getclosurevars fn) = ∅ -> unbound (getclosurevars gn) = ∅ ->
  hashed_recursively w fn -> hashed_recursively w gn ->
  items_of fn = (gname, VRef g) :: fpost ->
  items_of gn = (fname, VRef f) :: gpost ->
  forall fuel hook,
    hash_function w fuel f hook c = (Diverge, c) /\
    hash_function w fuel g hook c = (Diverge, c).
Proof.
  intros Hf Hg Hne Hcf Hcg Hfa Hga Hfu Hgu Hfr Hgr Hfi Hgi.
  induction fuel as [| n IH]; intros hook.
  - simpl. now rewrite Hcf, Hcg.
  - destruct (IH None) as [IHf IHg].
    rewrite !hash_function_miss by assumption.
    rewrite (compute_identity_bound _ _ _ _ _ fn f_ast) by assumption.
    rewrite (compute_identity_bound _ _ _ _ _ gn g_ast) by assumption.
    rewrite Hfi, Hgi. simpl. split.
    + apply mbind_diverge, mbind_diverge.
      unfold try_hash_global.
      now rewrite (hash_global_function_diverges _ _ _ _ _ g gn c c).
    + apply mbind_diverge, mbind_diverge.
      unfold try_hash_global.
      now rewrite (hash_global_function_diverges _ _ _ _ _ f fn c c).
Qed.

Lemma test_module_hashed_recursively fn :
  f_module fn = "test_hashing" -> hashed_recursively Examples.w fn.
Proof.
  intros H. exists Examples.m_test. rewrite H. repeat split; reflexivity.
Qed.

(** C3 — Self-reference termination, at its failing input: [f] calls [g] and
    [g] calls [f], both module-level functions of [test_hashing]. Whatever
    the depth allowed, [hash_function(f)] does not return. *)
Theorem mutual_recursion_never_returns (fuel : nat) :
  hash_function Examples.w fuel Examples.f_calls_g None ∅ = (Diverge, ∅).
Proof.
  refine (proj1 (mutual_reference_diverges Examples.w Examples.f_calls_g
                   Examples.g_calls_f _ _ _ _ "g" "f" [] [] ∅
                   _ _ _ _ _ _ _ _ _ _ _ _ _ fuel None)).
  - reflexivity.
  - reflexivity.
  - discriminate.
  - reflexivity.
  - reflexivity.
  - vm_compute. reflexivity.
  - vm_compute. reflexivity.
  - vm_compute. reflexivity.
  - vm_compute. reflexivity.
  - now apply test_module_hashed_recursively.
  - now apply test_module_hashed_recursively.
  - vm_compute. reflexivity.
  - vm_compute. reflexivity.
Qed.

(** The case the sentinel does cover: a function that calls itself. *)
Example direct_recursion_returns :
  exists h c,
    hash_function Examples.w 4 Examples.f_recursive None ∅ = (Ret h, c) /\
    hashed_globals_of Examples.w (fun g => hash_function Examples.w 3 g None) 3
      Examples.f_recursive None ∅ = (Ret [("f", "function:self")], ∅).
Proof.
  destruct (hash_function Examples.w 4 Examples.f_recursive None ∅) as [r c] eqn:E.
  assert (Hr : r = Ret "da9595aec51488894e994e2549466c200e9f6ed7")
    by (apply (f_equal fst) in E; vm_compute in E; now subst r).
  subst r. eexists _, c. split; [reflexivity | vm_compute; reflexivity].
Qed.

(** ** The code normalizer *)

Lemma split_line line rest :
  contains Text.newline line = false ->
  Text.split Text.newline (line +:+ String Text.newline rest)
  = line :: Text.split Text.newline rest.
Proof.
  induction line as [| a line IH]; intros H.
  - reflexivity.
  - cbn [contains] in H. apply orb_false_iff in H as [Ha Hline].
    change (String a line +:+ String Text.newline rest)
      with (String a (line +:+ String Text.newline rest)).
    cbn [Text.split]. rewrite Ha. now rewrite (IH Hline).
Qed.

(** Decorators that take one line each are dropped. *)
Lemma dropwhile_decorator_lines decorators lines :
  Forall (fun l => exists d, l = String (ascii_of_nat 64) d) decorators ->
  dropwhile_decorator (decorators ++ lines) = dropwhile_decorator lines.
Proof.
  induction 1 as [| l ls [d ->] _ IH]; [reflexivity |].
  simpl. exact IH.
Qed.

(** A blank line after a decorator: [l[0]] raises. *)
Lemma dropwhile_decorator_blank decorator lines :
  dropwhile_decorator (String (ascii_of_nat 64) decorator :: EmptyString :: lines)
  = Raise IndexError.
Proof. reflexivity. Qed.

(** A decorator call that spans lines: only its first line is dropped. *)
Lemma dropwhile_decorator_continued decorator c continuation lines :
  Ascii.eqb c (ascii_of_nat 64) = false ->
  dropwhile_decorator
    (String (ascii_of_nat 64) decorator :: String c continuation :: lines)
  = Ret (String c continuation :: lines).
Proof. intros H. simpl. now rewrite H. Qed.

(** On a source made of a decorator line, a blank line and the definition,
    the normalizer raises IndexError before the parser is asked anything. *)
Lemma ast_code_of_source_decorator_blank w decorator definition :
  contains Text.newline decorator = false ->
  ast_code_of_source w
    (String (ascii_of_nat 64) decorator
       +:+ String Text.newline (String Text.newline definition))
  = Raise IndexError.
Proof.
  intros H. unfold ast_code_of_source.
  rewrite (split_line (String (ascii_of_nat 64) decorator)) by exact H.
  change (Text.split Text.newline (String Text.newline definition))
    with (EmptyString :: Text.split Text.newline definition).
  reflexivity.
Qed.

Lemma map_walk_set_field name v fields :
  map (fun p => (fst p, walk_remove_docstring (snd p))) (set_field name v fields)
  = set_field name (walk_remove_docstring v)
      (map (fun p => (fst p, walk_remove_docstring (snd p))) fields).
Proof.
  induction fields as [| [n v0] rest IH]; simpl; [reflexivity |].
  destruct (String.eqb n name); simpl; [reflexivity | now rewrite IH].
Qed.

Lemma get_field_map_walk name fields :
  get_field name (map (fun p => (fst p, walk_remove_docstring (snd p))) fields)
  = option_map walk_remove_docstring (get_field name fields).
Proof.
  induction fields as [| [n v0] rest IH]; simpl; [reflexivity |].
  destruct (String.eqb n name); [reflexivity | exact IH].
Qed.

Lemma get_field_set_field name v fields :
  get_field name fields <> None ->
  get_field name (set_field name v fields) = Some v.
Proof.
  induction fields as [| [n v0] rest IH]; simpl; [congruence |].
  destruct (String.eqb n name) eqn:E; simpl; rewrite E; [reflexivity | exact IH].
Qed.

Lemma set_field_set_field name v v' fields :
  set_field name v (set_field name v' fields) = set_field name v fields.
Proof.
  induction fields as [| [n v0] rest IH]; simpl; [reflexivity |].
  destruct (String.eqb n name) eqn:E; simpl; rewrite E; [reflexivity | now rewrite IH].
Qed.

(** The walk keeps what makes a statement a docstring. *)
Lemma is_docstring_walk stmt :
  is_docstring (walk_remove_docstring stmt) = is_docstring stmt.
Proof.
  destruct stmt as [cls fields | items | r]; try reflexivity.
  cbn [walk_remove_docstring].
  set (fields' := map (fun p => (fst p, walk_remove_docstring (snd p))) fields).
  destruct (String.eqb cls "Expr") eqn:E.
  - apply String.eqb_eq in E. subst cls. cbn [remove_docstring isinstance existsb].
    cbn [String.eqb Ascii.eqb Bool.eqb andb orb]. cbn [is_docstring].
    unfold fields'. rewrite get_field_map_walk.
    destruct (get_field "value" fields) as [[c f | i | r] |]; try reflexivity.
    cbn [option_map walk_remove_docstring].
    assert (Hcls : forall n, exists f', remove_docstring n = match n with
                   | Node c0 _ => Node c0 f' | _ => n end).
    { intros [c0 f0 | i0 | r0]; [| exists []; reflexivity..].
      unfold remove_docstring.
      destruct (isinstance _ _); [| now exists f0].
      destruct (get_field "body" f0) as [[| [| s ss] |] |]; try now exists f0.
      destruct (is_docstring s); eexists; reflexivity. }
    destruct (Hcls (Node c (map (fun p => (fst p, walk_remove_docstring (snd p))) f)))
      as [f' ->]. reflexivity.
  - assert (Hcls : exists f', remove_docstring (Node cls fields') = Node cls f').
    { unfold remove_docstring.
      destruct (isinstance _ _); [| now exists fields'].
      destruct (get_field "body" fields') as [[| [| s ss] |] |]; try now exists fields'.
      destruct (is_docstring s); eexists; reflexivity. }
    destruct Hcls as [f' ->]. cbn [is_docstring]. now rewrite E.
Qed.

(** A leading docstring does not show in the walked tree: the node with the
    docstring statement before its body and the node without it are walked to
    the same tree. *)
Lemma walk_remove_docstring_docstring cls fields docstring body :
  isinstance (Node cls fields) ["AsyncFunctionDef"; "FunctionDef"; "ClassDef"; "Module"]
  = true ->
  get_field "body" fields = Some (Seq (docstring :: body)) ->
  is_docstring docstring = true ->
  match body with
  | stmt :: _ => is_docstring stmt = false
  | [] => True
  end ->
  walk_remove_docstring (Node cls fields)
  = walk_remove_docstring (Node cls (set_field "body" (Seq body) fields)).
Proof.
  intros Hcls Hbody Hdoc Hrest. cbn [walk_remove_docstring].
  rewrite map_walk_set_field. cbn [walk_remove_docstring].
  set (fields' := map (fun p => (fst p, walk_remove_docstring (snd p))) fields).
  assert (Hbody' : get_field "body" fields'
                   = Some (Seq (walk_remove_docstring docstring
                                  :: map walk_remove_docstring body))).
  { unfold fields'. rewrite get_field_map_walk, Hbody. reflexivity. }
  unfold remove_docstring.
  change (isinstance (Node cls ?f) ?l) with (isinstance (Node cls fields) l).
  rewrite Hcls, Hbody', is_docstring_walk, Hdoc.
  rewrite get_field_set_field by (rewrite Hbody'; discriminate).
  destruct body as [| stmt rest]; [reflexivity |].
  cbn [map]. rewrite is_docstring_walk, Hrest. reflexivity.
Qed.

(** The function's own name does not show in the dump. *)
Lemma clear_name_set_name cls fields name :
  clear_name (Node cls (set_field "name" name fields)) = clear_name (Node cls fields).
Proof. cbn [clear_name]. now rewrite set_field_set_field. Qed.

(** C2 — Insensitivity of the normalizer, at its failing input. [f] and the
    documented [g] of the tests get one identity; [f] written under a
    decorator with a blank line before [def] gets none: [hash_function]
    raises IndexError on it. *)
Theorem decorator_then_blank_line_raises_IndexError :
  (hash_function Examples.w 4 Examples.f_1 None ∅).1
  = Ret "0da1f4bee9c7fa44059a6b3d198c7e144fe22b64" /\
  (hash_function Examples.w 4 Examples.g_doc None ∅).1
  = Ret "0da1f4bee9c7fa44059a6b3d198c7e144fe22b64" /\
  (forall fuel,
     hash_function Examples.w (S fuel) Examples.f_decorated_blank None ∅
     = (Raise IndexError, ∅)).
Proof.
  split; [vm_compute; reflexivity |].
  split; [vm_compute; reflexivity |].
  intros fuel. rewrite hash_function_miss by reflexivity.
  unfold compute_identity. apply mbind_raise. unfold lift. f_equal.
Qed.

(** The same function under a decorator call that spans three lines: the
    text handed to the parser starts with the rest of the decorator. *)
Example multiline_decorator_reaches_the_parser :
  dropwhile_decorator (Text.split Text.newline Examples.src_f_decorated_multiline)
  = Ret ["    'f'"; ")"; "def f():"; "    return 1"; ""].
Proof. reflexivity. Qed.

(** ** Modules *)

Lemma version_walk_first w parts n :
  (forall k, 1 <= k <= n ->
             is_Some (sys_modules w !! Text.join "." (firstn k parts))) ->
  version_walk w parts n
  = Ret (first_version w (map (fun k => Text.join "." (firstn k parts))
                            (rev (seq 1 n)))).
Proof.
  induction n as [| n IH]; intros Hreg; [reflexivity |].
  rewrite seq_S, rev_app_distr. cbn [rev app map first_version version_walk].
  change (1 + n) with (S n). unfold shown_version.
  destruct (Hreg (S n)) as [mdl Hmdl]; [lia |]. rewrite Hmdl.
  destruct (m_version mdl) as [[| c v] |]; try reflexivity;
    apply IH; intros k Hk; apply Hreg; lia.
Qed.

(** Version discovery, when every ancestor of the module is registered: the
    first non-empty version from the most specific name to the least. *)
Lemma version_of_first w mdl :
  (forall name, In name (ancestors (m_name mdl)) -> is_Some (sys_modules w !! name)) ->
  version_of w mdl = Ret (first_version w (ancestors (m_name mdl))).
Proof.
  intros Hreg. unfold version_of, ancestors. apply version_walk_first.
  intros k Hk. apply Hreg. unfold ancestors. apply in_map_iff. exists k.
  split; [reflexivity |]. apply in_rev. rewrite rev_involutive.
  apply in_seq. lia.
Qed.

Section modules.

Context (w : world) (hf : loc -> M string) (fuel : nat) (func : loc)
        (hook : option HashHook) (l : loc) (mdl : module).
Hypothesis l_is_module : heap w !! l = Some (HModule mdl).

(** A module with a file under a standard-library root. *)
Lemma hash_global_module_stdlib c :
  is_stdlib w mdl = Ret true ->
  hash_global w hf fuel func hook (VRef l) c = (Ret (m_name mdl +:+ "(stdlib)"), c).
Proof.
  intros H. unfold hash_global. rewrite l_is_module. unfold hash_named.
  now rewrite H.
Qed.

(** A module elsewhere, with a version in its chain of ancestors. *)
Lemma hash_global_module_version c version :
  is_stdlib w mdl = Ret false ->
  version_of w mdl = Ret (Some version) ->
  hash_global w hf fuel func hook (VRef l) c
  = (Ret (m_name mdl +:+ "(" +:+ version +:+ ")"), c).
Proof.
  intros Hstd Hver. unfold hash_global. rewrite l_is_module. unfold hash_named.
  now rewrite Hstd, Hver.
Qed.

(** A module elsewhere with no version: the classified failure. *)
Lemma hash_global_module_unversioned c name :
  is_stdlib w mdl = Ret false ->
  version_of w mdl = Ret None ->
  try_hash_global w hf fuel func hook name (VRef l) c
  = (Raise (CodehashError (In_cannot_hash_global func name (VRef l))), c).
Proof.
  intros Hstd Hver. apply (try_hash_global_CodehashError _ _ _ _ _ _ _ _ no_message).
  unfold hash_global. rewrite l_is_module. unfold hash_named.
  now rewrite Hstd, Hver.
Qed.

(** A module with no [__file__] (a built-in one): AttributeError, which the
    [except] clause does not turn into a CodehashError. *)
Lemma hash_global_module_no_file c name :
  STDLIB_PATHS w <> [] ->
  m_file mdl = None ->
  try_hash_global w hf fuel func hook name (VRef l) c = (Raise AttributeError, c).
Proof.
  intros Hpaths Hfile. apply try_hash_global_passes; [discriminate |].
  unfold hash_global. rewrite l_is_module. unfold hash_named, is_stdlib.
  destruct (STDLIB_PATHS w); [contradiction |]. now rewrite Hfile.
Qed.

End modules.

(** The modules of [test_module]. *)
Example os_is_stdlib :
  hashed_globals_of Examples.w (fun g => hash_function Examples.w 3 g None) 3
    Examples.f_os None ∅ = (Ret [("os", "os(stdlib)")], ∅).
Proof. vm_compute. reflexivity. Qed.

Example codehash_has_a_version :
  is_stdlib Examples.w Examples.m_codehash = Ret false /\
  version_of Examples.w Examples.m_codehash = Ret (Some "0.1.0").
Proof. split; reflexivity. Qed.

(** C8 — Module tokens, at the failing input: a function that reads the
    built-in module [sys]. The module has no [__file__]; the call raises
    AttributeError where the claim has a token or a CodehashError. *)
Theorem builtin_module_raises_AttributeError (fuel : nat) :
  heap Examples.w !! Examples.sys_module = Some (HModule Examples.m_sys) /\
  m_file Examples.m_sys = None /\
  hash_function Examples.w (S fuel) Examples.f_sys None ∅ = (Raise AttributeError, ∅).
Proof.
  split; [reflexivity | split; [reflexivity |]].
  rewrite hash_function_miss by reflexivity.
  rewrite (compute_identity_bound _ _ _ _ _
             (Examples.def "f" (Examples.def_return "f" "sys") ["sys"] []
                [inl VNone] [VRef Examples.sys_module] ∅)
             "FunctionDef('', arguments([], None, [], [], None, []), [Return(Name('sys', Load()))], [], None)");
    [| reflexivity | vm_compute; reflexivity | vm_compute; reflexivity].
  apply mbind_raise.
  change (items_of _) with ([] ++ [("sys", VRef Examples.sys_module)]).
  apply hash_items_raise with (acc1 := []) (c1 := ∅ : cache); [reflexivity |].
  now apply (hash_global_module_no_file _ _ _ _ _ _ Examples.m_sys).
Qed.

(** ** What the dependency map holds *)

Lemma dict_set_In {V : Type} (d : list (string * V)) k v k' v' :
  In (k', v') (dict_set d k v) -> (k' = k /\ v' = v) \/ In (k', v') d.
Proof.
  induction d as [| [k0 v0] rest IH]; simpl.
  - intros [[= <- <-] | []]. now left.
  - destruct (String.eqb k0 k) eqn:E; simpl.
    + apply String.eqb_eq in E. subst k0.
      intros [[= <- <-] | H]; [now left | right; now right].
    + intros [H | H]; [right; now left |].
      destruct (IH H) as [? | ?]; [now left | right; now right].
Qed.

Lemma dict_set_NoDup {V : Type} (d : list (string * V)) k v :
  List.NoDup (map fst d) -> List.NoDup (map fst (dict_set d k v)).
Proof.
  induction d as [| [k0 v0] rest IH]; simpl; intros H.
  - constructor; [intros [] | constructor].
  - destruct (String.eqb k0 k) eqn:E; simpl; [exact H |].
    apply List.NoDup_cons_iff in H as [Hin Hnd].
    apply List.NoDup_cons_iff. split; [| now apply IH].
    rewrite dict_set_keys. intros [-> | Hin']; [| contradiction].
    now rewrite String.eqb_refl in E.
Qed.

Lemma dict_get_In {V : Type} (d : list (string * V)) k v :
  dict_get d k = Some v -> In (k, v) d.
Proof.
  induction d as [| [k0 v0] rest IH]; simpl; [discriminate |].
  destruct (String.eqb k0 k) eqn:E.
  - apply String.eqb_eq in E. subst k0. intros [= <-]. now left.
  - intros H. right. now apply IH.
Qed.

(** A key of a dict whose keys are all different splits it around its only
    entry. *)
Lemma dict_split {V : Type} (d : list (string * V)) k v :
  List.NoDup (map fst d) -> dict_get d k = Some v ->
  exists pre post, d = pre ++ (k, v) :: post /\ ~ In k (map fst post).
Proof.
  intros Hnd Hget. apply dict_get_In in Hget.
  apply in_split in Hget as (pre & post & ->). exists pre, post.
  split; [reflexivity |].
  rewrite map_app in Hnd. cbn [map fst] in Hnd.
  apply List.NoDup_remove_2 in Hnd. intros Hin. apply Hnd.
  apply in_or_app. now right.
Qed.

Section resolver_dicts.

Context (global_ns builtin_ns : gmap string val).

Lemma resolve_name_globals_ok acc name :
  globals_ok global_ns acc ->
  globals_ok global_ns (resolve_name global_ns builtin_ns acc name).
Proof.
  destruct acc as [[gv bv] ub]. unfold resolve_name, globals_ok.
  intros [Hnd Hin]. destruct (global_ns !! name) eqn:Hg.
  - split; [now apply dict_set_NoDup |].
    intros k v' H. apply dict_set_In in H as [[-> ->] | H]; auto.
  - destruct (builtin_ns !! name); now split.
Qed.

Lemma fold_resolve_globals_ok names : forall acc,
  globals_ok global_ns acc ->
  globals_ok global_ns (fold_left (resolve_name global_ns builtin_ns) names acc).
Proof.
  induction names as [| n ns IH]; intros acc H; simpl; [exact H |].
  apply IH. now apply resolve_name_globals_ok.
Qed.

Lemma resolve_codes_globals_ok fuel : forall codes acc,
  globals_ok global_ns acc ->
  globals_ok global_ns (resolve_codes global_ns builtin_ns fuel codes acc).
Proof.
  induction fuel as [| n IH]; intros codes acc H; simpl; [exact H |].
  destruct codes as [| c rest]; [exact H |].
  apply IH. now apply fold_resolve_globals_ok.
Qed.

End resolver_dicts.

Lemma getclosurevars_globals func :
  List.NoDup (map fst (globals (getclosurevars func))) /\
  forall k v, In (k, v) (globals (getclosurevars func)) -> f_globals func !! k = Some v.
Proof.
  unfold getclosurevars.
  pose proof (resolve_codes_globals_ok (f_globals func) (f_builtins func)
                (code_size (f_code func)) [f_code func] ([], [], ∅)) as H.
  destruct (resolve_codes _ _ _ _ _) as [[gv bv] ub]. simpl.
  apply H. split; [constructor | intros k v []].
Qed.

Lemma fold_dict_set_NoDup {V : Type} (entries : list (string * V)) : forall d,
  List.NoDup (map fst d) ->
  List.NoDup (map fst (fold_left (fun d nc => dict_set d (fst nc) (snd nc)) entries d)).
Proof.
  induction entries as [| [k v] rest IH]; intros d H; simpl; [exact H |].
  apply IH. now apply dict_set_NoDup.
Qed.

Lemma getclosurevars_nonlocals_NoDup func :
  List.NoDup (map fst (nonlocals (getclosurevars func))).
Proof.
  unfold getclosurevars.
  destruct (resolve_codes _ _ _ _ _) as [[gv bv] ub]. simpl.
  apply fold_dict_set_NoDup. constructor.
Qed.

Section resolver_reads.

Context (global_ns builtin_ns : gmap string val) (root : code).

(** The dict of globals holds no name but those the code reads. *)
Lemma resolve_name_reads acc name :
  reads root name ->
  (forall k, In k (map fst (fst (fst acc))) -> reads root k) ->
  forall k,
    In k (map fst (fst (fst (resolve_name global_ns builtin_ns acc name)))) ->
    reads root k.
Proof.
  destruct acc as [[gv bv] ub]. unfold resolve_name. simpl.
  intros Hname Hacc k. destruct (global_ns !! name).
  - simpl. rewrite dict_set_keys. intros [-> | Hk]; auto.
  - destruct (builtin_ns !! name); simpl; auto.
Qed.

Lemma fold_resolve_reads names : forall acc,
  (forall name, In name names -> reads root name) ->
  (forall k, In k (map fst (fst (fst acc))) -> reads root k) ->
  forall k,
    In k (map fst (fst (fst (fold_left (resolve_name global_ns builtin_ns)
                               names acc)))) ->
    reads root k.
Proof.
  induction names as [| n ns IH]; intros acc Hnames Hacc; simpl; [exact Hacc |].
  apply IH; [intros name Hin; apply Hnames; now right |].
  apply resolve_name_reads; [apply Hnames; now left | exact Hacc].
Qed.

Lemma resolve_codes_reads fuel : forall codes acc,
  (forall c name, In c codes -> reads c name -> reads root name) ->
  (forall k, In k (map fst (fst (fst acc))) -> reads root k) ->
  forall k,
    In k (map fst (fst (fst (resolve_codes global_ns builtin_ns fuel codes acc)))) ->
    reads root k.
Proof.
  induction fuel as [| n IH]; intros codes acc Hcodes Hacc; simpl; [exact Hacc |].
  destruct codes as [| c rest]; [exact Hacc |].
  apply IH.
  - intros c' name Hin Hreads. apply in_app_or in Hin as [Hin | Hin].
    + apply (Hcodes c name); [now left |].
      apply (reads_nested c c'); [| exact Hreads].
      apply nested_codes_In. now apply in_rev.
    + apply (Hcodes c' name); [now right | exact Hreads].
  - apply fold_resolve_reads; [| exact Hacc].
    intros name Hin. apply (Hcodes c name); [now left | now apply reads_here].
Qed.

End resolver_reads.

Lemma getclosurevars_globals_read func name :
  In name (map fst (globals (getclosurevars func))) -> reads (f_code func) name.
Proof.
  unfold getclosurevars.
  pose proof (resolve_codes_reads (f_globals func) (f_builtins func) (f_code func)
                (code_size (f_code func)) [f_code func] ([], [], ∅)) as H.
  destruct (resolve_codes _ _ _ _ _) as [[gv bv] ub]. simpl in *.
  apply H; [| intros k []].
  intros c n [<- | []] Hreads. exact Hreads.
Qed.

Section map_facts.

Context (w : world) (hf : loc -> M string) (fuel : nat) (func : loc)
        (hook : option HashHook).

(** The names in the map are those of the dependencies. *)
Lemma hash_items_keys items : forall acc c m c',
  hash_items w hf fuel func hook items acc c = (Ret m, c') ->
  forall k, In k (map fst m) <-> In k (map fst acc) \/ In k (map fst items).
Proof.
  induction items as [| [name obj] rest IH]; intros acc c m c' H k.
  - simpl in H. injection H as <- <-. simpl. intuition.
  - simpl in H. apply mbind_inv_ret in H as (token & c1 & _ & H).
    rewrite (IH _ _ _ _ H k), dict_set_keys. simpl. intuition.
Qed.

(** The loop leaves the entries of other names alone. *)
Lemma hash_items_other items : forall acc c m c' name,
  hash_items w hf fuel func hook items acc c = (Ret m, c') ->
  ~ In name (map fst items) ->
  dict_get m name = dict_get acc name.
Proof.
  induction items as [| [n obj] rest IH]; intros acc c m c' name H Hnot.
  - simpl in H. now injection H as <- <-.
  - simpl in H, Hnot. apply mbind_inv_ret in H as (token & c1 & _ & H).
    rewrite (IH _ _ _ _ _ H) by tauto.
    apply dict_get_set_ne. tauto.
Qed.

(** The entry of a name is the token its last binding in the list was given
    by the [try] block. *)
Lemma hash_items_token pre name obj post acc c m c' :
  hash_items w hf fuel func hook (pre ++ (name, obj) :: post) acc c = (Ret m, c') ->
  ~ In name (map fst post) ->
  exists c1 token c2,
    hash_global w hf fuel func hook obj c1 = (Ret token, c2) /\
    dict_get m name = Some token.
Proof.
  intros H Hnot. rewrite hash_items_app in H.
  apply mbind_inv_ret in H as (acc1 & c1 & _ & H). simpl in H.
  apply mbind_inv_ret in H as (token & c2 & Htry & H).
  exists c1, token, c2. split; [now apply try_hash_global_inv_ret in Htry |].
  rewrite (hash_items_other _ _ _ _ _ _ H Hnot). apply dict_get_set_eq.
Qed.

Lemma hashed_globals_of_inv fn c m c' :
  heap w !! func = Some (HFunction fn) ->
  hashed_globals_of w hf fuel func hook c = (Ret m, c') ->
  hash_items w hf fuel func hook (items_of fn) [] c = (Ret m, c').
Proof.
  intros Hfn H. unfold hashed_globals_of in H. rewrite Hfn in H.
  apply mbind_inv_ret in H as ([] & c1 & Hassert & H).
  unfold lift in Hassert. now injection Hassert as _ <-.
Qed.

End map_facts.

(** C5 (as amended) — What the dependency map holds. When
    [hashed_globals_of] returns a map: every module global the code of the
    function reads, in its own code or in a nested definition's, is in the
    map under its name, with the token the classifier gave for its value;
    so is every closure cell's name, with the token of the cell's value when
    the name is not also among the globals read; and the map has no other
    name — a name resolved from the builtin namespace is filed by the
    resolver under [builtins] and is not in the map. *)
Theorem dependency_map_of_cells_and_globals (w : world) (hf : loc -> M string)
    (fuel : nat) (func : loc) (hook : option HashHook) (fn : function)
    (c : cache) (m : list (string * string)) (c' : cache) :
  heap w !! func = Some (HFunction fn) ->
  hashed_globals_of w hf fuel func hook c = (Ret m, c') ->
  (forall name v,
     reads (f_code fn) name -> f_globals fn !! name = Some v ->
     exists c1 token c2,
       hash_global w hf fuel func hook v c1 = (Ret token, c2) /\
       dict_get m name = Some token) /\
  (forall name v,
     dict_get (nonlocals (getclosurevars fn)) name = Some v ->
     In name (map fst m) /\
     (dict_get (globals (getclosurevars fn)) name = None ->
      exists c1 token c2,
        hash_global w hf fuel func hook v c1 = (Ret token, c2) /\
        dict_get m name = Some token)) /\
  (forall name,
     In name (map fst m) ->
     In name (map fst (nonlocals (getclosurevars fn))) \/
     (reads (f_code fn) name /\ is_Some (f_globals fn !! name))) /\
  (forall name v,
     reads (f_code fn) name ->
     f_globals fn !! name = None -> f_builtins fn !! name = Some v ->
     dict_get (builtins (getclosurevars fn)) name = Some v /\
     (~ In name (map fst (nonlocals (getclosurevars fn))) ->
      dict_get m name = None)).
Proof.
  intros Hfn H. apply (hashed_globals_of_inv _ _ _ _ _ fn) in H; [| exact Hfn].
  destruct (getclosurevars_globals fn) as [Hnd Hbound].
  pose proof (getclosurevars_nonlocals_NoDup fn) as Hnd'.
  unfold items_of in H. split; [| split; [| split]].
  - intros name v Hreads Hg.
    pose proof (getclosurevars_files fn name Hreads) as Hfiled.
    simpl in Hfiled. rewrite Hg in Hfiled.
    destruct (dict_split _ _ _ Hnd Hfiled) as (gpre & gpost & Eg & Hnot).
    rewrite Eg, app_assoc in H.
    exact (hash_items_token _ _ _ _ _ _ _ _ _ _ _ _ _ H Hnot).
  - intros name v Hcell. split.
    + apply (proj2 (hash_items_keys _ _ _ _ _ _ _ _ _ _ H name)).
      right. rewrite map_app. apply in_or_app. left.
      eapply dict_get_Some_key; eauto.
    + intros Hnotg.
      destruct (dict_split _ _ _ Hnd' Hcell) as (npre & npost & En & Hnot).
      rewrite En, <- app_assoc in H. cbn [app] in H.
      apply (hash_items_token _ _ _ _ _ _ _ _ _ _ _ _ _ H).
      rewrite map_app. intros Hin. apply in_app_or in Hin as [Hin | Hin];
        [contradiction |].
      now apply dict_get_None_key in Hnotg.
  - intros name Hin.
    apply (proj1 (hash_items_keys _ _ _ _ _ _ _ _ _ _ H name)) in Hin.
    destruct Hin as [[] | Hin]. rewrite map_app in Hin.
    apply in_app_or in Hin as [Hin | Hin]; [now left | right].
    split; [now apply getclosurevars_globals_read |].
    apply in_map_iff in Hin as ([k v] & <- & Hin).
    simpl. rewrite (Hbound _ _ Hin). eauto.
  - intros name v Hreads Hg Hb. split.
    + pose proof (getclosurevars_files fn name Hreads) as Hfiled.
      simpl in Hfiled. now rewrite Hg, Hb in Hfiled.
    + intros Hnotn.
      rewrite (hash_items_other w hf fuel func hook _ _ _ _ _ name H);
        [reflexivity |].
      rewrite map_app. intros Hin. apply in_app_or in Hin as [Hin | Hin];
        [contradiction |].
      apply in_map_iff in Hin as ([k v'] & <- & Hin).
      apply Hbound in Hin. simpl in *. congruence.
Qed.

Lemma dependency_map_of_cells_and_globals_witness :
  hashed_globals_of Examples.w (fun g => hash_function Examples.w 3 g None) 3
    Examples.f_mixed None ∅
  = (Ret [("dct", "composite:42248c8a0e0e4bfc28d57bdec95e683b8f9fdfd9");
          ("os", "os(stdlib)")], ∅) /\
  (exists c1 token c2,
     hash_global Examples.w (fun g => hash_function Examples.w 3 g None) 3
       Examples.f_mixed None (VRef Examples.os_module) c1 = (Ret token, c2) /\
     dict_get [("dct", "composite:42248c8a0e0e4bfc28d57bdec95e683b8f9fdfd9");
               ("os", "os(stdlib)")] "os" = Some token) /\
  dict_get (builtins (getclosurevars Examples.fn_mixed)) "int"
  = Some (VRef Examples.int_class).
Proof.
  assert (H : hashed_globals_of Examples.w
                (fun g => hash_function Examples.w 3 g None) 3
                Examples.f_mixed None ∅
              = (Ret [("dct", "composite:42248c8a0e0e4bfc28d57bdec95e683b8f9fdfd9");
                      ("os", "os(stdlib)")], ∅))
    by (vm_compute; reflexivity).
  destruct (dependency_map_of_cells_and_globals Examples.w _ 3 Examples.f_mixed
              None Examples.fn_mixed ∅ _ ∅ eq_refl H)
    as (Hglobals & _ & _ & Hbuiltins).
  split; [exact H | split].
  - apply Hglobals; [apply reads_here; simpl; now left | reflexivity].
  - apply (Hbuiltins "int"); [apply reads_here; simpl; tauto | reflexivity..].
Defined.

(** C5, as stated, fails on a builtin: [def f(): int] reads [int] from the
    builtin namespace, and its dependency map is empty. *)
Lemma builtin_name_not_in_dependency_map :
  heap Examples.w !! Examples.f_int = Some (HFunction Examples.fn_int) /\
  reads (f_code Examples.fn_int) "int" /\
  f_builtins Examples.fn_int !! "int" = Some (VRef Examples.int_class) /\
  hashed_globals_of Examples.w (fun g => hash_function Examples.w 3 g None) 3
    Examples.f_int None ∅ = (Ret [], ∅).
Proof.
  split; [reflexivity | split; [| split]].
  - apply reads_here. simpl. now left.
  - reflexivity.
  - vm_compute. reflexivity.
Qed.

(** ** Dicts and the order of their keys *)

Lemma for_each_ext {A B : Type} (f g : A -> outcome B) xs :
  (forall x, In x xs -> f x = g x) -> for_each f xs = for_each g xs.
Proof.
  induction xs as [| x xs IH]; intros H; simpl; [reflexivity |].
  rewrite (H x) by now left. destruct (g x); simpl; try reflexivity.
  rewrite IH by (intros; apply H; now right). reflexivity.
Qed.

Lemma for_each_Forall2 {A B : Type} (P : A -> B -> Prop) (f : A -> outcome B) xs :
  (forall x, In x xs -> exists y, f x = Ret y /\ P x y) ->
  exists ys, for_each f xs = Ret ys /\ Forall2 P xs ys.
Proof.
  induction xs as [| x xs IH]; intros H.
  - exists []. split; [reflexivity | constructor].
  - destruct (H x (or_introl eq_refl)) as (y & Hy & HP).
    destruct IH as (ys & Hys & Hall); [intros z Hz; apply H; now right |].
    exists (y :: ys). cbn [for_each bind]. rewrite Hy. cbn [bind]. rewrite Hys.
    split; [reflexivity | now constructor].
Qed.

Lemma for_each_inv_In {A B : Type} (f : A -> outcome B) xs ys x :
  for_each f xs = Ret ys -> In x xs -> exists y, f x = Ret y.
Proof.
  revert ys. induction xs as [| x0 xs IH]; intros ys H Hin; [destruct Hin |].
  cbn [for_each] in H. apply bind_inv_ret in H as (y0 & Hy0 & H).
  apply bind_inv_ret in H as (ys0 & Hys0 & _).
  destruct Hin as [<- | Hin]; [eauto | eapply IH; eauto].
Qed.

Section sorting.

Context (keys : list val).
Hypothesis keys_ordered : totally_ordered keys.

Lemma insert_sorted_spec x : forall sorted,
  In x keys -> incl sorted keys -> ~ In x sorted ->
  StronglySorted lt sorted ->
  exists sorted',
    insert_sorted x sorted = Ret sorted' /\
    StronglySorted lt sorted' /\ Permutation (x :: sorted) sorted'.
Proof.
  induction sorted as [| y rest IH]; intros Hx Hincl Hnot Hsorted.
  - exists [x]. repeat split; [repeat constructor | apply Permutation_refl].
  - assert (Hy : In y keys) by (apply Hincl; now left).
    assert (Hrest : incl rest keys) by (intros z Hz; apply Hincl; now right).
    apply StronglySorted_inv in Hsorted as [Hsorted Hall].
    cbn [insert_sorted].
    destruct (comparable _ keys_ordered y x Hy Hx) as [[|] Hcmp]; rewrite Hcmp;
      cbn [bind].
    + destruct (IH Hx Hrest) as (rest' & Hins & Hsorted' & Hperm);
        [intros Hin; apply Hnot; now right | exact Hsorted |].
      rewrite Hins. cbn [bind]. exists (y :: rest'). repeat split.
      * constructor; [exact Hsorted' |].
        apply List.Forall_forall. intros z Hz.
        apply (Permutation_in _ (Permutation_sym Hperm)) in Hz as [<- | Hz];
          [exact Hcmp |].
        rewrite List.Forall_forall in Hall. now apply Hall.
      * eapply perm_trans; [apply perm_swap | now apply perm_skip].
    + exists (x :: y :: rest). repeat split; [| apply Permutation_refl].
      assert (Hxy : lt x y).
      { destruct (connected _ keys_ordered x y Hx Hy) as [H | H];
          [intros ->; apply Hnot; now left | exact H |].
        unfold lt in H. congruence. }
      constructor; [now constructor |].
      constructor; [exact Hxy |].
      apply List.Forall_forall. intros z Hz. rewrite List.Forall_forall in Hall.
      apply (transitive _ keys_ordered x y z); auto.
Qed.

Lemma py_sorted_spec : forall l,
  incl l keys -> List.NoDup l ->
  exists sorted,
    py_sorted l = Ret sorted /\ StronglySorted lt sorted /\ Permutation l sorted.
Proof.
  induction l as [| x rest IH]; intros Hincl Hnd.
  - exists []. repeat split; [constructor | apply Permutation_refl].
  - apply List.NoDup_cons_iff in Hnd as [Hnot Hnd].
    destruct IH as (sorted & Hsort & Hsorted & Hperm);
      [intros z Hz; apply Hincl; now right | exact Hnd |].
    destruct (insert_sorted_spec x sorted) as (sorted' & Hins & Hsorted' & Hperm');
      [apply Hincl; now left
      | intros z Hz; apply Hincl; right;
        exact (Permutation_in _ (Permutation_sym Hperm) Hz)
      | intros Hin; apply Hnot;
        exact (Permutation_in _ (Permutation_sym Hperm) Hin)
      | exact Hsorted |].
    exists sorted'. cbn [py_sorted]. rewrite Hsort. cbn [bind].
    repeat split; [exact Hins | exact Hsorted' |].
    eapply perm_trans; [apply perm_skip; exact Hperm | exact Hperm'].
Qed.

(** A list has one sorted arrangement. *)
Lemma sorted_unique : forall l1 l2,
  incl l1 keys -> StronglySorted lt l1 -> StronglySorted lt l2 ->
  Permutation l1 l2 -> l1 = l2.
Proof.
  induction l1 as [| a l1 IH]; intros l2 Hincl H1 H2 Hperm.
  - now apply Permutation_nil in Hperm.
  - destruct l2 as [| b l2];
      [apply Permutation_sym, Permutation_nil in Hperm; discriminate |].
    apply StronglySorted_inv in H1 as [H1 Hall1].
    apply StronglySorted_inv in H2 as [H2 Hall2].
    rewrite List.Forall_forall in Hall1, Hall2.
    assert (Ha : In a keys) by (apply Hincl; now left).
    assert (Hab : a = b).
    { assert (Hb : In b (a :: l1))
        by (apply (Permutation_in _ (Permutation_sym Hperm)); now left).
      assert (Ha' : In a (b :: l2))
        by (apply (Permutation_in _ Hperm); now left).
      destruct Hb as [Hb | Hb]; [exact Hb |].
      destruct Ha' as [Ha' | Ha']; [now symmetry |].
      exfalso. apply (irreflexive _ keys_ordered a Ha).
      apply (transitive _ keys_ordered a b a); auto. apply Hincl. now right. }
    subst b. f_equal. apply IH; auto.
    + intros z Hz. apply Hincl. now right.
    + now apply Permutation_cons_inv in Hperm.
Qed.

(** [sorted] gives one list for all the orders in which the keys come. *)
Lemma py_sorted_permutation l1 l2 :
  incl l1 keys -> List.NoDup l1 -> Permutation l1 l2 ->
  py_sorted l1 = py_sorted l2.
Proof.
  intros Hincl Hnd Hperm.
  assert (Hincl2 : incl l2 keys)
    by (intros z Hz; apply Hincl;
        exact (Permutation_in _ (Permutation_sym Hperm) Hz)).
  assert (Hnd2 : List.NoDup l2) by exact (Permutation_NoDup Hperm Hnd).
  destruct (py_sorted_spec l1 Hincl Hnd) as (s1 & -> & Hs1 & Hp1).
  destruct (py_sorted_spec l2 Hincl2 Hnd2) as (s2 & -> & Hs2 & Hp2).
  f_equal. apply sorted_unique; auto.
  - intros z Hz. apply Hincl. exact (Permutation_in _ (Permutation_sym Hp1) Hz).
  - eapply perm_trans; [apply Permutation_sym; exact Hp1 |].
    eapply perm_trans; [exact Hperm | exact Hp2].
Qed.

End sorting.

(** [obj[k]] on a dict finds the value stored under [k]. *)
Lemma dict_getitem_In items k v :
  totally_ordered (map fst items) -> In (k, v) items ->
  dict_getitem items k = Ret v.
Proof.
  intros Hord Hin.
  assert (Hdistinct : forall a b, In a (map fst items) -> In b (map fst items) ->
                                  (py_eq a b = true <-> a = b))
    by exact (distinct _ Hord).
  pose proof (no_duplicate _ Hord) as Hnd. clear Hord.
  induction items as [| [k' v'] rest IH]; [destruct Hin |].
  cbn [map fst] in Hdistinct, Hnd.
  apply List.NoDup_cons_iff in Hnd as [Hnot Hnd].
  cbn [dict_getitem]. destruct Hin as [[= -> ->] | Hin].
  - rewrite (proj2 (Hdistinct k k (or_introl eq_refl) (or_introl eq_refl)) eq_refl).
    reflexivity.
  - assert (Hk : In k (map fst rest))
      by (apply in_map_iff; now exists (k, v)).
    destruct (py_eq k' k) eqn:E.
    + apply (Hdistinct k' k) in E; [| now left | now right]. now subst k'.
    + apply IH; auto. intros a b Ha Hb. apply Hdistinct; now right.
Qed.

Lemma totally_ordered_permutation keys keys' :
  Permutation keys keys' -> totally_ordered keys -> totally_ordered keys'.
Proof.
  intros Hperm [Hc Hconn Hirr Htr Hd Hnd].
  assert (Hin : forall a, In a keys' -> In a keys)
    by (intros a; apply Permutation_in; now apply Permutation_sym).
  split; intros; eauto 7. exact (Permutation_NoDup Hperm Hnd).
Qed.

Lemma for_each_Forall2_eq {A B : Type} (f g : A -> outcome B) xs ys :
  Forall2 (fun x y => f x = g y) xs ys -> for_each f xs = for_each g ys.
Proof.
  induction 1 as [| x y xs ys Hxy _ IH]; [reflexivity |].
  cbn [for_each]. now rewrite Hxy, IH.
Qed.

Lemma Forall2_In_r {A B : Type} (R : A -> B -> Prop) xs ys y :
  Forall2 R xs ys -> In y ys -> exists x, In x xs /\ R x y.
Proof.
  induction 1 as [| x0 y0 xs ys Hxy _ IH]; intros Hin; [destruct Hin |].
  destruct Hin as [<- | Hin]; [exists x0; split; [now left | exact Hxy] |].
  destruct (IH Hin) as (x & Hx & HR). exists x. split; [now right | exact HR].
Qed.

Lemma paired_keys w (items items' : list (val * val)) :
  Forall2 (fun p q => fst p = fst q /\ same_mapping w (snd p) (snd q)) items items' ->
  map fst items = map fst items'.
Proof.
  induction 1 as [| p q ps qs [Hk _] _ IH]; [reflexivity |].
  cbn [map]. now rewrite Hk, IH.
Qed.

(** The serializer does not tell apart two values that are the same up to
    the insertion order of dicts. *)
Lemma deep_transform_same_mapping w tr : forall n a b,
  same_mapping w a b -> deep_transform w tr n a = deep_transform w tr n b.
Proof.
  induction n as [| n IH]; intros a b H; [reflexivity |].
  cbn [deep_transform].
  destruct H as [v
                | a b xs ys Ha Hb Hall
                | a b xs ys Ha Hb Hall
                | a b items1 items2 items1' Ha Hb Hord Hperm Hall].
  - reflexivity.
  - rewrite Ha, Hb.
    rewrite (for_each_Forall2_eq (deep_transform w tr n) (deep_transform w tr n)
               xs ys); [reflexivity |].
    eapply Forall2_impl; [exact Hall |]. intros x y Hxy. now apply IH.
  - rewrite Ha, Hb.
    rewrite (for_each_Forall2_eq (deep_transform w tr n) (deep_transform w tr n)
               xs ys); [reflexivity |].
    eapply Forall2_impl; [exact Hall |]. intros x y Hxy. now apply IH.
  - rewrite Ha, Hb.
    assert (Hkeys : Permutation (map fst items1) (map fst items2)).
    { rewrite <- (paired_keys w _ _ Hall). now apply Permutation_map. }
    rewrite (py_sorted_permutation _ Hord (map fst items1) (map fst items2));
      [| apply incl_refl | exact (no_duplicate _ Hord) | exact Hkeys].
    pose proof (totally_ordered_permutation _ _ Hkeys Hord) as Hord2.
    destruct (py_sorted_spec _ Hord2 (map fst items2) (incl_refl _)
                (no_duplicate _ Hord2)) as (sorted & -> & _ & Hsorted).
    cbn [bind].
    rewrite (for_each_ext _
               (fun k => v <- dict_getitem items2 k ;;
                         t <- deep_transform w tr n v ;;
                         Ret (k, t))); [reflexivity |].
    intros k Hk. apply (Permutation_in _ (Permutation_sym Hsorted)) in Hk.
    apply in_map_iff in Hk as ([k' v2] & <- & Hin2). cbn [fst].
    destruct (Forall2_In_r _ _ _ _ Hall Hin2) as ([k1 v1] & Hin1 & Hk1 & Hsame).
    cbn [fst snd] in Hk1, Hsame. subst k1.
    apply (Permutation_in _ (Permutation_sym Hperm)) in Hin1.
    rewrite (dict_getitem_In items2 k' v2 Hord2 Hin2).
    rewrite (dict_getitem_In items1 k' v1 Hord Hin1).
    cbn [bind]. now rewrite (IH v1 v2 Hsame).
Qed.

Lemma combine_rendered w (sorted : list val) (entries : list (val * tval)) :
  map fst entries = sorted ->
  map (fun kv => (repr_val w (fst kv), repr_tval w (snd kv))) entries
  = combine (map (repr_val w) sorted)
      (map (fun kv => repr_tval w (snd kv)) entries).
Proof.
  intros <-. induction entries as [| [k t] rest IH]; [reflexivity |].
  cbn [map combine fst snd]. now rewrite IH.
Qed.

(** A dict is rendered over its keys in sorted order, each key with the
    text of the value stored under it. *)
Lemma repr_hashable_dict_sorted w hook n d items sorted :
  deref w d = VDict items ->
  totally_ordered (map fst items) ->
  py_sorted (map fst items) = Ret sorted ->
  Permutation (map fst items) sorted ->
  (forall k v, In (k, v) items -> exists text, repr_hashable n w v hook = Ret text) ->
  exists texts,
    Forall2 (fun k text => exists v, In (k, v) items /\
                                     repr_hashable n w v hook = Ret text)
      sorted texts /\
    repr_hashable (S n) w d hook
    = Ret (repr_dict (combine (map (repr_val w) sorted) texts)).
Proof.
  intros Hd Hord Hsort Hperm Hvalues.
  set (tr := transform w (hook_or_default hook)).
  destruct (for_each_Forall2
              (fun k (e : val * tval) =>
                 fst e = k /\
                 exists v, In (k, v) items /\ deep_transform w tr n v = Ret (snd e))
              (fun k => v <- dict_getitem items k ;;
                        t <- deep_transform w tr n v ;;
                        Ret (k, t))
              sorted) as (entries & Hentries & Hall).
  { intros k Hk. apply (Permutation_in _ (Permutation_sym Hperm)) in Hk.
    apply in_map_iff in Hk as ([k' v] & <- & Hin). cbn [fst].
    destruct (Hvalues k' v Hin) as [text Htext].
    unfold repr_hashable in Htext. apply bind_inv_ret in Htext as (t & Ht & _).
    exists (k', t). rewrite (dict_getitem_In items k' v Hord Hin). cbn [bind].
    fold tr in Ht. rewrite Ht. cbn [bind fst snd]. eauto. }
  exists (map (fun kv => repr_tval w (snd kv)) entries). split.
  - clear Hentries Hsort Hperm.
    induction Hall as [| k e ks es (_ & v & Hin & Ht) _ IH];
      [constructor |].
    cbn [map]. constructor; [| exact IH].
    exists v. split; [exact Hin |]. unfold repr_hashable. fold tr. now rewrite Ht.
  - unfold repr_hashable. fold tr. cbn [deep_transform]. rewrite Hd, Hsort.
    cbn [bind]. rewrite Hentries. cbn [bind repr_tval]. do 2 f_equal.
    apply combine_rendered.
    clear Hentries Hsort Hperm.
    induction Hall as [| k e ks es [Hk _] _ IH]; [reflexivity |].
    cbn [map]. now rewrite Hk, IH.
Qed.

(** C9 — Insertion order of dicts. Let [d1] and [d2] be dicts (written in
    place, or shared objects of the store) that are equal as mappings: the
    entries of [d1], taken in some other order, pair up with those of [d2],
    key by key the same key and the same value (values that are themselves
    dicts may again differ in the order of their entries, at any depth);
    and let the keys be mutually comparable. Then the serializer gives one
    text for both, whatever the hook and the depth allowed, and the same
    dependency token. It does so by sorting: [sorted(obj)] returns the keys
    in strictly increasing order, and once the values have texts the text of
    the dict is the display of the keys in that order, each with the text of
    the value stored under it. *)
Theorem dict_insertion_order_is_irrelevant (w : world) (fuel : nat)
    (hook : option HashHook) (d1 d2 : val)
    (items1 items2 items1' : list (val * val)) :
  deref w d1 = VDict items1 ->
  deref w d2 = VDict items2 ->
  Permutation items1 items1' ->
  Forall2 (fun p q => fst p = fst q /\ same_mapping w (snd p) (snd q))
    items1' items2 ->
  totally_ordered (map fst items1) ->
  repr_hashable fuel w d1 hook = repr_hashable fuel w d2 hook /\
  (forall c, hash_composite w fuel hook d1 c = hash_composite w fuel hook d2 c) /\
  exists sorted,
    py_sorted (map fst items1) = Ret sorted /\
    py_sorted (map fst items2) = Ret sorted /\
    StronglySorted lt sorted /\
    Permutation (map fst items1) sorted /\
    forall n,
      (forall k v, In (k, v) items1 ->
                   exists text, repr_hashable n w v hook = Ret text) ->
      exists texts,
        Forall2 (fun k text => exists v, In (k, v) items1 /\
                                         repr_hashable n w v hook = Ret text)
          sorted texts /\
        repr_hashable (S n) w d1 hook
        = Ret (repr_dict (combine (map (repr_val w) sorted) texts)) /\
        repr_hashable (S n) w d2 hook
        = Ret (repr_dict (combine (map (repr_val w) sorted) texts)).
Proof.
  intros Hd1 Hd2 Hperm Hall Hord.
  assert (E : forall n, repr_hashable n w d1 hook = repr_hashable n w d2 hook).
  { intros n. unfold repr_hashable.
    now rewrite (deep_transform_same_mapping w _ n d1 d2
                   (same_dict w d1 d2 items1 items2 items1' Hd1 Hd2 Hord Hperm Hall)). }
  split; [apply E | split].
  - intros c. unfold hash_composite. now rewrite E.
  - assert (Hkeys : Permutation (map fst items1) (map fst items2)).
    { rewrite <- (paired_keys w _ _ Hall). now apply Permutation_map. }
    destruct (py_sorted_spec _ Hord (map fst items1) (incl_refl _)
                (no_duplicate _ Hord)) as (sorted & Hsort & Hsorted & Hp).
    exists sorted. split; [exact Hsort | split; [| split; [exact Hsorted | split]]].
    + rewrite <- Hsort. symmetry.
      apply (py_sorted_permutation _ Hord);
        [apply incl_refl | exact (no_duplicate _ Hord) | exact Hkeys].
    + exact Hp.
    + intros n Hvalues.
      destruct (repr_hashable_dict_sorted w hook n d1 items1 sorted
                  Hd1 Hord Hsort Hp Hvalues) as (texts & Htexts & Htext).
      exists texts. split; [exact Htexts | split; [exact Htext |]].
      now rewrite <- E.
Qed.

Lemma ltb_compare (x y : string) :
  String.ltb x y = true <-> String.compare x y = Lt.
Proof. unfold String.ltb. destruct (String.compare x y); intuition discriminate. Qed.

Lemma NoDup_map_injective {A B : Type} (f : A -> B) (l : list A) :
  (forall x y, f x = f y -> x = y) -> List.NoDup l -> List.NoDup (map f l).
Proof.
  intros Hinj. induction 1 as [| x l Hnot Hnd IH]; simpl; constructor; auto.
  intros Hin. apply in_map_iff in Hin as (y & Hy & Hin).
  apply Hinj in Hy. now subst y.
Qed.

(** Texts are mutually comparable: a dict with [str] keys is always in the
    scope of the property. *)
Lemma str_keys_totally_ordered (keys : list string) :
  List.NoDup keys -> totally_ordered (map VStr keys).
Proof.
  intros Hnd.
  assert (Hstr : forall a, In a (map VStr keys) -> exists x, a = VStr x)
    by (intros a Ha; apply in_map_iff in Ha as (x & <- & _); eauto).
  split.
  - intros a b Ha Hb. destruct (Hstr a Ha) as [x ->], (Hstr b Hb) as [y ->].
    simpl. eauto.
  - intros a b Ha Hb Hne. destruct (Hstr a Ha) as [x ->], (Hstr b Hb) as [y ->].
    unfold lt. simpl.
    destruct (String.compare x y) eqn:E.
    + apply OrderedTypeEx.String_as_OT.cmp_eq in E. congruence.
    + left. f_equal. now apply ltb_compare.
    + right. f_equal. apply ltb_compare.
      rewrite OrderedTypeEx.String_as_OT.cmp_antisym.
      unfold OrderedTypeEx.String_as_OT.cmp. now rewrite E.
  - intros a Ha. destruct (Hstr a Ha) as [x ->]. unfold lt. simpl.
    intros [= H]. apply ltb_compare in H.
    assert (String.compare x x = Eq)
      by now apply OrderedTypeEx.String_as_OT.cmp_eq.
    congruence.
  - intros a b c Ha Hb Hc.
    destruct (Hstr a Ha) as [x ->], (Hstr b Hb) as [y ->], (Hstr c Hc) as [z ->].
    unfold lt. simpl. intros [= H1] [= H2]. f_equal.
    apply ltb_compare in H1, H2. apply ltb_compare.
    apply OrderedTypeEx.String_as_OT.cmp_lt in H1, H2.
    apply OrderedTypeEx.String_as_OT.cmp_lt.
    exact (OrderedTypeEx.String_as_OT.lt_trans _ _ _ H1 H2).
  - intros a b Ha Hb. destruct (Hstr a Ha) as [x ->], (Hstr b Hb) as [y ->].
    simpl. rewrite String.eqb_eq. split; congruence.
  - apply NoDup_map_injective; [congruence | exact Hnd].
Qed.

(** *** Numbers *)

Lemma number_compare_refl x : number_compare x x = Eq.
Proof.
  destruct x as [q | []]; try reflexivity.
  apply QArith_base.Qeq_alt, QArith_base.Qeq_refl.
Qed.

Lemma number_compare_antisym x y :
  number_compare y x = CompOpp (number_compare x y).
Proof.
  destruct x as [p | []], y as [q | []]; try reflexivity.
  symmetry. apply QArith_base.Qcompare_antisym.
Qed.

Lemma number_compare_trans x y z :
  number_compare x y = Lt -> number_compare y z = Lt -> number_compare x z = Lt.
Proof.
  destruct x as [p | []], y as [q | []], z as [r | []];
    try reflexivity; try discriminate.
  cbn [number_compare]. rewrite <- !QArith_base.Qlt_alt.
  apply QArith_base.Qlt_trans.
Qed.

Lemma number_compare_int x y :
  number_compare (Finite (QArith_base.inject_Z x)) (Finite (QArith_base.inject_Z y))
  = Z.compare x y.
Proof.
  cbn [number_compare]. unfold QArith_base.Qcompare, QArith_base.inject_Z.
  cbn [QArith_base.Qnum QArith_base.Qden]. now rewrite !Z.mul_1_r.
Qed.

Lemma py_lt_numbers a b x y :
  as_number a = Some x -> as_number b = Some y ->
  py_lt a b = Ret (number_ltb x y).
Proof.
  intros Ha Hb.
  destruct a; try discriminate; destruct b; try discriminate;
    cbn [py_lt]; rewrite Ha, Hb; reflexivity.
Qed.

Lemma py_eq_numbers a b x y :
  as_number a = Some x -> as_number b = Some y ->
  py_eq a b = number_eqb x y.
Proof.
  intros Ha Hb.
  destruct a; try discriminate; destruct b; try discriminate;
    cbn [py_eq]; rewrite Ha, Hb; reflexivity.
Qed.

Lemma py_lt_int x y : py_lt (VInt x) (VInt y) = Ret (x <? y)%Z.
Proof.
  rewrite (py_lt_numbers (VInt x) (VInt y) _ _ eq_refl eq_refl).
  unfold number_ltb. rewrite number_compare_int. reflexivity.
Qed.

Lemma py_eq_int x y : py_eq (VInt x) (VInt y) = (x =? y)%Z.
Proof.
  rewrite (py_eq_numbers (VInt x) (VInt y) _ _ eq_refl eq_refl).
  unfold number_eqb. rewrite number_compare_int. symmetry. apply Z.eqb_compare.
Qed.

(** Numbers are mutually comparable, [int], [bool] and [float] mixed: the
    keys of a dict that are numbers, no two of them equal, are in the scope
    of the property. *)
Lemma number_keys_totally_ordered (keys : list val) :
  Forall (fun k => is_Some (as_number k)) keys ->
  List.NoDup keys ->
  (forall a b, In a keys -> In b keys -> py_eq a b = true -> a = b) ->
  totally_ordered keys.
Proof.
  intros Hnum Hnd Hdistinct. rewrite List.Forall_forall in Hnum.
  split.
  - intros a b Ha Hb. destruct (Hnum a Ha) as [x Hx], (Hnum b Hb) as [y Hy].
    rewrite (py_lt_numbers _ _ _ _ Hx Hy). eauto.
  - intros a b Ha Hb Hne. destruct (Hnum a Ha) as [x Hx], (Hnum b Hb) as [y Hy].
    unfold lt. rewrite (py_lt_numbers _ _ _ _ Hx Hy), (py_lt_numbers _ _ _ _ Hy Hx).
    unfold number_ltb. rewrite (number_compare_antisym x y).
    destruct (number_compare x y) eqn:E; cbn [CompOpp]; auto.
    exfalso. apply Hne. apply Hdistinct; auto.
    rewrite (py_eq_numbers _ _ _ _ Hx Hy). unfold number_eqb. now rewrite E.
  - intros a Ha. destruct (Hnum a Ha) as [x Hx].
    unfold lt. rewrite (py_lt_numbers _ _ _ _ Hx Hx).
    unfold number_ltb. now rewrite number_compare_refl.
  - intros a b c Ha Hb Hc.
    destruct (Hnum a Ha) as [x Hx], (Hnum b Hb) as [y Hy], (Hnum c Hc) as [z Hz].
    unfold lt.
    rewrite (py_lt_numbers _ _ _ _ Hx Hy), (py_lt_numbers _ _ _ _ Hy Hz),
            (py_lt_numbers _ _ _ _ Hx Hz).
    unfold number_ltb. intros H1 H2.
    destruct (number_compare x y) eqn:E1; try discriminate.
    destruct (number_compare y z) eqn:E2; try discriminate.
    now rewrite (number_compare_trans _ _ _ E1 E2).
  - intros a b Ha Hb. split; [now apply Hdistinct |].
    intros <-. destruct (Hnum a Ha) as [x Hx].
    rewrite (py_eq_numbers _ _ _ _ Hx Hx). unfold number_eqb.
    now rewrite number_compare_refl.
  - exact Hnd.
Qed.

(** So are integers. *)
Lemma int_keys_totally_ordered (keys : list Z) :
  List.NoDup keys -> totally_ordered (map VInt keys).
Proof.
  intros Hnd. apply number_keys_totally_ordered.
  - apply List.Forall_forall. intros a Ha.
    apply in_map_iff in Ha as (x & <- & _). cbn [as_number]. eauto.
  - apply NoDup_map_injective; [congruence | exact Hnd].
  - intros a b Ha Hb.
    apply in_map_iff in Ha as (x & <- & _). apply in_map_iff in Hb as (y & <- & _).
    rewrite py_eq_int, Z.eqb_eq. congruence.
Qed.

Lemma dict_insertion_order_is_irrelevant_witness :
  repr_hashable 4 Examples.w Cases.d_outer None
  = repr_hashable 4 Examples.w Cases.d_outer_again None /\
  repr_hashable 4 Examples.w Cases.d_outer_again None
  = Ret "{1: {'a': 1, 'b': 2}, 1.5: 'x'}".
Proof.
  split; [| vm_compute; reflexivity].
  refine (proj1 (dict_insertion_order_is_irrelevant Examples.w 4 None
                   Cases.d_outer Cases.d_outer_again
                   [(VFloat Cases.one_and_a_half, VStr "x");
                    (VInt 1, VRef Examples.d_ab)]
                   [(VInt 1, VRef Examples.d_ba);
                    (VFloat Cases.one_and_a_half, VStr "x")]
                   [(VInt 1, VRef Examples.d_ab);
                    (VFloat Cases.one_and_a_half, VStr "x")] _ _ _ _ _)).
  - reflexivity.
  - reflexivity.
  - apply perm_swap.
  - constructor; [split; [reflexivity |] |].
    + apply (same_dict Examples.w (VRef Examples.d_ab) (VRef Examples.d_ba)
               [(VStr "a", VInt 1); (VStr "b", VInt 2)]
               [(VStr "b", VInt 2); (VStr "a", VInt 1)]
               [(VStr "b", VInt 2); (VStr "a", VInt 1)]);
        [reflexivity | reflexivity | | apply perm_swap |].
      * apply (str_keys_totally_ordered ["a"; "b"]).
        repeat constructor; simpl; intuition discriminate.
      * repeat constructor.
    + repeat constructor.
  - apply number_keys_totally_ordered.
    + repeat constructor; cbn [as_number]; eauto.
    + repeat constructor; simpl; intuition discriminate.
    + intros a b [<- | [<- | []]] [<- | [<- | []]] H;
        try reflexivity; vm_compute in H; discriminate.
Defined.

Example dict_orders_one_text :
  repr_hashable 3 Examples.w (VRef Examples.d_ba) None = Ret "{'a': 1, 'b': 2}".
Proof. reflexivity. Qed.

(** ** The text of a record determines the record *)

Lemma append_cons c s t : String c s +:+ t = String c (s +:+ t).
Proof. reflexivity. Qed.

Lemma append_assoc s t u : (s +:+ t) +:+ u = s +:+ (t +:+ u).
Proof.
  induction s as [| c s IH]; [reflexivity |].
  rewrite !append_cons. now rewrite IH.
Qed.

Lemma append_empty t : EmptyString +:+ t = t.
Proof. reflexivity. Qed.

Lemma append_inv_head s t u : s +:+ t = s +:+ u -> t = u.
Proof.
  induction s as [| c s IH]; [auto |].
  rewrite !append_cons. intros [= H]. auto.
Qed.

Lemma append_empty_r s : s +:+ EmptyString = s.
Proof.
  induction s as [| c s IH]; [reflexivity |].
  now rewrite append_cons, IH.
Qed.

Lemma unescape_escape_quote c rest :
  unescape Text.quote (escape Text.quote c +:+ rest) = Some (c, rest).
Proof. destruct c as [[] [] [] [] [] [] [] []]; reflexivity. Qed.

Lemma unescape_escape_dquote c rest :
  unescape Text.dquote (escape Text.dquote c +:+ rest) = Some (c, rest).
Proof. destruct c as [[] [] [] [] [] [] [] []]; reflexivity. Qed.

Lemma escape_all_prefix_free q :
  q = Text.quote \/ q = Text.dquote ->
  forall a b r1 r2,
    escape_all q a +:+ String q r1 = escape_all q b +:+ String q r2 ->
    a = b /\ r1 = r2.
Proof.
  intros Hq.
  assert (Hread : forall c rest, unescape q (escape q c +:+ rest) = Some (c, rest))
    by (destruct Hq as [-> | ->];
        [apply unescape_escape_quote | apply unescape_escape_dquote]).
  assert (Hend : forall rest, unescape q (String q rest) = None)
    by (intros rest; cbn [unescape]; now rewrite Ascii.eqb_refl).
  induction a as [| c a IH]; intros [| c' b] r1 r2 H; cbn [escape_all] in H;
    rewrite ?append_assoc, ?append_empty in H.
  - now injection H as ->.
  - apply (f_equal (unescape q)) in H. rewrite Hread, Hend in H. discriminate.
  - apply (f_equal (unescape q)) in H. rewrite Hread, Hend in H. discriminate.
  - apply (f_equal (unescape q)) in H. rewrite !Hread in H.
    injection H as -> H. destruct (IH _ _ _ H) as [-> ->]. now split.
Qed.

Lemma repr_str_shape s :
  exists q, (q = Text.quote \/ q = Text.dquote) /\
            forall rest, repr_str s +:+ rest
                         = String q (escape_all q s +:+ String q rest).
Proof.
  unfold repr_str.
  destruct (contains Text.quote s && negb (contains Text.dquote s));
    [exists Text.dquote | exists Text.quote];
    (split; [auto |]); intros rest; unfold Text.chr;
    rewrite !append_assoc; reflexivity.
Qed.

(** No [repr] of a text is the start of another: a text can be read back
    from the front of what follows it. *)
Lemma repr_str_prefix_free a b r1 r2 :
  repr_str a +:+ r1 = repr_str b +:+ r2 -> a = b /\ r1 = r2.
Proof.
  destruct (repr_str_shape a) as (qa & Hqa & ->).
  destruct (repr_str_shape b) as (qb & Hqb & ->).
  intros [= -> H]. now apply (escape_all_prefix_free qb Hqb).
Qed.

Lemma join_render_more k v rest :
  Text.join ", " (map (fun kv => fst kv +:+ ": " +:+ snd kv)
                    (map (fun kv => (repr_str (fst kv), repr_str (snd kv)))
                       ((k, v) :: rest)))
  = repr_str k +:+ ": " +:+ repr_str v +:+ render_more rest.
Proof.
  revert k v. induction rest as [| [k' v'] rest IH]; intros k v.
  - cbn [map Text.join fst snd render_more]. now rewrite append_empty_r.
  - change (map _ (map _ ((k, v) :: (k', v') :: rest)))
      with ((repr_str k +:+ ": " +:+ repr_str v)
              :: map (fun kv => fst kv +:+ ": " +:+ snd kv)
                   (map (fun kv => (repr_str (fst kv), repr_str (snd kv)))
                      ((k', v') :: rest))).
    cbn [Text.join]. rewrite IH. cbn [render_more].
    now rewrite !append_assoc.
Qed.

Lemma repr_dict_render entries :
  repr_dict (map (fun kv => (repr_str (fst kv), repr_str (snd kv))) entries)
  = "{" +:+ render entries +:+ "}".
Proof.
  unfold repr_dict. destruct entries as [| [k v] rest]; [reflexivity |].
  now rewrite join_render_more.
Qed.

Lemma repr_str_not_brace s rest rest' :
  repr_str s +:+ rest <> String (ascii_of_nat 125) rest'.
Proof.
  destruct (repr_str_shape s) as (q & Hq & ->).
  destruct Hq as [-> | ->]; discriminate.
Qed.

Lemma render_more_injective : forall es1 es2 t1 t2,
  render_more es1 +:+ String (ascii_of_nat 125) t1
  = render_more es2 +:+ String (ascii_of_nat 125) t2 ->
  es1 = es2 /\ t1 = t2.
Proof.
  induction es1 as [| [k1 v1] es1 IH]; intros [| [k2 v2] es2] t1 t2 H.
  - now injection H as ->.
  - discriminate.
  - discriminate.
  - cbn [render_more] in H. rewrite !append_assoc in H.
    apply append_inv_head in H.
    apply repr_str_prefix_free in H as [-> H]. apply append_inv_head in H.
    apply repr_str_prefix_free in H as [-> H].
    destruct (IH _ _ _ H) as [-> ->]. now split.
Qed.

Lemma render_injective es1 es2 t1 t2 :
  render es1 +:+ String (ascii_of_nat 125) t1
  = render es2 +:+ String (ascii_of_nat 125) t2 ->
  es1 = es2 /\ t1 = t2.
Proof.
  destruct es1 as [| [k1 v1] es1], es2 as [| [k2 v2] es2]; cbn [render];
    rewrite ?append_assoc; intros H.
  - now injection H as ->.
  - symmetry in H. now apply repr_str_not_brace in H.
  - now apply repr_str_not_brace in H.
  - apply repr_str_prefix_free in H as [-> H]. apply append_inv_head in H.
    apply repr_str_prefix_free in H as [-> H].
    destruct (render_more_injective _ _ _ _ H) as [-> ->]. now split.
Qed.

Lemma spec_text_shape ast_code hashed_globals :
  spec_text ast_code hashed_globals
  = "{'ast_code': "
      +:+ repr_str ast_code
      +:+ ", 'globals': {" +:+ render (entries hashed_globals) +:+ "}}".
Proof.
  unfold spec_text.
  replace (map (fun k => (repr_str k, repr_str (default "" (dict_get hashed_globals k))))
             (str_sorted (map fst hashed_globals)))
    with (map (fun kv => (repr_str (fst kv), repr_str (snd kv)))
            (entries hashed_globals))
    by (unfold entries; now rewrite map_map).
  rewrite repr_dict_render. unfold repr_dict.
  cbn [map Text.join fst snd].
  change (repr_str "ast_code") with "'ast_code'".
  change (repr_str "globals") with "'globals'".
  rewrite !append_assoc. reflexivity.
Qed.

(** Two records with one text have the same code shape and the same
    dependency entries. *)
Lemma spec_text_injective a1 m1 a2 m2 :
  spec_text a1 m1 = spec_text a2 m2 -> a1 = a2 /\ entries m1 = entries m2.
Proof.
  rewrite !spec_text_shape. intros H.
  apply append_inv_head in H.
  apply repr_str_prefix_free in H as [-> H].
  apply append_inv_head in H.
  change "}}" with (String (ascii_of_nat 125) "}") in H.
  now apply render_injective in H as [-> _].
Qed.

Lemma entries_dict_get m1 m2 name t1 t2 :
  entries m1 = entries m2 ->
  dict_get m1 name = Some t1 -> dict_get m2 name = Some t2 -> t1 = t2.
Proof.
  intros E H1 H2.
  assert (Hin : In (name, t1) (entries m1)).
  { unfold entries. apply in_map_iff. exists name. rewrite H1. split; [reflexivity |].
    apply str_sorted_In. eapply dict_get_Some_key; eauto. }
  rewrite E in Hin. unfold entries in Hin.
  apply in_map_iff in Hin as (k & [= -> Ht] & _).
  rewrite H2 in Ht. simpl in Ht. congruence.
Qed.

(** ** Captured containers and the cache *)

Lemma captured_token w hf fuel func hook fn name v c m c' :
  captured fn name v ->
  hash_items w hf fuel func hook (items_of fn) [] c = (Ret m, c') ->
  exists c1 token c2,
    hash_global w hf fuel func hook v c1 = (Ret token, c2) /\
    dict_get m name = Some token.
Proof.
  intros Hcap H. unfold items_of in H.
  destruct Hcap as [[Hcell Hnotg] | Hglobal].
  - destruct (dict_split _ _ _ (getclosurevars_nonlocals_NoDup fn) Hcell)
      as (npre & npost & En & Hnot).
    rewrite En, <- app_assoc in H. cbn [app] in H.
    apply (hash_items_token _ _ _ _ _ _ _ _ _ _ _ _ _ H).
    rewrite map_app. intros Hin. apply in_app_or in Hin as [Hin | Hin];
      [contradiction |].
    now apply dict_get_None_key in Hnotg.
  - destruct (dict_split _ _ _ (proj1 (getclosurevars_globals fn)) Hglobal)
      as (gpre & gpost & Eg & Hnot).
    rewrite Eg, app_assoc in H.
    exact (hash_items_token _ _ _ _ _ _ _ _ _ _ _ _ _ H Hnot).
Qed.

(** The token of a shared container is the digest of its serialized text. *)
Lemma hash_global_container w hf fuel func hook d c text :
  is_container (heap w !! d) ->
  repr_hashable fuel w (VRef d) hook = Ret text ->
  hash_global w hf fuel func hook (VRef d) c
  = (Ret ("composite:" +:+ hash_text text), c).
Proof.
  intros Hd Htext. unfold hash_global.
  destruct (heap w !! d) as [[| | | | |] |]; try destruct Hd;
    unfold hash_composite, lift, mbind, mret; now rewrite Htext.
Qed.

(** A call that computes returns the digest of the record's text and stores
    it. *)
Lemma hash_function_computed w n func hook (c : cache) ast_code m c2 :
  3 <= n ->
  c !! func = None ->
  ast_code_of w func = Ret ast_code ->
  hashed_globals_of w (fun g => hash_function w n g None) n func hook c
  = (Ret m, c2) ->
  c2 !! func = None ->
  hash_function w (S n) func hook c
  = (Ret (hash_text (spec_text ast_code m)),
     <[func := hash_text (spec_text ast_code m)]> c2).
Proof.
  intros Hn Hc Hast Hmap Hc2. rewrite hash_function_miss by assumption.
  unfold compute_identity. rewrite Hast. unfold lift at 1, mbind at 1.
  rewrite (mbind_ret _ _ _ _ _ Hmap). unfold lift at 1, mbind at 1.
  rewrite repr_hashable_spec_record by assumption.
  unfold setdefault. now rewrite Hc2.
Qed.

(** C4 (as amended) — Captured-mutable-value sensitivity. An identity, once
    computed, is what every later call for the same function object returns,
    whatever happened to the values the function captured: the cache does
    affect the outcome. Two identity computations that both run (neither is
    answered from the cache — the second is for a function object not yet
    cached, such as the function defined again in the tests) return
    different identities when the shared container they capture under
    [name] has changed so that its serialized text differs, SHA-1 colliding
    neither on the two texts nor on the two records. *)
Theorem captured_container_change_shows_when_computed
    (w1 w2 : world) (n1 n2 : nat) (f1 f2 : loc) (hook1 hook2 : option HashHook)
    (c1 c2 : cache) (fn1 fn2 : function) (a1 a2 : string)
    (m1 m2 : list (string * string)) (c1' c2' : cache)
    (name : string) (d : loc) (text1 text2 : string) :
  3 <= n1 -> 3 <= n2 ->
  c1 !! f1 = None -> c2 !! f2 = None ->
  heap w1 !! f1 = Some (HFunction fn1) -> heap w2 !! f2 = Some (HFunction fn2) ->
  ast_code_of w1 f1 = Ret a1 -> ast_code_of w2 f2 = Ret a2 ->
  hashed_globals_of w1 (fun g => hash_function w1 n1 g None) n1 f1 hook1 c1
  = (Ret m1, c1') ->
  hashed_globals_of w2 (fun g => hash_function w2 n2 g None) n2 f2 hook2 c2
  = (Ret m2, c2') ->
  c1' !! f1 = None -> c2' !! f2 = None ->
  captured fn1 name (VRef d) -> captured fn2 name (VRef d) ->
  is_container (heap w1 !! d) -> is_container (heap w2 !! d) ->
  repr_hashable n1 w1 (VRef d) hook1 = Ret text1 ->
  repr_hashable n2 w2 (VRef d) hook2 = Ret text2 ->
  hash_text text1 <> hash_text text2 ->
  (hash_text (spec_text a1 m1) = hash_text (spec_text a2 m2) ->
   spec_text a1 m1 = spec_text a2 m2) ->
  exists h1 h2 c1'' c2'',
    hash_function w1 (S n1) f1 hook1 c1 = (Ret h1, c1'') /\
    hash_function w2 (S n2) f2 hook2 c2 = (Ret h2, c2'') /\
    h1 <> h2 /\
    (forall w' fuel' hook', hash_function w' fuel' f1 hook' c1'' = (Ret h1, c1'')).
Proof.
  intros Hn1 Hn2 Hc1 Hc2 Hf1 Hf2 Ha1 Ha2 Hm1 Hm2 Hc1' Hc2' Hcap1 Hcap2 Hd1 Hd2
         Ht1 Ht2 Hdigest Hrecords.
  pose proof (hash_function_computed _ _ _ _ _ _ _ _ Hn1 Hc1 Ha1 Hm1 Hc1') as E1.
  pose proof (hash_function_computed _ _ _ _ _ _ _ _ Hn2 Hc2 Ha2 Hm2 Hc2') as E2.
  eexists _, _, _, _. split; [exact E1 | split; [exact E2 | split]].
  - intros Heq. apply Hrecords in Heq.
    apply spec_text_injective in Heq as [_ Hentries].
    apply (hashed_globals_of_inv _ _ _ _ _ fn1) in Hm1; [| exact Hf1].
    apply (hashed_globals_of_inv _ _ _ _ _ fn2) in Hm2; [| exact Hf2].
    destruct (captured_token _ _ _ _ _ _ _ _ _ _ _ Hcap1 Hm1)
      as (k1 & token1 & k1' & Htok1 & Hget1).
    destruct (captured_token _ _ _ _ _ _ _ _ _ _ _ Hcap2 Hm2)
      as (k2 & token2 & k2' & Htok2 & Hget2).
    rewrite (hash_global_container _ _ _ _ _ _ _ _ Hd1 Ht1) in Htok1.
    rewrite (hash_global_container _ _ _ _ _ _ _ _ Hd2 Ht2) in Htok2.
    injection Htok1 as <- _. injection Htok2 as <- _.
    pose proof (entries_dict_get _ _ _ _ _ Hentries Hget1 Hget2) as Htokens.
    apply append_inv_head in Htokens. contradiction.
  - intros w' fuel' hook'. apply hash_function_hit.
    exact (hash_function_cached _ _ _ _ _ _ _ E1).
Qed.

Lemma captured_container_change_shows_when_computed_witness :
  exists h1 h2 c1'' c2'',
    hash_function Examples.w 4 Examples.f_dct None ∅ = (Ret h1, c1'') /\
    hash_function Examples.w_after 4 Examples.f_dct_again None
      {[ Examples.f_dct := "c12c3d4c248a0683b7b74dfb69bf683f37fe82a1" ]}
    = (Ret h2, c2'') /\
    h1 <> h2 /\
    (forall w' fuel' hook',
       hash_function w' fuel' Examples.f_dct hook' c1'' = (Ret h1, c1'')).
Proof.
  eapply captured_container_change_shows_when_computed
    with (name := "dct") (d := Examples.dct)
         (text1 := "{'a': 1}") (text2 := "{'a': 2}").
  - lia.
  - lia.
  - reflexivity.
  - reflexivity.
  - reflexivity.
  - reflexivity.
  - vm_compute. reflexivity.
  - vm_compute. reflexivity.
  - vm_compute. reflexivity.
  - vm_compute. reflexivity.
  - reflexivity.
  - reflexivity.
  - left. split; reflexivity.
  - left. split; reflexivity.
  - exact I.
  - exact I.
  - reflexivity.
  - reflexivity.
  - vm_compute. discriminate.
  - intros H. vm_compute in H. discriminate.
Defined.

(** C4, as stated, fails on the cache: [dct['a'] = 2] between two calls for
    the same function object [f] changes nothing in what the second call
    returns — though the computation, run on an empty cache, would give
    another identity. *)
Lemma cached_identity_ignores_container_change :
  heap Examples.w !! Examples.dct = Some (HDict [(VStr "a", VInt 1)]) /\
  heap Examples.w_after !! Examples.dct = Some (HDict [(VStr "a", VInt 2)]) /\
  hash_function Examples.w 4 Examples.f_dct None ∅
  = (Ret "c12c3d4c248a0683b7b74dfb69bf683f37fe82a1",
     {[ Examples.f_dct := "c12c3d4c248a0683b7b74dfb69bf683f37fe82a1" ]}) /\
  hash_function Examples.w_after 4 Examples.f_dct None
    {[ Examples.f_dct := "c12c3d4c248a0683b7b74dfb69bf683f37fe82a1" ]}
  = (Ret "c12c3d4c248a0683b7b74dfb69bf683f37fe82a1",
     {[ Examples.f_dct := "c12c3d4c248a0683b7b74dfb69bf683f37fe82a1" ]}) /\
  (hash_function Examples.w_after 4 Examples.f_dct None ∅).1
  = Ret "4f93555fbea97d89eb219264d8e4e4035d69c077".
Proof.
  split; [reflexivity | split; [reflexivity | split; [| split]]].
  - vm_compute. reflexivity.
  - reflexivity.
  - vm_compute. reflexivity.
Qed.

(** ** The identity without the cache *)

Lemma coherent_empty w : coherent w ∅.
Proof. intros g h H. rewrite lookup_empty in H. discriminate. Qed.

Lemma uncached_mono w n : forall m func hook hook' h,
  n <= m -> extends hook hook' ->
  uncached w n func hook = Ret h -> uncached w m func hook' = Ret h.
Proof.
  induction n as [| n IH]; intros m func hook hook' h Hle Hext H; [discriminate |].
  destruct m as [| m]; [lia |]. cbn [uncached] in *.
  destruct (compute_identity w (fun g => lift (uncached w n g None)) n func hook ∅)
    as [r c'] eqn:E.
  simpl in H. subst r.
  erewrite (refines_compute_identity w _ (fun g => lift (uncached w m g None))
              n m func hook hook'); [reflexivity | | lia | exact Hext | exact E].
  intros g. apply refines_lift. intros h'. apply IH; [lia | apply extends_refl].
Qed.

Section uncached_loop.

Context (w : world) (n : nat) (func : loc) (hook : option HashHook).
Hypothesis IH : forall g (c : cache) h c',
  coherent w c -> hash_function w n g None c = (Ret h, c') ->
  (exists m, uncached w m g None = Ret h) /\ coherent w c'.

(** One dependency, hashed with the cache and without it. *)
Lemma uncached_hash_global obj c token c' :
  coherent w c ->
  hash_global w (fun g => hash_function w n g None) n func hook obj c
  = (Ret token, c') ->
  coherent w c' /\
  exists m, forall m' c0, m <= m' ->
    hash_global w (fun g => lift (uncached w m' g None)) m' func hook obj c0
    = (Ret token, c0).
Proof.
  intros Hcoh H.
  assert (Hcomposite :
    hash_composite w n hook obj c = (Ret token, c') ->
    coherent w c' /\
    exists m, forall m' c0, m <= m' ->
      hash_composite w m' hook obj c0 = (Ret token, c0)).
  { unfold hash_composite. intros Hc.
    apply mbind_inv_ret in Hc as (text & c1 & Htext & Hc).
    unfold lift in Htext. injection Htext as Htext <-.
    unfold mret in Hc. injection Hc as <- <-.
    split; [exact Hcoh |]. exists n. intros m' c0 Hle.
    unfold lift, mbind, mret.
    now rewrite (repr_hashable_mono _ _ _ _ _ _ _ (extends_refl hook) Hle Htext). }
  assert (Hnamed : forall l isf mdl fullname,
    hash_named w (fun g => hash_function w n g None) func l isf mdl fullname c
    = (Ret token, c') ->
    coherent w c' /\
    exists m, forall m' (c0 : cache), m <= m' ->
      hash_named w (fun g => lift (uncached w m' g None)) func l isf mdl fullname c0
      = (Ret token, c0)).
  { intros l isf mdl fullname. unfold hash_named. intros Hn.
    apply mbind_inv_ret in Hn as (stdlib & c1 & Hstd & Hn).
    unfold lift in Hstd. injection Hstd as Hstd <-. rewrite Hstd.
    destruct stdlib.
    { unfold mret in Hn. injection Hn as <- <-.
      split; [exact Hcoh |]. exists 0. intros m' c0 _. reflexivity. }
    apply mbind_inv_ret in Hn as (version & c1 & Hver & Hn).
    unfold lift in Hver. injection Hver as Hver <-. rewrite Hver.
    destruct version as [version |].
    { unfold mret in Hn. injection Hn as <- <-.
      split; [exact Hcoh |]. exists 0. intros m' c0 _. reflexivity. }
    destruct isf; [| discriminate].
    apply mbind_inv_ret in Hn as (hashid & c1 & Hid & Hn).
    unfold mret in Hn. injection Hn as <- <-.
    destruct (Nat.eqb l func) eqn:El.
    { unfold mret in Hid. injection Hid as <- <-.
      split; [exact Hcoh |]. exists 0. intros m' c0 _.
      reflexivity. }
    destruct (IH _ _ _ _ Hcoh Hid) as [[m Hm] Hcoh'].
    split; [exact Hcoh' |]. exists m. intros m' c0 Hle.
    unfold lift, mbind, mret.
    now rewrite (uncached_mono _ _ _ _ _ _ _ Hle (extends_refl None) Hm). }
  unfold hash_global in H |- *.
  destruct obj; try (now apply Hcomposite).
  destruct (heap w !! l) as [[| | g | k | mdl |] |]; try (now apply Hcomposite).
  - destruct (sys_modules w !! f_module g); [now apply Hnamed | discriminate].
  - destruct (sys_modules w !! c_module k); [now apply Hnamed | discriminate].
  - now apply Hnamed.
Qed.

(** The loop, hashed with the cache and without it. *)
Lemma uncached_hash_items items : forall acc c hashed_globals c',
  coherent w c ->
  hash_items w (fun g => hash_function w n g None) n func hook items acc c
  = (Ret hashed_globals, c') ->
  coherent w c' /\
  exists m, forall m' c0, m <= m' ->
    hash_items w (fun g => lift (uncached w m' g None)) m' func hook items acc c0
    = (Ret hashed_globals, c0).
Proof.
  induction items as [| [name obj] rest IHitems];
    intros acc c hashed_globals c' Hcoh H.
  - cbn [hash_items] in H. unfold mret in H. injection H as <- <-.
    split; [exact Hcoh |]. exists 0. intros m' c0 _. reflexivity.
  - cbn [hash_items] in H.
    apply mbind_inv_ret in H as (token & c1 & Htry & H).
    apply try_hash_global_inv_ret in Htry.
    destruct (uncached_hash_global _ _ _ _ Hcoh Htry) as [Hcoh1 [m1 Hm1]].
    destruct (IHitems _ _ _ _ Hcoh1 H) as [Hcoh' [m2 Hm2]].
    split; [exact Hcoh' |]. exists (Nat.max m1 m2). intros m' c0 Hle.
    cbn [hash_items].
    rewrite (mbind_ret _ _ _ _ _
               (try_hash_global_ret _ _ _ _ _ _ _ _ _ _
                  (Hm1 m' c0 ltac:(lia)))).
    apply Hm2. lia.
Qed.

End uncached_loop.

(** On a coherent cache, what [hash_function] returns is the identity the
    function has without the cache, and the cache stays coherent. *)
Lemma hash_function_uncached w n : forall func hook (c : cache) h c',
  coherent w c ->
  hash_function w n func hook c = (Ret h, c') ->
  (exists m, uncached w m func hook = Ret h) /\ (hook = None -> coherent w c').
Proof.
  induction n as [| n IH]; intros func hook c h c' Hcoh H.
  - simpl in H. destruct (c !! func) as [h0 |] eqn:Hc; [| discriminate].
    injection H as <- <-. split; [| intros _; exact Hcoh].
    destruct (Hcoh _ _ Hc) as [m Hm]. exists m.
    exact (uncached_mono _ _ _ _ _ _ _ (Nat.le_refl m) (extends_None hook) Hm).
  - destruct (c !! func) as [h0 |] eqn:Hc.
    + rewrite (hash_function_hit _ _ _ _ _ _ Hc) in H. injection H as <- <-.
      split; [| intros _; exact Hcoh].
      destruct (Hcoh _ _ Hc) as [m Hm]. exists m.
      exact (uncached_mono _ _ _ _ _ _ _ (Nat.le_refl m) (extends_None hook) Hm).
    + rewrite hash_function_miss in H by assumption.
      assert (IH' : forall g (c : cache) h c',
                coherent w c -> hash_function w n g None c = (Ret h, c') ->
                (exists m, uncached w m g None = Ret h) /\ coherent w c').
      { intros g c0 h0 c0' Hc0 H0. destruct (IH _ _ _ _ _ Hc0 H0) as [? ?]. auto. }
      unfold compute_identity in H.
      apply mbind_inv_ret in H as (ast_code & c1 & Hast & H).
      unfold lift in Hast. injection Hast as Hast <-.
      apply mbind_inv_ret in H as (hashed_globals & c2 & Hmap & H).
      apply mbind_inv_ret in H as (spec & c3 & Hspec & H).
      unfold lift in Hspec. injection Hspec as Hspec <-.
      assert (Hfn : exists fn, heap w !! func = Some (HFunction fn)).
      { unfold ast_code_of in Hast.
        destruct (heap w !! func) as [[| | fn | | |] |]; try discriminate. eauto. }
      destruct Hfn as [fn Hfn].
      assert (Hub : unbound (getclosurevars fn) = ∅).
      { unfold hashed_globals_of in Hmap. rewrite Hfn in Hmap.
        apply mbind_inv_ret in Hmap as ([] & c4 & Hassert & _).
        unfold lift, assert in Hassert.
        destruct (bool_decide (unbound (getclosurevars fn) = ∅)) eqn:E;
          [now apply bool_decide_eq_true in E | discriminate]. }
      apply (hashed_globals_of_inv _ _ _ _ _ fn) in Hmap; [| exact Hfn].
      destruct (uncached_hash_items w n func hook IH' _ _ _ _ _ Hcoh Hmap)
        as [Hcoh2 [m Hm]].
      assert (Hfuel : n <= n + 3) by lia.
      apply (repr_hashable_mono _ _ _ _ _ _ _ (extends_refl None) Hfuel) in Hspec.
      rewrite repr_hashable_spec_record in Hspec by lia.
      injection Hspec as <-.
      assert (Hun : uncached w (S (Nat.max m 3)) func hook
                    = Ret (hash_text (spec_text ast_code hashed_globals))).
      { cbn [uncached].
        rewrite (compute_identity_bound _ _ _ _ _ fn ast_code) by assumption.
        rewrite (mbind_ret _ _ _ _ _ (Hm (Nat.max m 3) ∅ ltac:(lia))).
        unfold lift at 1, mbind at 1.
        rewrite repr_hashable_spec_record by lia.
        unfold setdefault. now rewrite lookup_empty. }
      unfold setdefault in H. destruct (c2 !! func) as [h' |] eqn:Hc2.
      * injection H as <- <-. split; [| intros _; exact Hcoh2].
        destruct (Hcoh2 _ _ Hc2) as [k Hk]. exists k.
        exact (uncached_mono _ _ _ _ _ _ _ (Nat.le_refl k) (extends_None hook) Hk).
      * injection H as <- <-. split; [eauto |].
        intros -> g hg Hg. destruct (Nat.eq_dec func g) as [<- | Hne].
        -- rewrite lookup_insert_eq in Hg. injection Hg as <-. eauto.
        -- rewrite lookup_insert_ne in Hg by exact Hne. now apply Hcoh2.
Qed.

Lemma uncached_deterministic w func hook n1 n2 h1 h2 :
  uncached w n1 func hook = Ret h1 -> uncached w n2 func hook = Ret h2 -> h1 = h2.
Proof.
  intros H1 H2.
  apply (uncached_mono _ _ (Nat.max n1 n2) _ _ hook) in H1;
    [| lia | apply extends_refl].
  apply (uncached_mono _ _ (Nat.max n1 n2) _ _ hook) in H2;
    [| lia | apply extends_refl].
  congruence.
Qed.

(** ** Determinism *)

(** C1 — Determinism. When a call [hash_function(func, hook)] returns an
    identity [h]: every later call for [func] returns [h] again, whatever
    became of the interpreter state, the hook or the recursion budget in
    between (the cache answers); any other run of the same call from the same
    cache, with whatever recursion budget, returns [h] and leaves the same
    cache; and the cache is not what makes it so: started from a cache whose
    entries are the identities the functions have without it (the empty cache
    for one), the call returns the very identity that the computation with
    the cache removed returns, and that one returns no other. *)
Theorem hash_function_deterministic (w : world) (func : loc)
    (hook : option HashHook) (fuel : nat) (c : cache) (h : string) (c' : cache) :
  hash_function w fuel func hook c = (Ret h, c') ->
  (forall w' fuel' hook', hash_function w' fuel' func hook' c' = (Ret h, c')) /\
  (forall fuel' h' c'',
     hash_function w fuel' func hook c = (Ret h', c'') -> h' = h /\ c'' = c') /\
  (coherent w c ->
   (exists fuel', uncached w fuel' func hook = Ret h) /\
   (forall fuel' h', uncached w fuel' func hook = Ret h' -> h' = h)).
Proof.
  intros H. split; [| split].
  - intros w' fuel' hook'. apply hash_function_hit.
    exact (hash_function_cached _ _ _ _ _ _ _ H).
  - intros fuel' h' c'' H'.
    pose proof (hash_function_mono w fuel (Nat.max fuel fuel') func hook hook
                  (Nat.le_max_l _ _) (extends_refl _) _ _ _ H) as E.
    pose proof (hash_function_mono w fuel' (Nat.max fuel fuel') func hook hook
                  (Nat.le_max_r _ _) (extends_refl _) _ _ _ H') as E'.
    rewrite E in E'. now injection E' as <- <-.
  - intros Hcoh.
    destruct (hash_function_uncached _ _ _ _ _ _ _ Hcoh H) as [[m Hm] _].
    split; [now exists m |].
    intros fuel' h' H'. exact (uncached_deterministic _ _ _ _ _ _ _ H' Hm).
Qed.

Lemma hash_function_deterministic_witness :
  exists h c',
    hash_function Examples.w 6 Examples.f_dct None ∅ = (Ret h, c') /\
    hash_function Examples.w_after 9 Examples.f_dct (Some Examples.empty_hook) c'
    = (Ret h, c') /\
    exists fuel', uncached Examples.w fuel' Examples.f_dct None = Ret h.
Proof.
  destruct (hash_function Examples.w 6 Examples.f_dct None ∅) as [r c'] eqn:E.
  assert (Hr : r = Ret "c12c3d4c248a0683b7b74dfb69bf683f37fe82a1")
    by (apply (f_equal fst) in E; vm_compute in E; now subst r).
  subst r. eexists _, c'. split; [reflexivity |].
  destruct (hash_function_deterministic _ _ _ _ _ _ _ E) as (Hlater & _ & Hun).
  split; [apply Hlater | apply (Hun (coherent_empty _))].
Defined.

(** * Further properties of the code *)

(** ** The normalizer on a parsed source *)

Lemma isinstance_definition_not_Expr cls fields :
  isinstance (Node cls fields) ["AsyncFunctionDef"; "FunctionDef"] = true ->
  String.eqb cls "Expr" = false.
Proof.
  cbn [isinstance existsb]. rewrite orb_false_r.
  intros H. apply orb_true_iff in H as [H | H];
    apply String.eqb_eq in H; subst cls; reflexivity.
Qed.

(** What [ast_code_of] does with a source that parses to one statement. *)
Lemma ast_code_of_source_single w source n :
  parses_to w source [n] ->
  ast_code_of_source w source
  = if isinstance n ["AsyncFunctionDef"; "FunctionDef"]
    then Ret (dump (clear_name (walk_remove_docstring n)))
    else Raise AssertionError.
Proof.
  intros (lines & Hlines & Hparse). unfold ast_code_of_source.
  rewrite Hlines. cbn [bind]. rewrite Hparse. cbn [length Nat.eqb assert bind].
  destruct (isinstance n ["AsyncFunctionDef"; "FunctionDef"]) eqn:Hcls;
    [| reflexivity].
  cbn [assert bind].
  destruct n as [cls fields | items | r]; try discriminate.
  assert (Hdoc : is_docstring (walk_remove_docstring (Node cls fields)) = false).
  { rewrite is_docstring_walk. cbn [is_docstring].
    now rewrite (isinstance_definition_not_Expr _ _ Hcls). }
  change (walk_remove_docstring (Node "Module" [("body", Seq [Node cls fields])]))
    with (remove_docstring
            (Node "Module"
               [("body", Seq [walk_remove_docstring (Node cls fields)])])).
  set (n' := walk_remove_docstring (Node cls fields)) in *.
  assert (Hmodule : remove_docstring (Node "Module" [("body", Seq [n'])])
                    = Node "Module" [("body", Seq [n'])]).
  { unfold remove_docstring.
    change (isinstance (Node "Module" ?f) ?l) with true.
    change (get_field "body" [("body", ?b)]) with (Some b).
    cbv iota. now rewrite Hdoc. }
  rewrite Hmodule. reflexivity.
Qed.

Lemma docstring_removed_walk n n' :
  docstring_removed n n' -> walk_remove_docstring n = walk_remove_docstring n'.
Proof.
  induction 1 as [cls fields docstring body Hcls Hbody Hdoc Hrest
                 | cls pre name v v' post _ IH
                 | pre x x' post _ IH].
  - now apply (walk_remove_docstring_docstring cls fields docstring body).
  - cbn [walk_remove_docstring]. rewrite !map_app. cbn [map fst snd].
    now rewrite IH.
  - cbn [walk_remove_docstring]. rewrite !map_app. cbn [map]. now rewrite IH.
Qed.

Lemma docstring_removed_isinstance n n' classes :
  docstring_removed n n' -> isinstance n classes = isinstance n' classes.
Proof. destruct 1; reflexivity. Qed.

(** X1 — Docstrings, at any depth. Two sources whose parsed definitions
    differ by one leading docstring — the function's own, or that of a
    function or class defined anywhere inside it — are normalized alike: the
    same code text, or the same exception. (Only the first statement of a
    body is ever dropped: the body that is left must not start with a string
    statement of its own.) *)
Theorem ast_code_ignores_a_docstring (w : world) (source1 source2 : string)
    (n1 n2 : ast) :
  parses_to w source1 [n1] ->
  parses_to w source2 [n2] ->
  docstring_removed n1 n2 ->
  ast_code_of_source w source1 = ast_code_of_source w source2.
Proof.
  intros H1 H2 Hrem.
  rewrite (ast_code_of_source_single _ _ _ H1), (ast_code_of_source_single _ _ _ H2).
  rewrite (docstring_removed_isinstance _ _ _ Hrem).
  now rewrite (docstring_removed_walk _ _ Hrem).
Qed.

Lemma ast_code_ignores_a_docstring_witness :
  ast_code_of_source Cases.w Cases.src_f_doc
  = ast_code_of_source Cases.w Examples.src_f_1.
Proof.
  apply (ast_code_ignores_a_docstring Cases.w _ _
           (Examples.FunctionDef "f" []
              [Examples.Expr (Examples.Str "Docstring.");
               Examples.Return (Examples.Num "1")])
           (Examples.FunctionDef "f" [] [Examples.Return (Examples.Num "1")])).
  - eexists. split; vm_compute; reflexivity.
  - eexists. split; vm_compute; reflexivity.
  - exact (removed_here "FunctionDef"
             [("name", Atom "'f'"); ("args", Examples.arguments []);
              ("body", Seq [Examples.Expr (Examples.Str "Docstring.");
                            Examples.Return (Examples.Num "1")]);
              ("decorator_list", Seq []); ("returns", Atom "None")]
             (Examples.Expr (Examples.Str "Docstring."))
             [Examples.Return (Examples.Num "1")]
             eq_refl eq_refl eq_refl eq_refl).
Defined.

Lemma get_field_set_field_ne name name' v fields :
  String.eqb name' name = false ->
  get_field name (set_field name' v fields) = get_field name fields.
Proof.
  intros Hne. induction fields as [| [n v0] rest IH]; simpl; [reflexivity |].
  destruct (String.eqb n name') eqn:E; simpl.
  - apply String.eqb_eq in E. subst n. now rewrite Hne.
  - destruct (String.eqb n name); [reflexivity | exact IH].
Qed.

Lemma set_field_comm name name' v v' fields :
  String.eqb name name' = false ->
  set_field name v (set_field name' v' fields)
  = set_field name' v' (set_field name v fields).
Proof.
  intros Hne. induction fields as [| [n v0] rest IH]; simpl; [reflexivity |].
  destruct (String.eqb n name') eqn:E'; destruct (String.eqb n name) eqn:E; simpl;
    rewrite ?E, ?E'; try reflexivity.
  - apply String.eqb_eq in E, E'. subst. now rewrite String.eqb_refl in Hne.
  - now rewrite IH.
Qed.

Lemma clear_name_remove_docstring_set_name cls fields name :
  clear_name (remove_docstring (Node cls (set_field "name" name fields)))
  = clear_name (remove_docstring (Node cls fields)).
Proof.
  unfold remove_docstring.
  change (isinstance (Node cls ?f) ?l) with (isinstance (Node cls fields) l).
  destruct (isinstance (Node cls fields) _); [| apply clear_name_set_name].
  rewrite get_field_set_field_ne by reflexivity.
  destruct (get_field "body" fields) as [[c f | [| stmt rest] | r] |];
    try apply clear_name_set_name.
  destruct (is_docstring stmt); [| apply clear_name_set_name].
  cbn [clear_name]. rewrite (set_field_comm "body" "name") by reflexivity.
  now rewrite set_field_set_field.
Qed.

(** X2 — The function's own name. Two sources whose parsed definitions
    differ in the [name] of the definition only are normalized alike. *)
Theorem ast_code_ignores_the_name (w : world) (source1 source2 : string)
    (cls : string) (fields : list (string * ast)) (name : ast) :
  parses_to w source1 [Node cls fields] ->
  parses_to w source2 [Node cls (set_field "name" name fields)] ->
  ast_code_of_source w source1 = ast_code_of_source w source2.
Proof.
  intros H1 H2.
  rewrite (ast_code_of_source_single _ _ _ H1), (ast_code_of_source_single _ _ _ H2).
  change (isinstance (Node cls (set_field "name" name fields)) ?l)
    with (isinstance (Node cls fields) l).
  destruct (isinstance (Node cls fields) _); [| reflexivity].
  do 2 f_equal. cbn [walk_remove_docstring]. rewrite map_walk_set_field.
  symmetry. apply clear_name_remove_docstring_set_name.
Qed.

Lemma ast_code_ignores_the_name_witness :
  ast_code_of_source Cases.w Examples.src_f_1
  = ast_code_of_source Cases.w Cases.src_g_1.
Proof.
  apply (ast_code_ignores_the_name Cases.w _ _ "FunctionDef"
           [("name", Atom "'f'"); ("args", Examples.arguments []);
            ("body", Seq [Examples.Return (Examples.Num "1")]);
            ("decorator_list", Seq []); ("returns", Atom "None")]
           (Atom "'g'")).
  - eexists. split; vm_compute; reflexivity.
  - eexists. split; vm_compute; reflexivity.
Defined.

Lemma split_decorated decorators source :
  Forall (fun d => contains Text.newline d = false) decorators ->
  Text.split Text.newline (decorated decorators source)
  = decorators ++ Text.split Text.newline source.
Proof.
  induction 1 as [| d ds Hd _ IH]; [reflexivity |].
  cbn [decorated fold_right app]. rewrite (split_line d) by exact Hd.
  f_equal. exact IH.
Qed.

(** X3 — Decorators of one line each. A source with any number of decorator
    lines above it — each starting with [@] in its first column and holding
    no line break — is normalized as the source without them. *)
Theorem ast_code_ignores_one_line_decorators (w : world)
    (decorators : list string) (source : string) :
  Forall (fun d => (exists r, d = String (ascii_of_nat 64) r) /\
                   contains Text.newline d = false) decorators ->
  ast_code_of_source w (decorated decorators source) = ast_code_of_source w source.
Proof.
  intros H. unfold ast_code_of_source.
  rewrite split_decorated
    by (eapply List.Forall_impl; [| exact H]; now intros d [_ Hd]).
  rewrite dropwhile_decorator_lines; [reflexivity |].
  eapply List.Forall_impl; [| exact H]. now intros d [Hd _].
Qed.

Lemma ast_code_ignores_one_line_decorators_witness :
  ast_code_of_source Examples.w
    (decorated ["@register"; "@cached(maxsize=None)"] Examples.src_f_1)
  = ast_code_of_source Examples.w Examples.src_f_1.
Proof.
  apply ast_code_ignores_one_line_decorators.
  repeat constructor; eexists; reflexivity.
Defined.

(** X4 — What gets a code text at all. [ast_code_of] returns only for a
    source that, its leading decorator lines dropped, parses to exactly one
    statement, a [def] or an [async def]; what it returns is the dump of
    that definition with the docstrings removed and the name cleared. An
    assignment of a lambda, a class, or two statements get none. *)
Theorem ast_code_of_source_returns_one_definition (w : world)
    (source code : string) :
  ast_code_of_source w source = Ret code ->
  exists cls fields,
    parses_to w source [Node cls fields] /\
    (cls = "AsyncFunctionDef" \/ cls = "FunctionDef") /\
    code = dump (clear_name (walk_remove_docstring (Node cls fields))).
Proof.
  intros H.
  assert (Hparse : exists n, parses_to w source [n]).
  { unfold ast_code_of_source in H.
    destruct (dropwhile_decorator (Text.split Text.newline source))
      as [lines | e |] eqn:Hlines; try discriminate.
    cbn [bind] in H.
    destruct (ast_parse w (Text.join (Text.chr Text.newline) lines))
      as [[| n [| n' rest]] |] eqn:Hbody; try discriminate.
    exists n, lines. now split. }
  destruct Hparse as [n Hparse].
  rewrite (ast_code_of_source_single _ _ _ Hparse) in H.
  destruct (isinstance n ["AsyncFunctionDef"; "FunctionDef"]) eqn:Hcls;
    [| discriminate].
  destruct n as [cls fields | items | r]; try discriminate.
  exists cls, fields. split; [exact Hparse | split; [| congruence]].
  cbn [isinstance existsb] in Hcls. rewrite orb_false_r in Hcls.
  apply orb_true_iff in Hcls as [E | E]; apply String.eqb_eq in E; auto.
Qed.

Lemma ast_code_of_source_returns_one_definition_witness :
  (exists cls fields,
     parses_to Examples.w Examples.src_g_doc [Node cls fields] /\
     (cls = "AsyncFunctionDef" \/ cls = "FunctionDef") /\
     "FunctionDef('', arguments([], None, [], [], None, []), [Return(Num(1))], [], None)"
     = dump (clear_name (walk_remove_docstring (Node cls fields)))) /\
  ast_code_of_source Cases.w Cases.src_lambda = Raise AssertionError.
Proof.
  split; [| vm_compute; reflexivity].
  apply ast_code_of_source_returns_one_definition. vm_compute. reflexivity.
Defined.

(** ** The serializer on plain values, and on what it cannot order *)

Lemma depth_positive v : 1 <= depth v.
Proof. destruct v; simpl; lia. Qed.

Lemma deep_transform_plain w tr fuel : forall v,
  plain v = true -> depth v <= fuel ->
  exists t, deep_transform w tr fuel v = Ret t /\ repr_tval w t = repr_val w v.
Proof.
  induction fuel as [| n IH]; intros v Hplain Hdepth.
  - pose proof (depth_positive v). lia.
  - assert (Hitems : forall items,
              forallb plain items = true -> list_max (map depth items) <= n ->
              exists ts, for_each (deep_transform w tr n) items = Ret ts /\
                         map (repr_tval w) ts = map (repr_val w) items).
    { intros items Hall Hmax.
      destruct (for_each_Forall2 (fun x t => repr_tval w t = repr_val w x)
                  (deep_transform w tr n) items) as (ts & Hts & H2).
      - intros x Hx. apply IH.
        + rewrite forallb_forall in Hall. now apply Hall.
        + apply list_max_le in Hmax. rewrite List.Forall_forall in Hmax.
          apply Hmax. now apply in_map.
      - exists ts. split; [exact Hts |].
        clear Hts Hall Hmax. induction H2 as [| x t xs ts Hxt _ IHxs]; [reflexivity |].
        cbn [map]. cbv beta in Hxt. rewrite Hxt. f_equal. exact IHxs. }
    destruct v; try discriminate;
      try (eexists; split; [reflexivity | reflexivity]).
    + cbn [plain] in Hplain. cbn [depth] in Hdepth.
      destruct (Hitems items Hplain ltac:(lia)) as (ts & Hts & Hrepr).
      exists (TTuple ts). cbn [deep_transform deref]. rewrite Hts.
      split; [reflexivity |]. cbn [repr_tval repr_val]. now rewrite Hrepr.
    + cbn [plain] in Hplain. cbn [depth] in Hdepth.
      destruct (Hitems items Hplain ltac:(lia)) as (ts & Hts & Hrepr).
      exists (TList ts). cbn [deep_transform deref]. rewrite Hts.
      split; [reflexivity |]. cbn [repr_tval repr_val]. now rewrite Hrepr.
Qed.

(** X5 — Plain data is printed as it is. For a value made of [None],
    numbers, texts, byte strings, tuples and lists, the serializer returns
    the value's own [repr], once the depth allowed covers the nesting: no
    hook is asked and nothing of the store is read. *)
Theorem repr_hashable_plain (w : world) (fuel : nat) (v : val)
    (hook : option HashHook) :
  plain v = true -> depth v <= fuel ->
  repr_hashable fuel w v hook = Ret (repr_val w v).
Proof.
  intros Hplain Hdepth. unfold repr_hashable.
  destruct (deep_transform_plain w (transform w (hook_or_default hook)) fuel v
              Hplain Hdepth) as (t & -> & Hrepr).
  cbn [bind]. now rewrite Hrepr.
Qed.

Lemma repr_hashable_plain_witness :
  repr_hashable 3 Examples.w
    (VList [VInt 1; VInt 2; VTuple [VInt 1; VStr "a"]; VTuple [VNone]]) None
  = Ret "[1, 2, (1, 'a'), (None,)]".
Proof.
  apply (repr_hashable_plain Examples.w 3
           (VList [VInt 1; VInt 2; VTuple [VInt 1; VStr "a"]; VTuple [VNone]]) None).
  - reflexivity.
  - vm_compute. lia.
Defined.

(** X6 — [__codehash__] decides alone. For an object that has the method,
    the hook is never asked: a token the method returns is the one that is
    printed, whatever the hook says; and when the method returns [None] the
    serializer raises CodehashError, also under a hook that has a token for
    the object. *)
Theorem codehash_method_decides_alone (w : world) (fuel : nat) (o : loc)
    (i : instance) (hook : option HashHook) :
  heap w !! o = Some (HInstance i) ->
  (forall token,
     i_codehash i = Some (Some token) ->
     repr_hashable (S fuel) w (VRef o) hook
     = Ret ("Hashed(" +:+ repr_str token +:+ ")")) /\
  (i_codehash i = Some None ->
   repr_hashable (S fuel) w (VRef o) hook
   = Raise (CodehashError (Unknown_object (VRef o)))).
Proof.
  intros Ho. unfold repr_hashable. cbn [deep_transform deref]. rewrite Ho.
  unfold transform, codehash_method. rewrite Ho.
  split; [intros token Hi | intros Hi]; rewrite Hi; reflexivity.
Qed.

Lemma codehash_method_decides_alone_witness :
  repr_hashable 1 Cases.w_objects (VRef Cases.c_none) (Some Examples.empty_hook)
  = Raise (CodehashError (Unknown_object (VRef Cases.c_none))) /\
  repr_hashable 1 (give_codehash Examples.w Examples.c_obj "v2")
    (VRef Examples.c_obj) (Some Examples.empty_hook)
  = Ret "Hashed('v2')".
Proof.
  split.
  - apply (codehash_method_decides_alone Cases.w_objects 0 Cases.c_none
             (Instance_ "<test_hashing.C object>" (Some None))); reflexivity.
  - exact (proj1 (codehash_method_decides_alone
                    (give_codehash Examples.w Examples.c_obj "v2") 0 Examples.c_obj
                    (Instance_ "<test_hashing.C object>" (Some (Some "v2")))
                    (Some Examples.empty_hook) eq_refl) "v2" eq_refl).
Defined.

(** X7 — A list that contains itself. [deep_transform] follows a list into
    its items with nothing to remember where it has been: on a list of the
    store that is one of its own items it never returns a value, whatever
    the depth allowed and whatever the hook (CPython ends the descent with
    RecursionError). *)
Theorem cyclic_list_never_serialized (w : world) (l : loc) (items : list val) :
  heap w !! l = Some (HList items) ->
  In (VRef l) items ->
  forall fuel hook text, repr_hashable fuel w (VRef l) hook <> Ret text.
Proof.
  intros Hl Hin fuel hook text H. unfold repr_hashable in H.
  apply bind_inv_ret in H as (t & H & _). revert t H.
  induction fuel as [| n IH]; intros t H; [discriminate |].
  cbn [deep_transform deref] in H. rewrite Hl in H.
  apply bind_inv_ret in H as (ts & H & _).
  destruct (for_each_inv_In _ _ _ _ H Hin) as [t' Ht'].
  exact (IH _ Ht').
Qed.

Lemma cyclic_list_never_serialized_witness :
  heap Cases.w_objects !! Cases.cyclic = Some (HList [VInt 1; VRef Cases.cyclic]) /\
  match repr_hashable 100 Cases.w_objects (VRef Cases.cyclic) None with
  | Ret _ => False
  | _ => True
  end.
Proof.
  split; [reflexivity |].
  destruct (repr_hashable 100 Cases.w_objects (VRef Cases.cyclic) None)
    as [text | e |] eqn:E; [| exact I | exact I].
  apply (cyclic_list_never_serialized Cases.w_objects Cases.cyclic
           [VInt 1; VRef Cases.cyclic] eq_refl (or_intror (or_introl eq_refl))
           100 None text E).
Defined.

Lemma insert_sorted_str_keys x : forall sorted,
  Forall str_key sorted ->
  exists sorted', insert_sorted (VStr x) sorted = Ret sorted' /\
                  Forall str_key sorted' /\ sorted' <> [].
Proof.
  induction 1 as [| y ys [s ->] Hys IH].
  - exists [VStr x]. repeat split; [repeat constructor; now exists x | discriminate].
  - cbn [insert_sorted py_lt as_number bind]. destruct (String.ltb s x).
    + destruct IH as (ys' & -> & Hall & _). cbn [bind].
      exists (VStr s :: ys'). repeat split; [| discriminate].
      constructor; [now exists s | exact Hall].
    + exists (VStr x :: VStr s :: ys). repeat split; [| discriminate].
      repeat constructor; [now exists x | now exists s | exact Hys].
Qed.

Lemma insert_sorted_int_keys x : forall sorted,
  Forall int_key sorted ->
  exists sorted', insert_sorted (VInt x) sorted = Ret sorted' /\
                  Forall int_key sorted' /\ sorted' <> [].
Proof.
  induction 1 as [| y ys [n ->] Hys IH].
  - exists [VInt x]. repeat split; [repeat constructor; now exists x | discriminate].
  - cbn [insert_sorted]. rewrite py_lt_int. cbn [bind]. destruct (n <? x)%Z.
    + destruct IH as (ys' & -> & Hall & _). cbn [bind].
      exists (VInt n :: ys'). repeat split; [| discriminate].
      constructor; [now exists n | exact Hall].
    + exists (VInt x :: VInt n :: ys). repeat split; [| discriminate].
      repeat constructor; [now exists x | now exists n | exact Hys].
Qed.

Lemma py_sorted_str_keys keys :
  Forall str_key keys ->
  exists sorted, py_sorted keys = Ret sorted /\ Forall str_key sorted /\
                 (keys <> [] -> sorted <> []).
Proof.
  induction 1 as [| k ks [s ->] _ IH].
  - exists []. repeat split; [constructor | auto].
  - destruct IH as (sorted & Hsorted & Hall & _).
    cbn [py_sorted]. rewrite Hsorted. cbn [bind].
    destruct (insert_sorted_str_keys s sorted Hall) as (sorted' & -> & Hall' & Hne).
    exists sorted'. auto.
Qed.

Lemma py_sorted_int_keys keys :
  Forall int_key keys ->
  exists sorted, py_sorted keys = Ret sorted /\ Forall int_key sorted /\
                 (keys <> [] -> sorted <> []).
Proof.
  induction 1 as [| k ks [n ->] _ IH].
  - exists []. repeat split; [constructor | auto].
  - destruct IH as (sorted & Hsorted & Hall & _).
    cbn [py_sorted]. rewrite Hsorted. cbn [bind].
    destruct (insert_sorted_int_keys n sorted Hall) as (sorted' & -> & Hall' & Hne).
    exists sorted'. auto.
Qed.

Lemma str_or_int_keys keys :
  Forall (fun k => str_key k \/ int_key k) keys ->
  Forall str_key keys \/ Forall int_key keys \/
  (exists s n, In (VStr s) keys /\ In (VInt n) keys).
Proof.
  induction 1 as [| k ks Hk _ IH]; [left; constructor |].
  destruct IH as [Hstr | [Hint | (s & n & Hs & Hn)]].
  - destruct Hk as [Hk | [n ->]]; [left; now constructor |].
    destruct ks as [| k' ks']; [right; left; repeat constructor; now exists n |].
    apply Forall_inv in Hstr as Hk'. destruct Hk' as [s ->].
    right; right. exists s, n. simpl. auto.
  - destruct Hk as [[s ->] | Hk]; [| right; left; now constructor].
    destruct ks as [| k' ks']; [left; repeat constructor; now exists s |].
    apply Forall_inv in Hint as Hk'. destruct Hk' as [n ->].
    right; right. exists s, n. simpl. auto.
  - right; right. exists s, n. simpl. auto.
Qed.

Lemma py_sorted_mixed_keys : forall keys s n,
  Forall (fun k => str_key k \/ int_key k) keys ->
  In (VStr s) keys -> In (VInt n) keys ->
  py_sorted keys = Raise TypeError.
Proof.
  induction keys as [| k ks IH]; intros s n Hall Hs Hn; [destruct Hs |].
  apply List.Forall_cons_iff in Hall as [Hk Hks]. cbn [py_sorted].
  destruct (str_or_int_keys ks Hks) as [Hstr | [Hint | (s' & n' & Hs' & Hn')]].
  - assert (Ek : k = VInt n).
    { destruct Hn as [Hn | Hn]; [exact Hn |].
      rewrite List.Forall_forall in Hstr. destruct (Hstr _ Hn) as [? ?].
      discriminate. }
    subst k. destruct Hs as [Hs | Hs]; [discriminate |].
    destruct (py_sorted_str_keys ks Hstr) as (sorted & -> & Hall & Hne).
    cbn [bind]. destruct sorted as [| y ys].
    + exfalso. apply Hne; [| reflexivity]. intros ->. destruct Hs.
    + apply Forall_inv in Hall as [y' ->]. reflexivity.
  - assert (Ek : k = VStr s).
    { destruct Hs as [Hs | Hs]; [exact Hs |].
      rewrite List.Forall_forall in Hint. destruct (Hint _ Hs) as [? ?].
      discriminate. }
    subst k. destruct Hn as [Hn | Hn]; [discriminate |].
    destruct (py_sorted_int_keys ks Hint) as (sorted & -> & Hall & Hne).
    cbn [bind]. destruct sorted as [| y ys].
    + exfalso. apply Hne; [| reflexivity]. intros ->. destruct Hn.
    + apply Forall_inv in Hall as [y' ->]. reflexivity.
  - now rewrite (IH s' n' Hks Hs' Hn').
Qed.

(** X8 — Keys that cannot be ordered. A dict that has a text key and an
    integer key (and only such keys) is not serialized: [sorted(obj)] raises
    TypeError, whatever the hook, and since that is no CodehashError the
    [except] clause of [hashed_globals_of] lets it through as it is. *)
Theorem dict_of_str_and_int_keys_raises_TypeError (w : world) (fuel : nat)
    (hook : option HashHook) (d : val) (items : list (val * val)) (s : string)
    (n : Z) :
  deref w d = VDict items ->
  Forall (fun k => str_key k \/ int_key k) (map fst items) ->
  In (VStr s) (map fst items) -> In (VInt n) (map fst items) ->
  repr_hashable (S fuel) w d hook = Raise TypeError /\
  forall hf func name c,
    try_hash_global w hf (S fuel) func hook name d c = (Raise TypeError, c).
Proof.
  intros Hd Hall Hs Hn.
  assert (H : repr_hashable (S fuel) w d hook = Raise TypeError).
  { unfold repr_hashable. cbn [deep_transform]. rewrite Hd.
    now rewrite (py_sorted_mixed_keys _ s n Hall Hs Hn). }
  split; [exact H |].
  intros hf func name c. unfold try_hash_global.
  assert (Hg : hash_global w hf (S fuel) func hook d c
               = hash_composite w (S fuel) hook d c).
  { unfold hash_global. destruct d; try reflexivity.
    cbn [deref] in Hd.
    destruct (heap w !! l) as [[| | | | |] |]; try reflexivity; discriminate. }
  rewrite Hg. unfold hash_composite, lift, mbind. now rewrite H.
Qed.

Lemma dict_of_str_and_int_keys_raises_TypeError_witness :
  repr_hashable 1 Examples.w (VDict [(VStr "a", VInt 1); (VInt 2, VInt 1)]) None
  = Raise TypeError.
Proof.
  apply (dict_of_str_and_int_keys_raises_TypeError Examples.w 0 None
           (VDict [(VStr "a", VInt 1); (VInt 2, VInt 1)])
           [(VStr "a", VInt 1); (VInt 2, VInt 1)] "a" 2%Z).
  - reflexivity.
  - simpl. constructor; [left; now exists "a" |].
    constructor; [right; now exists 2%Z | constructor].
  - simpl. auto.
  - simpl. auto.
Defined.

(** ** The resolver *)

Section resolver_sorts.

Context (global_ns builtin_ns : gmap string val) (root : code).

Lemma resolve_name_sorted_out acc name :
  reads root name ->
  sorted_out global_ns builtin_ns root acc ->
  sorted_out global_ns builtin_ns root (resolve_name global_ns builtin_ns acc name).
Proof.
  destruct acc as [[gv bv] ub]. unfold resolve_name, sorted_out.
  intros Hname (Hg & Hb & Hu).
  destruct (global_ns !! name) as [v |] eqn:Eg.
  - split; [| now split].
    intros k Hk. apply dict_set_keys in Hk as [-> | Hk]; [| now apply Hg].
    split; [exact Hname | rewrite Eg; eauto].
  - destruct (builtin_ns !! name) as [v |] eqn:Eb.
    + split; [exact Hg | split; [| exact Hu]].
      intros k Hk. apply dict_set_keys in Hk as [-> | Hk]; [| now apply Hb].
      split; [exact Hname | split; [exact Eg | rewrite Eb; eauto]].
    + split; [exact Hg | split; [exact Hb |]].
      intros k Hk. apply elem_of_union in Hk as [Hk | Hk]; [| now apply Hu].
      apply elem_of_singleton in Hk. subst k. now repeat split.
Qed.

Lemma fold_resolve_sorted_out names : forall acc,
  (forall name, In name names -> reads root name) ->
  sorted_out global_ns builtin_ns root acc ->
  sorted_out global_ns builtin_ns root
    (fold_left (resolve_name global_ns builtin_ns) names acc).
Proof.
  induction names as [| n ns IH]; intros acc Hnames Hacc; simpl; [exact Hacc |].
  apply IH; [intros name Hin; apply Hnames; now right |].
  apply resolve_name_sorted_out; [apply Hnames; now left | exact Hacc].
Qed.

Lemma resolve_codes_sorted_out fuel : forall codes acc,
  (forall c name, In c codes -> reads c name -> reads root name) ->
  sorted_out global_ns builtin_ns root acc ->
  sorted_out global_ns builtin_ns root
    (resolve_codes global_ns builtin_ns fuel codes acc).
Proof.
  induction fuel as [| n IH]; intros codes acc Hcodes Hacc; simpl; [exact Hacc |].
  destruct codes as [| c rest]; [exact Hacc |].
  apply IH.
  - intros c' name Hin Hreads. apply in_app_or in Hin as [Hin | Hin].
    + apply (Hcodes c name); [now left |].
      apply (reads_nested c c'); [| exact Hreads].
      apply nested_codes_In. now apply in_rev.
    + apply (Hcodes c' name); [now right | exact Hreads].
  - apply fold_resolve_sorted_out; [| exact Hacc].
    intros name Hin. apply (Hcodes c name); [now left | now apply reads_here].
Qed.

End resolver_sorts.

(** X9 — The resolver sorts every name the code reads, and no other. A name
    is among the globals of [getclosurevars(func)] exactly when the code of
    [func] — its own or that of a definition nested in it at any depth —
    reads it and the module's namespace has it; among the builtins exactly
    when the code reads it, the module's namespace does not have it and the
    builtin namespace does (a module global hides a builtin of the same
    name); and among the unbound names exactly when the code reads it and
    neither namespace has it. *)
Theorem getclosurevars_sorts_every_name (func : function) (name : string) :
  (In name (map fst (globals (getclosurevars func))) <->
   reads (f_code func) name /\ is_Some (f_globals func !! name)) /\
  (In name (map fst (builtins (getclosurevars func))) <->
   reads (f_code func) name /\ f_globals func !! name = None /\
   is_Some (f_builtins func !! name)) /\
  (name ∈ unbound (getclosurevars func) <->
   reads (f_code func) name /\ f_globals func !! name = None /\
   f_builtins func !! name = None).
Proof.
  assert (Hsound : sorted_out (f_globals func) (f_builtins func) (f_code func)
                     (globals (getclosurevars func), builtins (getclosurevars func),
                      unbound (getclosurevars func))).
  { unfold getclosurevars.
    pose proof (resolve_codes_sorted_out (f_globals func) (f_builtins func)
                  (f_code func) (code_size (f_code func)) [f_code func]
                  ([], [], ∅)) as H.
    destruct (resolve_codes _ _ _ _ _) as [[gv bv] ub]. simpl.
    apply H.
    - intros c n [<- | []] Hreads. exact Hreads.
    - split; [intros k [] | split; [intros k [] |]].
      intros k Hk. set_solver. }
  destruct Hsound as (Hg & Hb & Hu).
  assert (Hfiled := getclosurevars_files func name).
  split; [| split]; (split; [now auto |]).
  - intros [Hreads [v Hv]]. specialize (Hfiled Hreads). simpl in Hfiled.
    rewrite Hv in Hfiled. eapply dict_get_Some_key; eauto.
  - intros (Hreads & Hnone & [v Hv]). specialize (Hfiled Hreads). simpl in Hfiled.
    rewrite Hnone, Hv in Hfiled. eapply dict_get_Some_key; eauto.
  - intros (Hreads & Hnone & Hnone'). specialize (Hfiled Hreads). simpl in Hfiled.
    now rewrite Hnone, Hnone' in Hfiled.
Qed.

(** ** Classifying a dependency *)

Lemma split_not_nil c s : Text.split c s <> [].
Proof.
  destruct s as [| a s]; [discriminate |]. cbn [Text.split].
  destruct (Ascii.eqb a c); [discriminate |].
  destruct (Text.split c s); discriminate.
Qed.

(** [sep.join(s.split(sep)) == s] *)
Lemma join_split c s : Text.join (Text.chr c) (Text.split c s) = s.
Proof.
  induction s as [| a s IH]; [reflexivity |]. cbn [Text.split].
  pose proof (split_not_nil c s) as Hne.
  destruct (Ascii.eqb a c) eqn:E.
  - apply Ascii.eqb_eq in E. subst a.
    destruct (Text.split c s) as [| p ps]; [contradiction |].
    change (Text.join (Text.chr c) (EmptyString :: p :: ps))
      with (EmptyString +:+ Text.chr c +:+ Text.join (Text.chr c) (p :: ps)).
    now rewrite IH.
  - destruct (Text.split c s) as [| p ps]; [contradiction |].
    destruct ps as [| q qs].
    + cbn [Text.join] in IH |- *. now rewrite IH.
    + change (Text.join (Text.chr c) (String a p :: q :: qs))
        with (String a (p +:+ Text.chr c +:+ Text.join (Text.chr c) (q :: qs))).
      f_equal. exact IH.
Qed.

(** X10 — Version discovery. With every ancestor of the module registered in
    [sys.modules], [version_of] returns the first non-empty [__version__]
    met from the module's full dotted name down to its top-level package
    ([None] when there is none: an empty version counts as no version). When
    the module's own name is not registered, the first lookup raises
    KeyError. *)
Theorem version_of_most_specific_first (w : world) (mdl : module) :
  ((forall name, In name (ancestors (m_name mdl)) ->
                 is_Some (sys_modules w !! name)) ->
   version_of w mdl = Ret (first_version w (ancestors (m_name mdl)))) /\
  (sys_modules w !! m_name mdl = None -> version_of w mdl = Raise KeyError).
Proof.
  split; [apply version_of_first |].
  intros Hnone. unfold version_of.
  pose proof (split_not_nil (ascii_of_nat 46) (m_name mdl)) as Hne.
  pose proof (join_split (ascii_of_nat 46) (m_name mdl)) as Hjoin.
  destruct (Text.split (ascii_of_nat 46) (m_name mdl)) as [| p ps] eqn:E;
    [contradiction |].
  change (length (p :: ps)) with (S (length ps)). cbn [version_walk].
  change (S (length ps)) with (length (p :: ps)). rewrite firstn_all.
  change "." with (Text.chr (ascii_of_nat 46)).
  now rewrite Hjoin, Hnone.
Qed.

Lemma version_of_most_specific_first_witness :
  ancestors "pkg.sub.mod" = ["pkg.sub.mod"; "pkg.sub"; "pkg"] /\
  version_of Cases.w_objects Cases.m_pkg_sub_mod = Ret (Some "1.2") /\
  version_of Cases.w_objects (Module_ "gone" None None) = Raise KeyError.
Proof.
  split; [vm_compute; reflexivity | split].
  - rewrite (proj1 (version_of_most_specific_first Cases.w_objects
                      Cases.m_pkg_sub_mod)).
    + vm_compute. reflexivity.
    + intros name Hin. vm_compute in Hin.
      destruct Hin as [<- | [<- | [<- | []]]]; vm_compute; eauto.
  - apply (proj2 (version_of_most_specific_first Cases.w_objects
                    (Module_ "gone" None None))).
    vm_compute. reflexivity.
Defined.

Lemma startswith_prefix p s :
  Text.startswith p s = true <-> exists rest, s = p +:+ rest.
Proof.
  revert s. induction p as [| a p IH]; intros s.
  - split; [intros _; now exists s | reflexivity].
  - destruct s as [| b s]; cbn [Text.startswith].
    + split; [discriminate | intros [rest H]; discriminate].
    + rewrite andb_true_iff, Ascii.eqb_eq, IH. split.
      * intros [-> [rest ->]]. now exists rest.
      * intros [rest H]. change (String a p +:+ rest) with (String a (p +:+ rest)) in H.
        injection H as -> ->. split; [reflexivity | now exists rest].
Qed.

(** X11 — What counts as standard library. A module with a file is taken
    for a standard-library module exactly when one of the recorded library
    directories is a prefix of its file path, as a text: a path separator
    after the prefix is not asked for, and anything installed below such a
    directory counts. *)
Theorem is_stdlib_is_a_text_prefix (w : world) (mdl : module) (file : string) :
  m_file mdl = Some file ->
  exists b, is_stdlib w mdl = Ret b /\
            (b = true <-> exists p rest, In p (STDLIB_PATHS w) /\ file = p +:+ rest).
Proof.
  intros Hfile. unfold is_stdlib. rewrite Hfile.
  exists (existsb (fun p => Text.startswith p file) (STDLIB_PATHS w)). split.
  - destruct (STDLIB_PATHS w); reflexivity.
  - rewrite existsb_exists. split.
    + intros (p & Hin & Hp). apply startswith_prefix in Hp as [rest ->]. eauto.
    + intros (p & rest & Hin & ->). exists p. split; [exact Hin |].
      apply startswith_prefix. eauto.
Qed.

Lemma is_stdlib_is_a_text_prefix_witness :
  is_stdlib Examples.w
    (Module_ "requests" (Some "/usr/lib/python3.7-extras/requests/__init__.py") None)
  = Ret true.
Proof.
  destruct (is_stdlib_is_a_text_prefix Examples.w
              (Module_ "requests"
                 (Some "/usr/lib/python3.7-extras/requests/__init__.py") None)
              "/usr/lib/python3.7-extras/requests/__init__.py" eq_refl)
    as (b & Hb & Hiff).
  rewrite Hb. f_equal. apply Hiff.
  exists "/usr/lib/python3.7", "-extras/requests/__init__.py".
  split; [simpl; auto | reflexivity].
Defined.

(** X12 — A class is never hashed by its code. A dependency that is a class
    of a module outside the standard library with no version to be found is
    rejected with CodehashError, naming the function, the name and the
    class: whatever the hook (it is not asked), whatever the cache, and
    with no call of [hash_function]. *)
Theorem class_of_unversioned_module_is_rejected (w : world)
    (hf : loc -> M string) (fuel : nat) (func : loc) (hook : option HashHook)
    (name : string) (l : loc) (k : class) (mdl : module) (c : cache) :
  heap w !! l = Some (HClass k) ->
  sys_modules w !! c_module k = Some mdl ->
  is_stdlib w mdl = Ret false ->
  version_of w mdl = Ret None ->
  try_hash_global w hf fuel func hook name (VRef l) c
  = (Raise (CodehashError (In_cannot_hash_global func name (VRef l))), c).
Proof.
  intros Hl Hmdl Hstd Hver. unfold try_hash_global, hash_global.
  rewrite Hl, Hmdl. unfold hash_named, lift, mbind. now rewrite Hstd, Hver.
Qed.

Lemma class_of_unversioned_module_is_rejected_witness :
  try_hash_global Cases.w_objects
    (fun g => hash_function Cases.w_objects 5 g None) 5 Examples.f_1
    (Some Examples.empty_hook) "C" (VRef Cases.class_C) ∅
  = (Raise (CodehashError
              (In_cannot_hash_global Examples.f_1 "C" (VRef Cases.class_C))), ∅).
Proof.
  apply (class_of_unversioned_module_is_rejected Cases.w_objects _ 5 Examples.f_1
           (Some Examples.empty_hook) "C" Cases.class_C
           (Class_ "test_hashing" "C") Examples.m_test ∅).
  - reflexivity.
  - reflexivity.
  - vm_compute. reflexivity.
  - vm_compute. reflexivity.
Defined.

(** X13 — A function of a library is known by name. A dependency that is a
    function of a standard-library module gets the token
    [module:qualname(stdlib)], and one of a module with a version to be
    found gets [module:qualname(version)]: its code is not looked at,
    [hash_function] is not called for it and the cache stays as it is —
    also when the dependency is the very function being hashed. *)
Theorem library_function_is_known_by_name (w : world) (hf : loc -> M string)
    (fuel : nat) (func : loc) (hook : option HashHook) (g : loc)
    (gfn : function) (mdl : module) (c : cache) :
  heap w !! g = Some (HFunction gfn) ->
  sys_modules w !! f_module gfn = Some mdl ->
  (is_stdlib w mdl = Ret true ->
   hash_global w hf fuel func hook (VRef g) c
   = (Ret (f_module gfn +:+ ":" +:+ f_qualname gfn +:+ "(stdlib)"), c)) /\
  (forall version,
     is_stdlib w mdl = Ret false ->
     version_of w mdl = Ret (Some version) ->
     hash_global w hf fuel func hook (VRef g) c
     = (Ret (f_module gfn +:+ ":" +:+ f_qualname gfn +:+ "(" +:+ version +:+ ")"),
        c)).
Proof.
  intros Hg Hmdl. unfold hash_global. rewrite Hg, Hmdl.
  unfold hash_named, lift, mbind, mret, fullname_of.
  split; [intros Hstd | intros version Hstd Hver].
  - rewrite Hstd. now rewrite !append_assoc.
  - rewrite Hstd, Hver. now rewrite !append_assoc.
Qed.

Lemma library_function_is_known_by_name_witness :
  hash_global Cases.w_objects (fun _ => lift Diverge) 0 Examples.f_1 None
    (VRef Cases.fn_join) ∅
  = (Ret "posixpath:join(stdlib)", ∅) /\
  hash_global Cases.w_objects (fun _ => lift Diverge) 0 Examples.f_1 None
    (VRef Cases.fn_hash_text) ∅
  = (Ret "codehash:hash_text(0.1.0)", ∅).
Proof.
  split.
  - apply (proj1 (library_function_is_known_by_name Cases.w_objects _ 0
                    Examples.f_1 None Cases.fn_join
                    (Function "posixpath" "join" EmptyString (Code [] [] []) [] ∅
                       Examples.builtin_ns)
                    Cases.m_posixpath ∅ eq_refl eq_refl)).
    vm_compute. reflexivity.
  - apply (proj2 (library_function_is_known_by_name Cases.w_objects _ 0
                    Examples.f_1 None Cases.fn_hash_text
                    (Function "codehash" "hash_text" EmptyString (Code [] [] []) [] ∅
                       Examples.builtin_ns)
                    Examples.m_codehash ∅ eq_refl eq_refl) "0.1.0").
    + vm_compute. reflexivity.
    + vm_compute. reflexivity.
Defined.

(** ** Exceptions of a dependency, and the cache *)

(** X14 — Only CodehashError is rewritten. When the first dependency that
    fails raises an exception that is no CodehashError (TypeError from
    sorting keys, AttributeError, KeyError from a module that is not
    registered, AssertionError from a dependency function), the call for the
    function raises that exception unchanged: the [except] clause adds
    neither the function nor the name to it. *)
Theorem dependency_exception_reaches_the_caller (w : world) (fuel : nat)
    (func : loc) (hook : option HashHook) (fn : function) (ast_code : string)
    (c : cache) (pre post : list (string * val)) (name : string) (obj : val)
    (acc : list (string * string)) (c1 : cache) (e : exn) (c2 : cache) :
  heap w !! func = Some (HFunction fn) ->
  c !! func = None ->
  ast_code_of w func = Ret ast_code ->
  unbound (getclosurevars fn) = ∅ ->
  items_of fn = pre ++ (name, obj) :: post ->
  hash_items w (fun g => hash_function w fuel g None) fuel func hook pre [] c
  = (Ret acc, c1) ->
  hash_global w (fun g => hash_function w fuel g None) fuel func hook obj c1
  = (Raise e, c2) ->
  (forall msg, e <> CodehashError msg) ->
  hash_function w (S fuel) func hook c = (Raise e, c2).
Proof.
  intros Hfn Hc Hast Hub Hitems Hpre Hobj Hne.
  rewrite hash_function_miss by assumption.
  rewrite (compute_identity_bound _ _ _ _ _ fn ast_code) by assumption.
  rewrite Hitems. apply mbind_raise.
  apply (hash_items_raise _ _ _ _ _ _ _ _ _ _ _ _ _ _ _ Hpre).
  now apply try_hash_global_passes.
Qed.

Lemma dependency_exception_reaches_the_caller_witness :
  hash_function Cases.w_objects 2 Cases.f_d_mixed (Some Examples.empty_hook) ∅
  = (Raise TypeError, ∅).
Proof.
  apply (dependency_exception_reaches_the_caller Cases.w_objects 1
           Cases.f_d_mixed (Some Examples.empty_hook)
           (Examples.def "f" (Examples.def_return "f" "dct") ["dct"] []
              [inl VNone] [VRef Cases.d_mixed] ∅)
           "FunctionDef('', arguments([], None, [], [], None, []), [Return(Name('dct', Load()))], [], None)"
           ∅ [] [] "dct" (VRef Cases.d_mixed) [] ∅ TypeError ∅).
  - reflexivity.
  - reflexivity.
  - vm_compute. reflexivity.
  - vm_compute. reflexivity.
  - vm_compute. reflexivity.
  - reflexivity.
  - vm_compute. reflexivity.
  - discriminate.
Defined.

(** X15 — The cache only grows. Whatever a call of [hash_function] does —
    return, raise, or run out of depth — every entry the cache had before
    is there afterwards with the same identity: nothing is overwritten or
    dropped, and what was cached for dependencies before an exception stays.
    When the call returns, the function has its entry. *)
Theorem hash_function_keeps_every_entry (w : world) (fuel : nat) (func : loc)
    (hook : option HashHook) (c : cache) (r : outcome string) (c' : cache) :
  hash_function w fuel func hook c = (r, c') ->
  (forall g h, c !! g = Some h -> c' !! g = Some h) /\
  (forall h, r = Ret h -> c' !! func = Some h).
Proof.
  intros H. split.
  - intros g h Hg.
    exact (lookup_weaken _ _ _ _ Hg (hash_function_grows w fuel func hook _ _ _ H)).
  - intros h ->. exact (hash_function_cached _ _ _ _ _ _ _ H).
Qed.

Lemma hash_function_keeps_every_entry_witness :
  exists r c',
    hash_function Examples.w 5 Examples.f_uses_g (Some Examples.empty_hook)
      {[ Examples.f_1 := "0da1f4bee9c7fa44059a6b3d198c7e144fe22b64" ]} = (r, c') /\
    c' !! Examples.f_1 = Some "0da1f4bee9c7fa44059a6b3d198c7e144fe22b64".
Proof.
  destruct (hash_function Examples.w 5 Examples.f_uses_g (Some Examples.empty_hook)
              {[ Examples.f_1 := "0da1f4bee9c7fa44059a6b3d198c7e144fe22b64" ]})
    as [r c'] eqn:E.
  exists r, c'. split; [reflexivity |].
  apply (proj1 (hash_function_keeps_every_entry _ _ _ _ _ _ _ E)).
  reflexivity.
Defined.

(** X16 — A hook only adds. An identity returned with no hook is returned,
    with the same cache, under every hook and with any greater depth
    allowed; more generally under every hook that gives the tokens the
    first hook gave. A hook cannot change the identity of a function that
    has one without it. *)
Theorem identity_holds_under_any_hook (w : world) (fuel : nat) (func : loc)
    (hook : option HashHook) (c : cache) (h : string) (c' : cache) :
  hash_function w fuel func hook c = (Ret h, c') ->
  forall fuel' hook',
    fuel <= fuel' -> extends hook hook' ->
    hash_function w fuel' func hook' c = (Ret h, c').
Proof.
  intros H fuel' hook' Hle Hext.
  exact (hash_function_mono w fuel fuel' func hook hook' Hle Hext _ _ _ H).
Qed.

Lemma identity_holds_under_any_hook_witness :
  hash_function Examples.w 7 Examples.f_dct (Some Examples.empty_hook) ∅
  = (Ret "c12c3d4c248a0683b7b74dfb69bf683f37fe82a1",
     {[ Examples.f_dct := "c12c3d4c248a0683b7b74dfb69bf683f37fe82a1" ]}).
Proof.
  apply (identity_holds_under_any_hook Examples.w 4 Examples.f_dct None ∅).
  - vm_compute. reflexivity.
  - lia.
  - apply extends_None.
Defined.

(** ** The record an identity is the digest of *)

Lemma entries_keys m : map fst (entries m) = str_sorted (map fst m).
Proof.
  unfold entries. rewrite List.map_map. cbn [fst]. apply List.map_id.
Qed.

Lemma entries_lookup m1 m2 name :
  entries m1 = entries m2 -> dict_get m1 name = dict_get m2 name.
Proof.
  intros H.
  assert (Hkeys : In name (map fst m1) <-> In name (map fst m2)).
  { rewrite <- (str_sorted_In (map fst m1)), <- (str_sorted_In (map fst m2)).
    rewrite <- (entries_keys m1), <- (entries_keys m2). now rewrite H. }
  destruct (dict_get m1 name) as [t1 |] eqn:E1;
    destruct (dict_get m2 name) as [t2 |] eqn:E2.
  - f_equal. exact (entries_dict_get _ _ _ _ _ H E1 E2).
  - apply dict_get_Some_key in E1. apply dict_get_None_key in E2. tauto.
  - apply dict_get_Some_key in E2. apply dict_get_None_key in E1. tauto.
  - reflexivity.
Qed.

(** X17 — The record is unambiguous. The text [hash_function] digests —
    [repr_hashable] of the dict of the code text and the dependency map —
    determines both: two records with the same text have the same code text
    and give every name the same token. Quotes, commas and braces inside a
    code text or a token cannot make one record read as another, so two
    identities agree only for equal code and dependencies, or where SHA-1
    collides. *)
Theorem identity_record_is_unambiguous (w : world) (fuel : nat)
    (ast_code1 ast_code2 : string) (hashed_globals1 hashed_globals2
                                    : list (string * string)) :
  3 <= fuel ->
  repr_hashable fuel w (spec_record ast_code1 hashed_globals1) None
  = repr_hashable fuel w (spec_record ast_code2 hashed_globals2) None ->
  ast_code1 = ast_code2 /\
  forall name, dict_get hashed_globals1 name = dict_get hashed_globals2 name.
Proof.
  intros Hfuel H.
  rewrite (repr_hashable_spec_record w fuel ast_code1 hashed_globals1 Hfuel) in H.
  rewrite (repr_hashable_spec_record w fuel ast_code2 hashed_globals2 Hfuel) in H.
  assert (Htext : spec_text ast_code1 hashed_globals1
                  = spec_text ast_code2 hashed_globals2) by congruence.
  clear H. apply spec_text_injective in Htext as [Hcode Hentries].
  split; [exact Hcode |]. intros name. now apply entries_lookup.
Qed.

Lemma identity_record_is_unambiguous_witness :
  dict_get [("dct", "composite:1"); ("os", "os(stdlib)")] "os"
  = dict_get [("os", "os(stdlib)"); ("dct", "composite:1")] "os".
Proof.
  apply (identity_record_is_unambiguous Examples.w 3 "FunctionDef()" "FunctionDef()"
           [("dct", "composite:1"); ("os", "os(stdlib)")]
           [("os", "os(stdlib)"); ("dct", "composite:1")]).
  - lia.
  - vm_compute. reflexivity.
Defined.

(** X18 — What an identity is the digest of. When a call computes — the
    function is not in the cache, neither before nor after its dependencies
    were hashed — it returns the SHA-1 of one text and stores it:
    [{'ast_code': <code text>, 'globals': {<name>: <token>, ...}}], the names
    in sorted order and every text as [repr] prints it. *)
Theorem identity_is_the_digest_of_the_record (w : world) (n : nat) (func : loc)
    (hook : option HashHook) (c : cache) (ast_code : string)
    (hashed_globals : list (string * string)) (c2 : cache) :
  3 <= n ->
  c !! func = None ->
  ast_code_of w func = Ret ast_code ->
  hashed_globals_of w (fun g => hash_function w n g None) n func hook c
  = (Ret hashed_globals, c2) ->
  c2 !! func = None ->
  hash_function w (S n) func hook c
  = (Ret (hash_text (spec_text ast_code hashed_globals)),
     <[func := hash_text (spec_text ast_code hashed_globals)]> c2) /\
  spec_text ast_code hashed_globals
  = "{'ast_code': " +:+ repr_str ast_code
      +:+ ", 'globals': {" +:+ render (entries hashed_globals) +:+ "}}".
Proof.
  intros Hn Hc Hast Hmap Hc2. split.
  - now apply hash_function_computed.
  - apply spec_text_shape.
Qed.

Lemma identity_is_the_digest_of_the_record_witness :
  hash_function Examples.w 4 Examples.f_os None ∅
  = (Ret "78ffffc7a97dadea9faa6541f551f9cd7fd269d7",
     {[ Examples.f_os := "78ffffc7a97dadea9faa6541f551f9cd7fd269d7" ]}) /\
  render (entries [("os", "os(stdlib)")]) = "'os': 'os(stdlib)'".
Proof.
  split; [| vm_compute; reflexivity].
  destruct (identity_is_the_digest_of_the_record Examples.w 3 Examples.f_os None ∅
              "FunctionDef('', arguments([], None, [], [], None, []), [Return(Name('os', Load()))], [], None)"
              [("os", "os(stdlib)")] ∅) as [H _].
  - lia.
  - reflexivity.
  - vm_compute. reflexivity.
  - vm_compute. reflexivity.
  - reflexivity.
  - rewrite H. vm_compute. reflexivity.
Defined.

(** X19 — Equal identities, equal records. Two calls that compute (for any
    two functions, worlds and hooks) return the same identity only if the
    two code texts are equal and every name has the same token in both
    dependency maps — unless SHA-1 gives two different record texts one
    digest. A change in the body, in a token or in the set of names shows in
    the identity. *)
Theorem equal_identities_have_equal_records
    (w1 w2 : world) (n1 n2 : nat) (f1 f2 : loc) (hook1 hook2 : option HashHook)
    (c1 c2 : cache) (a1 a2 : string) (m1 m2 : list (string * string))
    (c1' c2' : cache) :
  3 <= n1 -> 3 <= n2 ->
  c1 !! f1 = None -> c2 !! f2 = None ->
  ast_code_of w1 f1 = Ret a1 -> ast_code_of w2 f2 = Ret a2 ->
  hashed_globals_of w1 (fun g => hash_function w1 n1 g None) n1 f1 hook1 c1
  = (Ret m1, c1') ->
  hashed_globals_of w2 (fun g => hash_function w2 n2 g None) n2 f2 hook2 c2
  = (Ret m2, c2') ->
  c1' !! f1 = None -> c2' !! f2 = None ->
  (hash_text (spec_text a1 m1) = hash_text (spec_text a2 m2) ->
   spec_text a1 m1 = spec_text a2 m2) ->
  exists h1 h2 c1'' c2'',
    hash_function w1 (S n1) f1 hook1 c1 = (Ret h1, c1'') /\
    hash_function w2 (S n2) f2 hook2 c2 = (Ret h2, c2'') /\
    (h1 = h2 -> a1 = a2 /\ forall name, dict_get m1 name = dict_get m2 name).
Proof.
  intros Hn1 Hn2 Hc1 Hc2 Ha1 Ha2 Hm1 Hm2 Hc1' Hc2' Hdigest.
  pose proof (hash_function_computed _ _ _ _ _ _ _ _ Hn1 Hc1 Ha1 Hm1 Hc1') as E1.
  pose proof (hash_function_computed _ _ _ _ _ _ _ _ Hn2 Hc2 Ha2 Hm2 Hc2') as E2.
  eexists _, _, _, _. split; [exact E1 | split; [exact E2 |]].
  intros Heq. apply Hdigest in Heq.
  apply spec_text_injective in Heq as [Hcode Hentries].
  split; [exact Hcode |]. intros name. now apply entries_lookup.
Qed.

Lemma equal_identities_have_equal_records_witness :
  exists h1 h2 c1'' c2'',
    hash_function Examples.w 4 Examples.f_1 None ∅ = (Ret h1, c1'') /\
    hash_function Examples.w 4 Examples.g_doc None ∅ = (Ret h2, c2'') /\
    (h1 = h2 ->
     "FunctionDef('', arguments([], None, [], [], None, []), [Return(Num(1))], [], None)"
     = "FunctionDef('', arguments([], None, [], [], None, []), [Return(Num(1))], [], None)"
     /\ forall name, dict_get (@nil (string * string)) name = dict_get [] name).
Proof.
  apply (equal_identities_have_equal_records Examples.w Examples.w 3 3
           Examples.f_1 Examples.g_doc None None ∅ ∅ _ _ [] [] ∅ ∅).
  - lia.
  - lia.
  - reflexivity.
  - reflexivity.
  - vm_compute. reflexivity.
  - vm_compute. reflexivity.
  - vm_compute. reflexivity.
  - vm_compute. reflexivity.
  - reflexivity.
  - reflexivity.
  - intros _. reflexivity.
Defined.

(** X20 — A function that reads itself. In a module that is neither
    standard library nor versioned, the function being hashed, met among
    its own dependencies, gets the token [function:self] with no call of
    [hash_function] and no change of the cache; when it is its only
    dependency, the call returns the digest of the record with that one
    token, whatever the hook. *)
Theorem function_reading_itself_gets_self (w : world) (n : nat) (func : loc)
    (hook : option HashHook) (fn : function) (ast_code name : string)
    (c : cache) :
  heap w !! func = Some (HFunction fn) ->
  hashed_recursively w fn ->
  (forall hf fuel c0,
     hash_global w hf fuel func hook (VRef func) c0 = (Ret "function:self", c0)) /\
  (3 <= n ->
   c !! func = None ->
   ast_code_of w func = Ret ast_code ->
   unbound (getclosurevars fn) = ∅ ->
   items_of fn = [(name, VRef func)] ->
   hash_function w (S n) func hook c
   = (Ret (hash_text (spec_text ast_code [(name, "function:self")])),
      <[func := hash_text (spec_text ast_code [(name, "function:self")])]> c)).
Proof.
  intros Hfn Hrec.
  assert (Hself : forall hf fuel c0,
            hash_global w hf fuel func hook (VRef func) c0
            = (Ret "function:self", c0)).
  { intros hf fuel c0. now apply (self_reference_token w hf fuel func hook fn). }
  split; [exact Hself |].
  intros Hn Hc Hast Hub Hitems.
  apply hash_function_computed; try assumption.
  unfold hashed_globals_of. rewrite Hfn.
  unfold lift at 1, mbind at 1, assert.
  rewrite (bool_decide_eq_true_2 _ Hub).
  fold (items_of fn). rewrite Hitems. cbn [hash_items].
  rewrite (mbind_ret _ _ _ _ _
             (try_hash_global_ret _ _ _ _ _ _ _ _ _ _ (Hself _ n c))).
  reflexivity.
Qed.

Lemma function_reading_itself_gets_self_witness :
  hash_function Examples.w 4 Examples.f_recursive (Some Examples.empty_hook) ∅
  = (Ret "da9595aec51488894e994e2549466c200e9f6ed7",
     {[ Examples.f_recursive := "da9595aec51488894e994e2549466c200e9f6ed7" ]}).
Proof.
  destruct (function_reading_itself_gets_self Examples.w 3 Examples.f_recursive
              (Some Examples.empty_hook)
              (Examples.def "f" (Examples.def_return "f" "f()") [] ["f"]
                 [inl VNone] [] {[ "f" := VRef Examples.f_recursive ]})
              "FunctionDef('', arguments([], None, [], [], None, []), [Return(Call(Name('f', Load()), [], []))], [], None)"
              "f" ∅) as [_ H].
  - reflexivity.
  - exists Examples.m_test. repeat split; vm_compute; reflexivity.
  - rewrite H.
    + vm_compute. reflexivity.
    + lia.
    + reflexivity.
    + vm_compute. reflexivity.
    + vm_compute. reflexivity.
    + vm_compute. reflexivity.
Defined.

(** X21 — Dict keys are printed, not tokenized. [deep_transform] rebuilds a
    dict with its keys as they are and only the values transformed: a dict
    whose one key is an instance is serialized with the instance's own
    [repr] in the key's place, whether or not the instance has a
    [__codehash__] method or the hook a token for it — neither is asked. *)
Theorem dict_key_is_printed_as_it_is (w : world) (fuel : nat)
    (hook : option HashHook) (o : loc) (i : instance) (v : val) (text : string) :
  heap w !! o = Some (HInstance i) ->
  repr_hashable fuel w v hook = Ret text ->
  repr_hashable (S fuel) w (VDict [(VRef o, v)]) hook
  = Ret ("{" +:+ i_repr i +:+ ": " +:+ text +:+ "}").
Proof.
  intros Ho Hv. unfold repr_hashable in *.
  apply bind_inv_ret in Hv as (t & Ht & Htext). injection Htext as <-.
  cbn [deep_transform deref map fst py_sorted insert_sorted bind for_each
       dict_getitem py_eq as_number].
  rewrite Nat.eqb_refl. cbn [bind]. rewrite Ht. cbn [bind].
  cbn [repr_tval repr_dict map fst snd Text.join repr_val repr_object].
  rewrite Ho. unfold repr_dict. cbn [map Text.join fst snd repr_object].
  rewrite !append_assoc. reflexivity.
Qed.

Lemma dict_key_is_printed_as_it_is_witness :
  repr_hashable 2 Examples.w (VDict [(VRef Examples.c_obj, VInt 1)]) None
  = Ret "{<test_hashing.C object>: 1}".
Proof.
  apply (dict_key_is_printed_as_it_is Examples.w 1 None Examples.c_obj
           (Instance_ "<test_hashing.C object>" None) (VInt 1) "1").
  - reflexivity.
  - reflexivity.
Defined.
